(** * slither-dataflow: taint graph construction and dependency path queries

    A shallow embedding of two programs of the repository:

    - [taint_analysis.py]: the direct-dependency extractor
      ([compute_direct_dependencies]) and the reverse multi-path search
      ([find_dependency_paths]);
    - [slither_dataflow/analyzers/taint.py] with
      [slither_dataflow/utils/helpers.py]: the worklist builder of the
      taint graph and the reachability check.

    Slither objects (variables, functions, IR operations, expressions) and
    the networkx graph are external to the repository; they are modelled
    here by the fields and the operations the two programs use. *)

From Stdlib Require Import String Ascii.
From Stdlib Require Import List Bool Arith PeanoNat Lia.
Import ListNotations.
Open Scope string_scope.
Open Scope list_scope.

(** ** Direct dependencies: [taint_analysis.py] *)

Module DirectDep.

(** A declared variable.  [var_id] stands for the identity of the Python
    object, so two declarations with one name remain different. *)
Record Var : Type := { var_id : nat; var_name : string }.

(** What an IR operation reads or assigns.  A [Constant] has no
    [non_ssa_version]; [Plain] is a variable without that attribute;
    [SSA v i] is the [i]-th version of [v], whose [non_ssa_version] is
    the variable [v] itself. *)
Inductive IRVar : Type :=
| Constant (value : nat)
| Plain (v : Var)
| SSA (v : Var) (index : nat).

Definition Var_eq_dec (a b : Var) : {a = b} + {a <> b}.
Proof. decide equality; [apply string_dec | apply Nat.eq_dec]. Defined.

Definition IRVar_eq_dec (a b : IRVar) : {a = b} + {a <> b}.
Proof. decide equality; try apply Nat.eq_dec; apply Var_eq_dec. Defined.

(** [isinstance(r, Constant)] *)
Definition is_constant (r : IRVar) : bool :=
  match r with Constant _ => true | _ => false end.

(** [non_ssa(v)]: the [non_ssa_version] when the attribute exists,
    otherwise [v]. *)
Definition non_ssa (v : IRVar) : IRVar :=
  match v with
  | SSA x _ => Plain x
  | _ => v
  end.

(** The assigned value of an operation: the object itself, whether it has
    a true [is_storage], and its [points_to] when that attribute exists
    and is not [None]. *)
Record LValue : Type := {
  lv_var : IRVar;
  lv_is_storage : bool;
  lv_points_to : option IRVar
}.

(** The three classes of operation the extractor tells apart. *)
Inductive OpKind : Type :=
| Index (variable_left : IRVar)
| InternalCall (return_values_ssa : option (list IRVar))
| OtherOp.

Record Operation : Type := {
  op_with_lvalue : bool;          (* isinstance(ir, OperationWithLValue) *)
  lvalue : option LValue;         (* ir.lvalue, None when falsy *)
  op_kind : OpKind;
  read : list IRVar               (* ir.read *)
}.

(** A function or modifier is the list of its nodes; a node is the list
    [irs_ssa] of its operations. *)
Record Function : Type := { fn_name : string; nodes : list (list Operation) }.

Record Contract : Type := {
  name : string;
  functions : list Function;
  modifiers : list Function
}.

Record Slither : Type := { contracts : list Contract }.

(** [DirectDepMap]: a [defaultdict(set)], kept in insertion order.  A key
    exists only once something was added under it. *)
Definition DirectDepMap : Type := list (IRVar * list IRVar).

Definition mem (x : IRVar) (s : list IRVar) : bool :=
  if in_dec IRVar_eq_dec x s then true else false.

(** [s.add(x)] *)
Definition set_add (x : IRVar) (s : list IRVar) : list IRVar :=
  if mem x s then s else s ++ [x].

(** [direct_dep[k]] when [k in direct_dep] *)
Fixpoint dd_get (m : DirectDepMap) (k : IRVar) : option (list IRVar) :=
  match m with
  | [] => None
  | (k', s) :: m' => if IRVar_eq_dec k k' then Some s else dd_get m' k
  end.

(** [direct_dep[k].add(d)] *)
Fixpoint dd_add (m : DirectDepMap) (k d : IRVar) : DirectDepMap :=
  match m with
  | [] => [(k, [d])]
  | (k', s) :: m' =>
      if IRVar_eq_dec k k' then (k', set_add d s) :: m'
      else (k', s) :: dd_add m' k d
  end.

(** The edge "[t] depends directly on [d]" is in the map. *)
Definition has_dep (m : DirectDepMap) (t d : IRVar) : Prop :=
  exists s, dd_get m t = Some s /\ In d s.

(** The variables read by an operation, by its class. *)
Definition reads_of (ir : Operation) : list IRVar :=
  match op_kind ir with
  | Index variable_left => [variable_left]
  | InternalCall (Some rvs) => rvs
  | _ => read ir
  end.

(** The assigned target in canonical form: [points_to] when present, then
    [non_ssa]. *)
Definition target_of (lv : LValue) : IRVar :=
  non_ssa (match lv_points_to lv with Some pts => pts | None => lv_var lv end).

(** The body of [for r in reads]. *)
Definition add_read (lval : IRVar) (dd : DirectDepMap) (r : IRVar) : DirectDepMap :=
  if is_constant r then dd else dd_add dd lval (non_ssa r).

(** The body of [for ir in node.irs_ssa]. *)
Definition process_ir (dd : DirectDepMap) (ir : Operation) : DirectDepMap :=
  if op_with_lvalue ir then
    match lvalue ir with
    | Some lv =>
        if lv_is_storage lv then dd
        else fold_left (add_read (target_of lv)) (reads_of ir) dd
    | None => dd
    end
  else dd.

Definition process_node (dd : DirectDepMap) (node : list Operation) : DirectDepMap :=
  fold_left process_ir node dd.

Definition process_function (dd : DirectDepMap) (f : Function) : DirectDepMap :=
  fold_left process_node (nodes f) dd.

(** The first contract of the unit with the given name. *)
Definition find_contract (s : Slither) (target_contract_name : string) : option Contract :=
  find (fun c => String.eqb (name c) target_contract_name) (contracts s).

(** [compute_direct_dependencies]; [None] is the [sys.exit(-1)] taken
    when the contract is not found. *)
Definition compute_direct_dependencies (s : Slither) (target_contract_name : string)
  : option DirectDepMap :=
  match find_contract s target_contract_name with
  | None => None
  | Some target_contract =>
      Some (fold_left process_function
              (functions target_contract ++ modifiers target_contract) [])
  end.

(** The inner [dfs] of [find_dependency_paths].  The recursion of the
    source is bounded here by [fuel]; [None] means the bound was hit.
    The sets [direct_dep[current]] are visited in insertion order. *)
Fixpoint dfs (direct_dep : DirectDepMap) (input_set : list IRVar)
  (fuel : nat) (current : IRVar) (visited : list IRVar)
  : option (list (list IRVar)) :=
  match fuel with
  | O => None
  | S fuel' =>
      if mem current input_set then Some [[current]]
      else
        match dd_get direct_dep current with
        | None => Some []
        | Some precursors =>
            fold_left
              (fun acc precursor =>
                 match acc with
                 | None => None
                 | Some paths =>
                     if mem precursor visited then Some paths
                     else
                       match dfs direct_dep input_set fuel' precursor
                                 (precursor :: visited) with
                       | None => None
                       | Some subpaths =>
                           Some (paths ++ map (fun sp => sp ++ [current]) subpaths)
                       end
                 end)
              precursors (Some [])
        end
  end.

(** Every variable that occurs as a dependency in the map. *)
Definition all_deps (m : DirectDepMap) : list IRVar := flat_map snd m.

(** A recursion depth the search cannot exceed: each call below the first
    adds to [visited] a dependency that was not in it. *)
Definition depth_bound (m : DirectDepMap) : nat := S (S (length (all_deps m))).

(** [find_dependency_paths(target, direct_dep, input_set)] *)
Definition find_dependency_paths (target : IRVar) (direct_dep : DirectDepMap)
  (input_set : list IRVar) : option (list (list IRVar)) :=
  dfs direct_dep input_set (depth_bound direct_dep) target [target].

(** The dependency edges one operation contributes. *)
Definition op_edges (ir : Operation) : list (IRVar * IRVar) :=
  if op_with_lvalue ir then
    match lvalue ir with
    | Some lv =>
        if lv_is_storage lv then []
        else map (fun r => (target_of lv, non_ssa r))
                 (filter (fun r => negb (is_constant r)) (reads_of ir))
    | None => []
    end
  else [].

(** The edges the operations of a list of functions contribute. *)
Definition edge_of (fs : list Function) (t x : IRVar) : Prop :=
  exists f node ir,
    In f fs /\ In node (nodes f) /\ In ir node /\ In (t, x) (op_edges ir).

(** [s'] is the unit [s] in which one function of one contract has one
    more statement, at any place among its statements. *)
Definition statement_added (s s' : Slither) : Prop :=
  exists cs1 c cs2 fs1 f fs2 ns1 n ns2,
    contracts s = cs1 ++ c :: cs2 /\
    functions c = fs1 ++ f :: fs2 /\
    nodes f = ns1 ++ ns2 /\
    s' = {| contracts :=
              cs1 ++ {| name := name c;
                        functions :=
                          fs1 ++ {| fn_name := fn_name f;
                                    nodes := ns1 ++ n :: ns2 |} :: fs2;
                        modifiers := modifiers c |} :: cs2 |}.

(** One branch of the search, as the recursion of [dfs] walks it: from
    [current], with [visited] holding the variables of the branch so far,
    it answers the path [p]. *)
Inductive branch (direct_dep : DirectDepMap) (input_set : list IRVar)
  : list IRVar -> IRVar -> list IRVar -> Prop :=
| branch_input : forall visited current,
    In current input_set ->
    branch direct_dep input_set visited current [current]
| branch_step : forall visited current precursors precursor sp,
    ~ In current input_set ->
    dd_get direct_dep current = Some precursors ->
    In precursor precursors ->
    ~ In precursor visited ->
    branch direct_dep input_set (precursor :: visited) precursor sp ->
    branch direct_dep input_set visited current (sp ++ [current]).

(** Each variable of the path directly depends on the one before it. *)
Fixpoint linked (direct_dep : DirectDepMap) (p : list IRVar) : Prop :=
  match p with
  | a :: (b :: _) as rest => has_dep direct_dep b a /\ linked direct_dep rest
  | _ => True
  end.

(** What a branch started at [current] answers, said of the path alone:
    [visited] holds [current] and none of the variables before it on the
    path. *)
Definition branch_path (direct_dep : DirectDepMap) (input_set : list IRVar)
  (visited : list IRVar) (current : IRVar) (p : list IRVar) : Prop :=
  (exists x, hd_error p = Some x /\ In x input_set) /\
  (forall y, In y (tl p) -> ~ In y input_set) /\
  last p current = current /\
  linked direct_dep p /\
  NoDup p /\
  (forall y, In y (removelast p) -> ~ In y visited).

(** The sets of the map hold no variable twice. *)
Definition sets_nodup (m : DirectDepMap) : Prop :=
  Forall (fun entry => NoDup (snd entry)) m.

(** A path from an input to [target]: it starts at an input variable and
    meets no other, ends at [target], follows direct dependencies and
    repeats no variable. *)
Definition input_path (direct_dep : DirectDepMap) (input_set : list IRVar)
  (target : IRVar) (p : list IRVar) : Prop :=
  (exists x, hd_error p = Some x /\ In x input_set) /\
  (forall y, In y (tl p) -> ~ In y input_set) /\
  last p target = target /\
  linked direct_dep p /\
  NoDup p.

End DirectDep.

(** ** The taint analyzer: [slither_dataflow/analyzers/taint.py] and
    [slither_dataflow/utils/helpers.py] *)

Module Taint.

(** The class of a variable object: [StateVariable], [LocalVariable]
    (with the outcome of [var in var.function.parameters]) or another
    class. *)
Inductive VarClass : Type :=
| StateVariable
| LocalVariable (declared_parameter : bool)
| OtherVariable.

(** A variable object; [var_id] stands for its identity, so that equality
    of records is the [==] of the Python objects. *)
Record Var : Type := {
  var_id : nat;
  var_name : string;
  var_class : VarClass
}.

Definition VarClass_eq_dec (a b : VarClass) : {a = b} + {a <> b}.
Proof. decide equality; apply Bool.bool_dec. Defined.

Definition Var_eq_dec (a b : Var) : {a = b} + {a <> b}.
Proof.
  decide equality; [apply VarClass_eq_dec | apply string_dec | apply Nat.eq_dec].
Defined.

(** [v in vs] *)
Definition var_in (v : Var) (vs : list Var) : bool :=
  if in_dec Var_eq_dec v vs then true else false.

(** An expression object as [get_expression_variables] sees it: its
    [str()], the variable it names when it is an [Identifier] whose value
    is a [Variable], and its public attributes sorted by what they hold: a
    [Variable], an [Expression], or a list (by attribute name; an item that
    is not an [Expression] is [None]).  Attributes holding anything else,
    or failing on access, are left out, as the source skips them. *)
#[local] Set Warnings "-register-all".
Inductive Expression : Type :=
| Expr (text : string)
       (identifier_value : option Var)
       (var_attrs : list Var)
       (expr_attrs : list Expression)
       (list_attrs : list (string * list (option Expression))).

(** [str(expression)] *)
Definition expr_str (e : Expression) : string :=
  match e with Expr text _ _ _ _ => text end.

(** [expression.arguments] when [hasattr(expression, 'arguments')] *)
Definition arguments (e : Expression) : option (list (option Expression)) :=
  match e with
  | Expr _ _ _ _ lists =>
      match find (fun p => String.eqb (fst p) "arguments") lists with
      | Some (_, items) => Some items
      | None => None
      end
  end.

(** [get_expression_variables]: the result set, without repetition. *)
Fixpoint get_expression_variables (expression : Expression) : list Var :=
  match expression with
  | Expr _ idv vars subs lists =>
      nodup Var_eq_dec
        ((match idv with Some v => [v] | None => [] end)
         ++ vars
         ++ flat_map get_expression_variables subs
         ++ flat_map
              (fun member =>
                 flat_map
                   (fun item =>
                      match item with
                      | Some e => get_expression_variables e
                      | None => []
                      end)
                   (snd member))
              lists)
  end.

(** The variables of [arguments[i]]; an item that is not an expression
    (Python's [None]) has none. *)
Definition item_variables (item : option Expression) : list Var :=
  match item with
  | Some e => get_expression_variables e
  | None => []
  end.

(** An entry of [node.internal_calls]: a [Function] of the unit, named by
    its identity (call graphs may be cyclic), or something else. *)
Inductive CallTarget : Type :=
| CallFunction (callee_id : nat)
| CallOther.

Record Node : Type := {
  expression : option Expression;       (* None when absent or falsy *)
  local_variables_written : list Var;
  state_variables_written : list Var;
  local_variables_read : list Var;
  state_variables_read : list Var;
  internal_calls : list CallTarget;
  source_lines : list nat               (* node.source_mapping.lines *)
}.

(** A function object; [fn_id] stands for its identity: [f == g] is
    [fn_id f = fn_id g]. *)
Record Function : Type := {
  fn_id : nat;
  fn_name : string;
  parameters : list Var;
  nodes : list Node
}.

Record Contract : Type := { functions : list Function }.

(** [f == g] on function objects *)
Definition func_eqb (f g : Function) : bool := Nat.eqb (fn_id f) (fn_id g).

(** [(v, f) == (v', f')] on the tuples of the worklist *)
Definition pair_eqb (p q : Var * Function) : bool :=
  (if Var_eq_dec (fst p) (fst q) then true else false)
  && func_eqb (snd p) (snd q).

(** [p in processed] *)
Definition pair_in (p : Var * Function) (s : list (Var * Function)) : bool :=
  existsb (pair_eqb p) s.

(** *** helpers.py *)

(** [find_variable_by_name] *)
Definition find_variable_by_name (function : Function) (var_name' : string)
  : option Var :=
  match find (fun param => String.eqb (var_name param) var_name'
                           || String.eqb (var_name param) ("_" ++ var_name')%string)
             (parameters function) with
  | Some param => Some param
  | None =>
      match find (fun local_var => String.eqb (var_name local_var) var_name')
                 (flat_map (fun node => local_variables_written node
                                        ++ local_variables_read node)
                           (nodes function)) with
      | Some local_var => Some local_var
      | None =>
          find (fun state_var => String.eqb (var_name state_var) var_name')
               (flat_map (fun node => state_variables_read node
                                      ++ state_variables_written node)
                         (nodes function))
      end
  end.

(** [find_function_by_name] *)
Definition find_function_by_name (contract : Contract) (function_name : string)
  : option Function :=
  find (fun function => String.eqb (fn_name function) function_name)
       (functions contract).

(** *** The graph: [nx.DiGraph] *)

(** The attributes [add_node] is given. *)
Record NodeData : Type := {
  nd_var : Var;
  nd_function : Function;
  nd_var_type : string
}.

(** The attributes [add_edge] is given. *)
Record EdgeData : Type := {
  ed_expression : string;
  ed_line : option nat
}.

(** Nodes and edges with their attribute dictionaries, in insertion order.
    A node that [add_edge] had to create has no attributes ([None]).  An
    edge is keyed by its ordered pair of endpoints, as in a [DiGraph]. *)
Record DiGraph : Type := {
  g_nodes : list (string * option NodeData);
  g_edges : list ((string * string) * EdgeData)
}.

Definition empty_graph : DiGraph := {| g_nodes := []; g_edges := [] |}.

Definition edge_eqb (a b : string * string) : bool :=
  String.eqb (fst a) (fst b) && String.eqb (snd a) (snd b).

(** [k in G] *)
Definition has_node (G : DiGraph) (k : string) : bool :=
  existsb (fun n => String.eqb (fst n) k) (g_nodes G).

(** [G.has_edge(u, v)] *)
Definition has_edge (G : DiGraph) (u v : string) : bool :=
  existsb (fun e => edge_eqb (fst e) (u, v)) (g_edges G).

(** [G.get_edge_data(u, v)] *)
Definition get_edge_data (G : DiGraph) (u v : string) : option EdgeData :=
  match find (fun e => edge_eqb (fst e) (u, v)) (g_edges G) with
  | Some e => Some (snd e)
  | None => None
  end.

(** The edges stored between [u] and [v]. *)
Definition edges_between (G : DiGraph) (u v : string) : list EdgeData :=
  map snd (filter (fun e => edge_eqb (fst e) (u, v)) (g_edges G)).

(** Setting a key of an insertion-ordered dictionary: an existing key
    keeps its place and takes the new value, a new key goes last. *)
Fixpoint dict_set {K V : Type} (eqb : K -> K -> bool) (d : list (K * V)) (k : K) (v : V)
  : list (K * V) :=
  match d with
  | [] => [(k, v)]
  | (k', v') :: d' =>
      if eqb k' k then (k', v) :: d' else (k', v') :: dict_set eqb d' k v
  end.

(** [G.add_node(k, var=.., function=.., var_type=..)]: the three
    attributes given replace those a node of that key had. *)
Definition add_node (G : DiGraph) (k : string) (data : NodeData) : DiGraph :=
  {| g_nodes := dict_set String.eqb (g_nodes G) k (Some data);
     g_edges := g_edges G |}.

(** A node created by [add_edge] for a missing endpoint. *)
Definition touch_node (ns : list (string * option NodeData)) (k : string)
  : list (string * option NodeData) :=
  if existsb (fun n => String.eqb (fst n) k) ns then ns else ns ++ [(k, None)].

(** [G.add_edge(u, v, expression=.., line=..)]: missing endpoints are
    created; the attributes given replace those an edge from [u] to [v]
    had. *)
Definition add_edge (G : DiGraph) (u v : string) (data : EdgeData) : DiGraph :=
  {| g_nodes := touch_node (touch_node (g_nodes G) u) v;
     g_edges := dict_set edge_eqb (g_edges G) (u, v) data |}.

(** *** taint.py *)

(** [_node_key] *)
Definition _node_key (var : Var) (func : option Function) : string :=
  let func_name := match func with Some f => fn_name f | None => "global" end in
  (var_name var ++ "@" ++ func_name)%string.

(** [_get_var_type] *)
Definition _get_var_type (var : Var) : string :=
  match var_class var with
  | StateVariable => "state"
  | LocalVariable true => "parameter"
  | LocalVariable false => "local"
  | OtherVariable => "unknown"
  end.

(** [isinstance(var, StateVariable)] *)
Definition is_state_variable (var : Var) : bool :=
  match var_class var with StateVariable => true | _ => false end.

(** [node.source_mapping.lines[0] if node.source_mapping.lines else None] *)
Definition first_line (node : Node) : option nat := hd_error (source_lines node).

(** The graph under construction together with the worklist. *)
Definition Work : Type := DiGraph * list (Var * Function).

(** [if p not in processed: to_process.append(p)] *)
Definition enqueue (processed to_process : list (Var * Function))
  (p : Var * Function) : list (Var * Function) :=
  if pair_in p processed then to_process else to_process ++ [p].

(** [node.local_variables_written + node.state_variables_written] *)
Definition written (node : Node) : list Var :=
  local_variables_written node ++ state_variables_written node.

(** First block of the loop body of [_process_function_taint]: the
    co-occurrence rule on the expression of one node. *)
Definition expression_rule (func : Function) (var : Var) (current_key : string)
  (processed : list (Var * Function)) (node : Node) (w : Work) : Work :=
  match expression node with
  | Some e =>
      let expr_vars := get_expression_variables e in
      if var_in var expr_vars then
        fold_left
          (fun (w : Work) written_var =>
             if var_in written_var expr_vars then w
             else
               let next_key := _node_key written_var (Some func) in
               let G1 := add_node (fst w) next_key
                           {| nd_var := written_var; nd_function := func;
                              nd_var_type := _get_var_type written_var |} in
               let G2 := add_edge G1 current_key next_key
                           {| ed_expression := expr_str e;
                              ed_line := first_line node |} in
               (G2, enqueue processed (snd w) (written_var, func)))
          (written node) w
      else w
  | None => w
  end.

Section WithDataDependency.

(** Slither's [is_dependent(variable, source, context)]. *)
Variable is_dependent : Var -> Var -> Function -> bool.

(** Second block of the loop body of [_process_function_taint]: the data
    dependency rule on one node. *)
Definition dependency_rule (func : Function) (var : Var) (current_key : string)
  (processed : list (Var * Function)) (node : Node) (w : Work) : Work :=
  fold_left
    (fun (w : Work) written_var =>
       if is_dependent written_var var func then
         let next_key := _node_key written_var (Some func) in
         let G1 := add_node (fst w) next_key
                     {| nd_var := written_var; nd_function := func;
                        nd_var_type := _get_var_type written_var |} in
         let expr_str' := match expression node with
                          | Some e => expr_str e
                          | None => "unknown expression"
                          end in
         let G2 := add_edge G1 current_key next_key
                     {| ed_expression := expr_str'; ed_line := first_line node |} in
         (G2, enqueue processed (snd w) (written_var, func))
       else w)
    (written node) w.

(** [_process_function_taint] *)
Definition _process_function_taint (func : Function) (var : Var)
  (current_key : string) (processed : list (Var * Function)) (w : Work) : Work :=
  fold_left
    (fun w node =>
       dependency_rule func var current_key processed node
         (expression_rule func var current_key processed node w))
    (nodes func) w.

(** [_process_state_var_taint] *)
Definition _process_state_var_taint (contract : Contract) (func : Function)
  (var : Var) (current_key : string) (processed : list (Var * Function))
  (w : Work) : Work :=
  fold_left
    (fun w other_func =>
       if func_eqb other_func func then w
       else
         fold_left
           (fun (w : Work) node =>
              if var_in var (state_variables_read node) then
                let next_key := _node_key var (Some other_func) in
                let G1 := add_node (fst w) next_key
                            {| nd_var := var; nd_function := other_func;
                               nd_var_type := _get_var_type var |} in
                let G2 := add_edge G1 current_key next_key
                            {| ed_expression :=
                                 ("State variable read in " ++ fn_name other_func)%string;
                               ed_line := None |} in
                (G2, enqueue processed (snd w) (var, other_func))
              else w)
           (nodes other_func) w)
    (functions contract) w.

(** [func.parameters.index(var)] *)
Fixpoint index_of (var : Var) (params : list Var) : option nat :=
  match params with
  | [] => None
  | p :: ps =>
      if Var_eq_dec p var then Some 0
      else option_map S (index_of var ps)
  end.

(** [isinstance(internal_call, Function) and internal_call == func] *)
Definition calls (internal_call : CallTarget) (func : Function) : bool :=
  match internal_call with
  | CallFunction callee_id => Nat.eqb callee_id (fn_id func)
  | CallOther => false
  end.

(** The body of [for internal_call in node.internal_calls], for a call
    that is to [func]. *)
Definition argument_rule (func : Function) (var : Var) (param_idx : nat)
  (current_key : string) (processed : list (Var * Function))
  (other_func : Function) (node : Node) (w : Work) : Work :=
  match expression node with
  | Some e =>
      match arguments e with
      | Some args =>
          match nth_error args param_idx with
          | Some arg =>
              fold_left
                (fun (w : Work) arg_var =>
                   let arg_key := _node_key arg_var (Some other_func) in
                   let G1 := add_node (fst w) arg_key
                               {| nd_var := arg_var; nd_function := other_func;
                                  nd_var_type := _get_var_type arg_var |} in
                   let G2 := add_edge G1 arg_key current_key
                               {| ed_expression :=
                                    ("Parameter " ++ var_name var ++ " in call to "
                                       ++ fn_name func)%string;
                                  ed_line := first_line node |} in
                   (G2, enqueue processed (snd w) (arg_var, other_func)))
                (item_variables arg) w
          | None => w
          end
      | None => w
      end
  | None => w
  end.

(** [_process_parameter_taint].  It is called only when [var] is in
    [func.parameters], so that [index] finds it. *)
Definition _process_parameter_taint (contract : Contract) (func : Function)
  (var : Var) (current_key : string) (processed : list (Var * Function))
  (w : Work) : Work :=
  match index_of var (parameters func) with
  | None => w
  | Some param_idx =>
      fold_left
        (fun w other_func =>
           fold_left
             (fun w node =>
                fold_left
                  (fun w internal_call =>
                     if calls internal_call func then
                       argument_rule func var param_idx current_key processed
                         other_func node w
                     else w)
                  (internal_calls node) w)
             (nodes other_func) w)
        (functions contract) w
  end.

(** The body of the [while] loop for a pair that was not processed yet;
    [processed] already holds the pair. *)
Definition process_pair (contract : Contract) (var : Var) (func : Function)
  (processed : list (Var * Function)) (w : Work) : Work :=
  let current_key := _node_key var (Some func) in
  let w1 := _process_function_taint func var current_key processed w in
  let w2 := if is_state_variable var
            then _process_state_var_taint contract func var current_key processed w1
            else w1 in
  if var_in var (parameters func)
  then _process_parameter_taint contract func var current_key processed w2
  else w2.

(** The [while to_process] loop, one iteration per unit of [fuel]; [None]
    when the fuel runs out.  The result carries the final [processed],
    latest pair first. *)
Fixpoint build_loop (fuel : nat) (contract : Contract) (G : DiGraph)
  (to_process processed : list (Var * Function))
  : option (DiGraph * list (Var * Function)) :=
  match fuel with
  | O => None
  | S fuel' =>
      match to_process with
      | [] => Some (G, processed)
      | (var, func) :: rest =>
          if pair_in (var, func) processed
          then build_loop fuel' contract G rest processed
          else
            let processed' := (var, func) :: processed in
            let w := process_pair contract var func processed' (G, rest) in
            build_loop fuel' contract (fst w) (snd w) processed'
      end
  end.

(** The graph holding the source node only. *)
Definition seed_graph (source_func : Function) (source_var : Var) : DiGraph :=
  add_node empty_graph (_node_key source_var (Some source_func))
    {| nd_var := source_var; nd_function := source_func;
       nd_var_type := _get_var_type source_var |}.

(** The run of [_build_taint_graph] with its final [processed] set. *)
Definition build_trace (fuel : nat) (contract : Contract) (source_func : Function)
  (source_var : Var) : option (DiGraph * list (Var * Function)) :=
  build_loop fuel contract (seed_graph source_func source_var)
    [(source_var, source_func)] [].

(** [_build_taint_graph] *)
Definition _build_taint_graph (fuel : nat) (contract : Contract)
  (source_func : Function) (source_var : Var) : option DiGraph :=
  option_map fst (build_trace fuel contract source_func source_var).

End WithDataDependency.

(** *** Reachability: [networkx.shortest_path] and [_check_sink_tainted] *)

Inductive Exception : Type :=
| NodeNotFound           (* networkx: an endpoint is not in the graph *)
| NetworkXNoPath         (* networkx: no path between the endpoints *)
| ValueError (msg : string).

(** What a call does: it returns a value or raises. *)
Inductive Outcome (A : Type) : Type :=
| Returns (a : A)
| Raises (e : Exception).
Arguments Returns {A} a.
Arguments Raises {A} e.

(** [G.successors(u)], in insertion order of the edges. *)
Definition successors (G : DiGraph) (u : string) : list string :=
  map (fun e => snd (fst e))
      (filter (fun e => String.eqb (fst (fst e)) u) (g_edges G)).

Definition str_in (k : string) (ks : list string) : bool :=
  existsb (String.eqb k) ks.

(** One breadth-first layer: every path of the frontier (stored last node
    first) is extended by each successor of its last node that was not
    seen before. *)
Fixpoint expand (G : DiGraph) (frontier : list (list string)) (seen : list string)
  : list (list string) * list string :=
  match frontier with
  | [] => ([], seen)
  | path :: frontier' =>
      let step :=
        fold_left
          (fun (acc : list (list string) * list string) v =>
             if str_in v (snd acc) then acc
             else (fst acc ++ [v :: path], v :: snd acc))
          (match path with u :: _ => successors G u | [] => [] end)
          ([], seen) in
      let rest := expand G frontier' (snd step) in
      (fst step ++ fst rest, snd rest)
  end.

(** Breadth-first search by layers; the first path found that ends at
    [target] is returned, first node first. *)
Fixpoint bfs (G : DiGraph) (fuel : nat) (frontier : list (list string))
  (seen : list string) (target : string) : option (list string) :=
  match fuel with
  | O => None
  | S fuel' =>
      match find (fun path => match path with
                              | u :: _ => String.eqb u target
                              | [] => false
                              end) frontier with
      | Some path => Some (rev path)
      | None =>
          match frontier with
          | [] => None
          | _ => let next := expand G frontier seen in
                 bfs G fuel' (fst next) (snd next) target
          end
      end
  end.

(** [nx.shortest_path(G, source, target)] for two given endpoints:
    [NodeNotFound] when an endpoint is not in the graph, [NetworkXNoPath]
    when the target cannot be reached, otherwise a path with the fewest
    edges.  Every layer of the search sees a new node, so as many layers
    as there are nodes are enough. *)
Definition shortest_path (G : DiGraph) (source target : string)
  : Outcome (list string) :=
  if negb (has_node G source) || negb (has_node G target) then Raises NodeNotFound
  else
    match bfs G (S (length (g_nodes G))) [[source]] [source] target with
    | Some path => Returns path
    | None => Raises NetworkXNoPath
    end.

(** [_check_sink_tainted] *)
Definition _check_sink_tainted (taint_graph : DiGraph) (source_var sink_var : Var)
  (sink_func : Function) : Outcome (bool * list string) :=
  let source_key := _node_key source_var None in
  let sink_key := _node_key sink_var (Some sink_func) in
  if negb (has_node taint_graph sink_key) then Returns (false, [])
  else
    match shortest_path taint_graph source_key sink_key with
    | Returns path => Returns (true, path)
    | Raises NetworkXNoPath => Returns (false, [])
    | Raises e => Raises e
    end.

(** [analyze], up to the call of [_check_sink_tainted]: the value of
    ["vulnerable"] and the path found, or the exception raised.  [None]
    when the graph construction runs out of [fuel]. *)
Definition analyze (is_dependent : Var -> Var -> Function -> bool) (fuel : nat)
  (contract : Contract) (source_function source_variable : string)
  (sink_function sink_variable : string)
  : option (Outcome (bool * list string)) :=
  match find_function_by_name contract source_function with
  | None =>
      Some (Raises (ValueError ("Source function '" ++ source_function
                                ++ "' not found in contract")%string))
  | Some source_func =>
  match find_function_by_name contract sink_function with
  | None =>
      Some (Raises (ValueError ("Sink function '" ++ sink_function
                                ++ "' not found in contract")%string))
  | Some sink_func =>
  match find_variable_by_name source_func source_variable with
  | None =>
      Some (Raises (ValueError ("Source variable '" ++ source_variable
                                ++ "' not found in function '"
                                ++ source_function ++ "'")%string))
  | Some source_var =>
  match find_variable_by_name sink_func sink_variable with
  | None =>
      Some (Raises (ValueError ("Sink variable '" ++ sink_variable
                                ++ "' not found in function '"
                                ++ sink_function ++ "'")%string))
  | Some sink_var =>
  match _build_taint_graph is_dependent fuel contract source_func source_var with
  | None => None
  | Some taint_graph =>
      Some (_check_sink_tainted taint_graph source_var sink_var sink_func)
  end end end end end.

(** *** Notions used to state the properties of the construction *)

(** [G'] has every node and every edge of [G]. *)
Definition graph_le (G G' : DiGraph) : Prop :=
  (forall k, has_node G k = true -> has_node G' k = true) /\
  (forall u v, has_edge G u v = true -> has_edge G' u v = true).

(** No ordered pair of nodes carries more than one edge. *)
Definition single_edges (G : DiGraph) : Prop :=
  forall u v, length (edges_between G u v) <= 1.

(** The identity of a worklist pair: the variable and the identity of the
    function. *)
Definition pair_key (p : Var * Function) : Var * nat := (fst p, fn_id (snd p)).

(** The variables a node can put on the worklist: those it writes and
    those of the arguments of its expression. *)
Definition node_vars (node : Node) : list Var :=
  written node ++
  match expression node with
  | Some e => match arguments e with
              | Some args => flat_map item_variables args
              | None => []
              end
  | None => []
  end.

(** The functions and the variables a construction started at
    [(source_var, source_func)] can meet. *)
Definition unit_funcs (contract : Contract) (source_func : Function) : list Function :=
  source_func :: functions contract.

Definition unit_vars (contract : Contract) (source_func : Function) (source_var : Var)
  : list Var :=
  source_var :: flat_map (fun f => flat_map node_vars (nodes f))
                         (unit_funcs contract source_func).

(** The finitely many (variable, function) pairs of the unit. *)
Definition unit_pairs (contract : Contract) (source_func : Function) (source_var : Var)
  : list (Var * nat) :=
  list_prod (unit_vars contract source_func source_var)
            (map fn_id (unit_funcs contract source_func)).

(** A worklist pair made of a variable and a function of the unit. *)
Definition in_unit (contract : Contract) (source_func : Function) (source_var : Var)
  (p : Var * Function) : Prop :=
  In (fst p) (unit_vars contract source_func source_var) /\
  In (snd p) (unit_funcs contract source_func).

Definition key_eq_dec (a b : Var * nat) : {a = b} + {a <> b}.
Proof. decide equality; [apply Nat.eq_dec | apply Var_eq_dec]. Defined.

(** The pairs of the unit that are not processed yet. *)
Definition unprocessed (contract : Contract) (source_func : Function) (source_var : Var)
  (processed : list (Var * Function)) : list (Var * nat) :=
  filter (fun k => if in_dec key_eq_dec k (map pair_key processed) then false else true)
         (unit_pairs contract source_func source_var).

(** A walk along the edges of the graph, first node first. *)
Fixpoint is_path (G : DiGraph) (p : list string) : Prop :=
  match p with
  | u :: (v :: _) as rest => has_edge G u v = true /\ is_path G rest
  | _ => True
  end.

(** A walk from [source] stored last node first, as the search keeps
    it. *)
Fixpoint is_rpath (G : DiGraph) (source : string) (rp : list string) : Prop :=
  match rp with
  | [] => False
  | v :: rest =>
      match rest with
      | [] => v = source
      | u :: _ => has_edge G u v = true /\ is_rpath G source rest
      end
  end.

(** What the three propagation rules do to the graph and the worklist: a
    run of steps, each adding a node, then an edge, then offering a pair
    that satisfies [Q] to the worklist. *)
Inductive taint_steps (processed : list (Var * Function)) (Q : Var * Function -> Prop)
  : Work -> Work -> Prop :=
| taint_steps_refl : forall w, taint_steps processed Q w w
| taint_steps_step : forall w w' next_key data u v edge p,
    taint_steps processed Q w w' ->
    Q p ->
    taint_steps processed Q w
      (add_edge (add_node (fst w') next_key data) u v edge,
       enqueue processed (snd w') p).

(** *** Reporting: [_get_tainted_variables] and [_format_taint_path] *)

(** An entry of ["tainted_variables"]. *)
Record TaintedVar : Type := {
  tv_name : string;
  tv_function : string;
  tv_type : string
}.

(** [_get_tainted_variables]: one entry for each node that has its
    [var] and [function] attributes, in the order of the nodes. *)
Definition _get_tainted_variables (taint_graph : DiGraph) : list TaintedVar :=
  flat_map
    (fun node =>
       match snd node with
       | Some data =>
           [{| tv_name := var_name (nd_var data);
               tv_function := fn_name (nd_function data);
               tv_type := nd_var_type data |}]
       | None => []
       end)
    (g_nodes taint_graph).

(** [G.nodes[k]]: the attributes of node [k]; [None] is the [KeyError]
    of a key that is not a node. *)
Definition node_data (G : DiGraph) (k : string) : option (option NodeData) :=
  match find (fun n => String.eqb (fst n) k) (g_nodes G) with
  | Some n => Some (snd n)
  | None => None
  end.

(** A step of ["taint_path"]. *)
Record PathStep : Type := {
  from_variable : string;
  from_function : string;
  to_variable : string;
  to_function : string;
  step_expression : string;
  step_line : option nat
}.

(** [var.name if var else "unknown"] on the attributes of a node *)
Definition name_or_unknown (data : option NodeData) : string :=
  match data with Some d => var_name (nd_var d) | None => "unknown" end.

(** [func.name if func else "unknown"] on the attributes of a node *)
Definition function_or_unknown (data : option NodeData) : string :=
  match data with Some d => fn_name (nd_function d) | None => "unknown" end.

(** [_format_taint_path] over the graph held by the analyzer: one step
    for each two consecutive keys of the path.  [None] when the call
    raises: [get_edge_data] answers [None] for two keys without an edge
    (and [.get] fails on it), and [G.nodes[k]] fails for a key that is
    not a node. *)
Fixpoint _format_taint_path (taint_graph : DiGraph) (path : list string)
  : option (list PathStep) :=
  match path with
  | source_node :: ((target_node :: _) as rest) =>
      match get_edge_data taint_graph source_node target_node with
      | None => None
      | Some edge_data =>
          match node_data taint_graph source_node,
                node_data taint_graph target_node with
          | Some source_attrs, Some target_attrs =>
              match _format_taint_path taint_graph rest with
              | Some steps =>
                  Some ({| from_variable := name_or_unknown source_attrs;
                           from_function := function_or_unknown source_attrs;
                           to_variable := name_or_unknown target_attrs;
                           to_function := function_or_unknown target_attrs;
                           step_expression := ed_expression edge_data;
                           step_line := ed_line edge_data |} :: steps)
              | None => None
              end
          | _, _ => None
          end
      end
  | _ => Some []
  end.

(** *** More notions used to state properties *)

(** One step of a propagation rule at the current node: the pair [p]
    gets its node, with its own attributes; an edge joins the current
    node and that node, leaving the current node ([outgoing]) or
    entering it; [p] is offered to the worklist. *)
Definition taint_pair (processed : list (Var * Function)) (current_key : string)
  (outgoing : bool) (p : Var * Function) (edge : EdgeData) (w : Work) : Work :=
  let next_key := _node_key (fst p) (Some (snd p)) in
  let G1 := add_node (fst w) next_key
              {| nd_var := fst p; nd_function := snd p;
                 nd_var_type := _get_var_type (fst p) |} in
  (if outgoing then add_edge G1 current_key next_key edge
   else add_edge G1 next_key current_key edge,
   enqueue processed (snd w) p).

(** A run of such steps, on pairs that satisfy [Q]. *)
Inductive pair_steps (processed : list (Var * Function)) (Q : Var * Function -> Prop)
  (current_key : string) : Work -> Work -> Prop :=
| pair_steps_refl : forall w, pair_steps processed Q current_key w w
| pair_steps_step : forall w w' outgoing p edge,
    pair_steps processed Q current_key w w' ->
    Q p ->
    pair_steps processed Q current_key w
      (taint_pair processed current_key outgoing p edge w').

(** The state of a construction is in order: every node carries the
    attributes of a pair of the unit that is on the worklist or
    processed, under the key of that pair and with the class of its
    variable; every pair on the worklist or processed has its node; every
    edge joins two nodes. *)
Definition in_order (Q : Var * Function -> Prop) (G : DiGraph)
  (pending : list (Var * Function)) : Prop :=
  (forall k d, In (k, d) (g_nodes G) ->
     exists data,
       d = Some data /\
       k = _node_key (nd_var data) (Some (nd_function data)) /\
       nd_var_type data = _get_var_type (nd_var data) /\
       Q (nd_var data, nd_function data) /\
       pair_in (nd_var data, nd_function data) pending = true) /\
  (forall p, In p pending ->
     has_node G (_node_key (fst p) (Some (snd p))) = true) /\
  (forall u v, has_edge G u v = true ->
     has_node G u = true /\ has_node G v = true).


(** The keys of the two ends of a step of the formatted path. *)
Definition step_from (st : PathStep) : string :=
  (from_variable st ++ "@" ++ from_function st)%string.

Definition step_to (st : PathStep) : string :=
  (to_variable st ++ "@" ++ to_function st)%string.

(** The variables in the scope of a function: its parameters and what
    its statements read, write or pass as arguments. *)
Definition scope_vars (function : Function) : list Var :=
  parameters function ++
  flat_map (fun node => local_variables_written node ++ local_variables_read node
                        ++ state_variables_read node ++ state_variables_written node
                        ++ node_vars node)
           (nodes function).

(** [e'] is [e] or an expression held, at any depth, by an attribute of
    [e] or by a list attribute of [e]. *)
Inductive subexpression (e' : Expression) : Expression -> Prop :=
| subexpression_refl : subexpression e' e'
| subexpression_attr : forall text idv vars subs lists s,
    In s subs -> subexpression e' s ->
    subexpression e' (Expr text idv vars subs lists)
| subexpression_item : forall text idv vars subs lists name items s,
    In (name, items) lists -> In (Some s) items -> subexpression e' s ->
    subexpression e' (Expr text idv vars subs lists).

(** The variables an expression object holds itself: the value of an
    [Identifier] and its attributes that are variables. *)
Definition own_variables (e : Expression) : list Var :=
  match e with
  | Expr _ idv vars _ _ =>
      (match idv with Some v => [v] | None => [] end) ++ vars
  end.

(** The key a tainted-variable entry stands for. *)
Definition tv_key (r : TaintedVar) : string :=
  (tv_name r ++ "@" ++ tv_function r)%string.

End Taint.

(** ** The token flow analyzer: [slither_dataflow/analyzers/token_flow.py] *)

Module TokenFlow.
Import Taint.

(** A contract as this analyzer uses it: its functions and its declared
    state variables. *)
Record Contract : Type := {
  functions : list Function;
  state_variables : list Var
}.

(** [needle in hay] on two strings *)
Fixpoint contains (needle hay : string) : bool :=
  String.prefix needle hay ||
  match hay with
  | EmptyString => false
  | String _ rest => contains needle rest
  end.

(** A dictionary with the keys ["name"] and ["type"]. *)
Record Entry : Type := { entry_name : string; entry_type : string }.

(** An entry of [result["variable_modifications"][var_name]]. *)
Record Modification : Type := { mod_function : string; mod_expression : string }.

(** An entry of [result["cross_function_inputs"][var_name]]. *)
Record CrossInput : Type := {
  ci_function : string;
  ci_expression : string;
  ci_parameters : list Entry
}.

(** [d[k]] when [k in d], for a dictionary keyed by strings *)
Fixpoint dict_get {V : Type} (d : list (string * V)) (k : string) : option V :=
  match d with
  | [] => None
  | (k', v) :: d' => if String.eqb k' k then Some v else dict_get d' k
  end.

(** [name in [v["name"] for v in entries]] *)
Definition listed (name : string) (entries : list Entry) : bool :=
  str_in name (map entry_name entries).

(** [str(node.expression)]; a node always has the attribute, and the
    text of an absent expression is ["None"]. *)
Definition node_text (node : Node) : string :=
  match expression node with
  | Some e => expr_str e
  | None => "None"
  end.

Section Facade.

(** [str(var.type)] *)
Variable type_str : Var -> string.

(** Slither's [is_dependent(variable, source, context)]. *)
Variable is_dependent : Var -> Var -> Function -> bool.

(** [{"name": var.name, "type": str(var.type)}] *)
Definition entry_of (v : Var) : Entry :=
  {| entry_name := var_name v; entry_type := type_str v |}.

(** The amount variable object: the first parameter named [amount_var]
    or [_amount_var], else the first local variable of that name that a
    statement writes. *)
Definition find_amount_var (function : Function) (amount_var : string) : option Var :=
  match find (fun param => String.eqb (var_name param) amount_var
                           || String.eqb (var_name param) ("_" ++ amount_var)%string)
             (parameters function) with
  | Some param => Some param
  | None =>
      find (fun local_var => String.eqb (var_name local_var) amount_var)
           (flat_map local_variables_written (nodes function))
  end.

(** The loop over [node.state_variables_read + node.state_variables_written]:
    the check by data dependency. *)
Definition by_dependency (function : Function) (amount_var_obj : Var) (node : Node)
  (found : list Entry) : list Entry :=
  fold_left
    (fun found state_var =>
       if is_dependent amount_var_obj state_var function
          && negb (listed (var_name state_var) found)
       then found ++ [entry_of state_var]
       else found)
    (state_variables_read node ++ state_variables_written node) found.

(** The check of the text of the expression of a node. *)
Definition by_expression (contract : Contract) (amount_var : string) (node : Node)
  (found : list Entry) : list Entry :=
  match expression node with
  | Some e =>
      let expr_str' := expr_str e in
      if contains amount_var expr_str' then
        fold_left
          (fun found state_var =>
             if contains (var_name state_var) expr_str'
                && negb (listed (var_name state_var) found)
             then found ++ [entry_of state_var]
             else found)
          (state_variables contract) found
      else found
  | None => found
  end.

(** The special case for the mapping [balances]. *)
Definition balances_case (contract : Contract) (found : list Entry) : list Entry :=
  if listed "balances" found then found
  else
    match find (fun state_var => String.eqb (var_name state_var) "balances")
               (state_variables contract) with
    | Some state_var =>
        found ++ [{| entry_name := "balances"; entry_type := type_str state_var |}]
    | None => found
    end.

(** [_find_state_variables]: from [result["state_variables"]] before the
    call to what it is after. *)
Definition _find_state_variables (contract : Contract) (function : Function)
  (amount_var : string) (found : list Entry) : list Entry :=
  balances_case contract
    (match find_amount_var function amount_var with
     | Some amount_var_obj =>
         fold_left
           (fun found node =>
              by_expression contract amount_var node
                (by_dependency function amount_var_obj node found))
           (nodes function) found
     | None => found
     end).

(** What the loops over the functions, their nodes and the state
    variables they write append for [var_name], in this order. *)
Definition modifications_of (contract : Contract) (var_name' : string)
  : list Modification :=
  flat_map
    (fun function =>
       flat_map
         (fun node =>
            flat_map
              (fun var =>
                 if String.eqb (var_name var) var_name'
                 then [{| mod_function := fn_name function;
                          mod_expression := node_text node |}]
                 else [])
              (state_variables_written node))
         (nodes function))
    (functions contract).

(** [_find_variable_modifications]: from
    [result["variable_modifications"]] before the call to what it is
    after. *)
Definition _find_variable_modifications (contract : Contract)
  (found : list Entry) (modifications : list (string * list Modification))
  : list (string * list Modification) :=
  fold_left
    (fun d state_var =>
       dict_set String.eqb d (entry_name state_var)
         (modifications_of contract (entry_name state_var)))
    found modifications.

(** The parameters of a function whose name occurs in the text. *)
Definition input_params (function : Function) (text : string) : list Entry :=
  map entry_of
      (filter (fun param => contains (var_name param) text) (parameters function)).

(** The loop over the modifications of one state variable. *)
Definition cross_inputs (contract : Contract) (target_function : string)
  (modifications : list Modification) : list CrossInput :=
  flat_map
    (fun modification =>
       if String.eqb (mod_function modification) target_function then []
       else
         match find (fun function =>
                       String.eqb (fn_name function) (mod_function modification))
                    (functions contract) with
         | Some modifying_function =>
             match input_params modifying_function (mod_expression modification) with
             | [] => []
             | params =>
                 [{| ci_function := mod_function modification;
                     ci_expression := mod_expression modification;
                     ci_parameters := params |}]
             end
         | None => []
         end)
    modifications.

(** [_trace_cross_function_inputs], given the entries ["function"],
    ["state_variables"] and ["variable_modifications"] of the analysis
    result. *)
Definition _trace_cross_function_inputs (contract : Contract)
  (target_function : string) (found : list Entry)
  (modifications : list (string * list Modification))
  : list (string * list CrossInput) :=
  fold_left
    (fun d state_var =>
       dict_set String.eqb d (entry_name state_var)
         (cross_inputs contract target_function
            (match dict_get modifications (entry_name state_var) with
             | Some l => l
             | None => []
             end)))
    found [].

(** What the search for state variables keeps true of the entries
    found: no name twice, and each entry made from a state variable that
    the contract declares or that a statement of the function reads or
    writes. *)
Definition sound_entries (contract : Contract) (function : Function)
  (found : list Entry) : Prop :=
  NoDup (map entry_name found) /\
  forall e, In e found ->
    exists v, e = entry_of v /\
              (In v (state_variables contract) \/
               exists node, In node (nodes function) /\
                            In v (state_variables_read node
                                  ++ state_variables_written node)).

(** The entries of the result of [analyze] other than ["inputs"]. *)
Record Analysis : Type := {
  found_state_variables : list Entry;
  variable_modifications : list (string * list Modification);
  cross_function_inputs : list (string * list CrossInput)
}.

(** [analyze], but for [_find_input_parameters], which fills
    ["inputs"] only and reads none of the other entries. *)
Definition analyze (contract : Contract) (function_name amount_var : string)
  : Outcome Analysis :=
  match find (fun function => String.eqb (fn_name function) function_name)
             (functions contract) with
  | None =>
      Raises (ValueError ("Function '" ++ function_name
                          ++ "' not found in contract")%string)
  | Some target_function =>
      let found := _find_state_variables contract target_function amount_var [] in
      let modifications := _find_variable_modifications contract found [] in
      Returns
        {| found_state_variables := found;
           variable_modifications := modifications;
           cross_function_inputs :=
             _trace_cross_function_inputs contract function_name found modifications |}
  end.

(** *** The standalone script [token_flow_analysis.py] *)

(** What [analyze_amount_relevant_variables] appends for [var_name]: the
    statements of the target function first, under the name asked for,
    then those of the functions with another name. *)
Definition script_modifications_of (contract : Contract) (target_function : Function)
  (function_name var_name' : string) : list Modification :=
  flat_map
    (fun node =>
       flat_map
         (fun var =>
            if String.eqb (var_name var) var_name'
            then [{| mod_function := function_name;
                     mod_expression := node_text node |}]
            else [])
         (state_variables_written node))
    (nodes target_function)
  ++
  flat_map
    (fun function =>
       if String.eqb (fn_name function) function_name then []
       else
         flat_map
           (fun node =>
              flat_map
                (fun var =>
                   if String.eqb (var_name var) var_name'
                   then [{| mod_function := fn_name function;
                            mod_expression := node_text node |}]
                   else [])
                (state_variables_written node))
           (nodes function))
    (functions contract).

(** [analyze_amount_relevant_variables]: the entries
    ["state_variables"] and ["variable_modifications"] of its result.
    When the function is not found it prints an error and returns the
    result as it is, empty. *)
Definition analyze_amount_relevant_variables (contract : Contract)
  (function_name amount_var : string)
  : list Entry * list (string * list Modification) :=
  match find (fun function => String.eqb (fn_name function) function_name)
             (functions contract) with
  | None => ([], [])
  | Some target_function =>
      let found := _find_state_variables contract target_function amount_var [] in
      (found,
       fold_left
         (fun d state_var =>
            dict_set String.eqb d (entry_name state_var)
              (script_modifications_of contract target_function function_name
                 (entry_name state_var)))
         found [])
  end.

End Facade.

End TokenFlow.

(** ** Sample units *)

Module Samples.

(** *** For [taint_analysis.py] *)

Module DD.
Import DirectDep.

Definition x : Var := {| var_id := 1; var_name := "x" |}.
Definition y : Var := {| var_id := 2; var_name := "y" |}.
Definition z : Var := {| var_id := 3; var_name := "z" |}.

Definition assign (target : IRVar) (reads : list IRVar) : Operation :=
  {| op_with_lvalue := true;
     lvalue := Some {| lv_var := target; lv_is_storage := false;
                       lv_points_to := None |};
     op_kind := OtherOp;
     read := reads |}.

(** [x = y + 7] *)
Definition x_gets_y_plus_7 : Operation := assign (SSA x 1) [SSA y 0; Constant 7].

(** [z = x] *)
Definition z_gets_x : Operation := assign (SSA z 1) [SSA x 1].

Definition unit_of (stmts : list (list Operation)) : Slither :=
  {| contracts :=
       [{| name := "C";
           functions := [{| fn_name := "f"; nodes := stmts |}];
           modifiers := [] |}] |}.

Definition one_statement : Slither := unit_of [[x_gets_y_plus_7]].

Definition two_statements : Slither := unit_of [[x_gets_y_plus_7]; [z_gets_x]].

(** Two functions, listed in one order and in the other. *)
Definition fn_f : Function := {| fn_name := "f"; nodes := [[x_gets_y_plus_7]] |}.
Definition fn_g : Function := {| fn_name := "g"; nodes := [[z_gets_x]] |}.
Definition contract_fg : Contract :=
  {| name := "C"; functions := [fn_f; fn_g]; modifiers := [] |}.
Definition contract_gf : Contract :=
  {| name := "C"; functions := [fn_g]; modifiers := [fn_f] |}.
(** A diamond: [t] depends on [a] and [b], both depend on [c], and [c]
    on the input [i]. *)
Definition t : IRVar := Plain {| var_id := 10; var_name := "t" |}.
Definition a : IRVar := Plain {| var_id := 11; var_name := "a" |}.
Definition b : IRVar := Plain {| var_id := 12; var_name := "b" |}.
Definition c : IRVar := Plain {| var_id := 13; var_name := "c" |}.
Definition i : IRVar := Plain {| var_id := 14; var_name := "i" |}.

Definition diamond : DirectDepMap := [(t, [a; b]); (a, [c]); (b, [c]); (c, [i; t])].

End DD.

(** *** For the taint analyzer *)

Module T.
Import Taint.

(** An [Identifier] naming [v]. *)
Definition ident (v : Var) : Expression := Expr (var_name v) (Some v) [v] [] [].

(** An assignment [lhs = rhs] of two identifiers. *)
Definition assignment (text : string) (lhs rhs : Var) : Expression :=
  Expr text None [] [ident lhs; ident rhs]
       [("expressions", [Some (ident lhs); Some (ident rhs)])].

(** A call [name(arg)] with one identifier as argument. *)
Definition call (text : string) (arg : Var) : Expression :=
  Expr text None [] [] [("arguments", [Some (ident arg)])].

Definition no_dependency (_ _ : Var) (_ : Function) : bool := false.

(** Scenario 3 of the specification: [inner(p)], and [outer(x)] which
    calls [inner(x)]. *)
Definition p : Var := {| var_id := 1; var_name := "p"; var_class := LocalVariable true |}.
Definition x : Var := {| var_id := 2; var_name := "x"; var_class := LocalVariable true |}.

Definition inner : Function :=
  {| fn_id := 1; fn_name := "inner"; parameters := [p]; nodes := [] |}.

Definition call_inner : Node :=
  {| expression := Some (call "inner(x)" x);
     local_variables_written := []; state_variables_written := [];
     local_variables_read := [x]; state_variables_read := [];
     internal_calls := [CallFunction 1];
     source_lines := [7] |}.

Definition outer : Function :=
  {| fn_id := 2; fn_name := "outer"; parameters := [x]; nodes := [call_inner] |}.

Definition inner_outer : Contract := {| functions := [inner; outer] |}.

(** The graph built from the seed [(p, inner)]. *)
Definition inner_outer_graph : DiGraph :=
  {| g_nodes :=
       [("p@inner", Some {| nd_var := p; nd_function := inner;
                            nd_var_type := "parameter" |});
        ("x@outer", Some {| nd_var := x; nd_function := outer;
                            nd_var_type := "parameter" |})];
     g_edges :=
       [(("x@outer", "p@inner"),
         {| ed_expression := "Parameter p in call to inner";
            ed_line := Some 7 |})] |}.

(** Scenario 1 of the specification: [withdraw(amount)] with
    [local = amount]. *)
Definition amount : Var :=
  {| var_id := 3; var_name := "amount"; var_class := LocalVariable true |}.
Definition local : Var :=
  {| var_id := 4; var_name := "local"; var_class := LocalVariable false |}.

Definition local_gets_amount : Node :=
  {| expression := Some (assignment "local = amount" local amount);
     local_variables_written := [local]; state_variables_written := [];
     local_variables_read := [amount]; state_variables_read := [];
     internal_calls := [];
     source_lines := [3] |}.

Definition withdraw : Function :=
  {| fn_id := 3; fn_name := "withdraw"; parameters := [amount];
     nodes := [local_gets_amount] |}.

(** A function [f(a)] with two statements that write [b]: the expression
    of the first mentions [a] only, the second is [b = a]. *)
Definition a : Var := {| var_id := 5; var_name := "a"; var_class := LocalVariable true |}.
Definition b : Var := {| var_id := 6; var_name := "b"; var_class := LocalVariable false |}.

Definition first_write : Node :=
  {| expression := Some (call "g(a)" a);
     local_variables_written := [b]; state_variables_written := [];
     local_variables_read := [a]; state_variables_read := [];
     internal_calls := [];
     source_lines := [10] |}.

Definition second_write : Node :=
  {| expression := Some (assignment "b = a" b a);
     local_variables_written := [b]; state_variables_written := [];
     local_variables_read := [a]; state_variables_read := [];
     internal_calls := [];
     source_lines := [11] |}.

Definition f : Function :=
  {| fn_id := 4; fn_name := "f"; parameters := [a];
     nodes := [first_write; second_write] |}.

Definition two_writes : Contract := {| functions := [f] |}.

(** [is_dependent]: [b] depends on [a]. *)
Definition b_on_a (variable source : Var) (_ : Function) : bool :=
  String.eqb (var_name variable) "b" && String.eqb (var_name source) "a".

(** Two overloads of [transfer], both using the state variable [owner]. *)
Definition owner : Var := {| var_id := 7; var_name := "owner"; var_class := StateVariable |}.

Definition transfer1 : Function :=
  {| fn_id := 5; fn_name := "transfer"; parameters := []; nodes := [] |}.
Definition transfer2 : Function :=
  {| fn_id := 6; fn_name := "transfer"; parameters := [x]; nodes := [] |}.

(** Scenario 2 of the specification: [setRate(r)] writes the state
    variable [rate], [compute()] reads it into [out]. *)
Definition rate : Var := {| var_id := 11; var_name := "rate"; var_class := StateVariable |}.
Definition r : Var := {| var_id := 12; var_name := "r"; var_class := LocalVariable true |}.
Definition out : Var := {| var_id := 13; var_name := "out"; var_class := LocalVariable false |}.

Definition rate_gets_r : Node :=
  {| expression := Some (assignment "rate = r" rate r);
     local_variables_written := []; state_variables_written := [rate];
     local_variables_read := [r]; state_variables_read := [];
     internal_calls := [];
     source_lines := [5] |}.

Definition out_gets_rate : Node :=
  {| expression := Some (assignment "out = rate" out rate);
     local_variables_written := [out]; state_variables_written := [];
     local_variables_read := []; state_variables_read := [rate];
     internal_calls := [];
     source_lines := [9] |}.

Definition setRate : Function :=
  {| fn_id := 10; fn_name := "setRate"; parameters := [r]; nodes := [rate_gets_r] |}.
Definition compute : Function :=
  {| fn_id := 11; fn_name := "compute"; parameters := []; nodes := [out_gets_rate] |}.

Definition rate_contract : Contract := {| functions := [setRate; compute] |}.

(** [is_dependent]: [rate] depends on [r], and [out] on [rate]. *)
Definition rate_flow (variable source : Var) (_ : Function) : bool :=
  (String.eqb (var_name variable) "rate" && String.eqb (var_name source) "r")
  || (String.eqb (var_name variable) "out" && String.eqb (var_name source) "rate").

(** A function that is itself named [global], with [b = a]. *)
Definition global_fn : Function :=
  {| fn_id := 30; fn_name := "global"; parameters := [a]; nodes := [second_write] |}.

Definition global_contract : Contract := {| functions := [global_fn] |}.

(** The graph built from the seed [(a, global_fn)]. *)
Definition global_graph : DiGraph :=
  {| g_nodes :=
       [("a@global", Some {| nd_var := a; nd_function := global_fn;
                             nd_var_type := "parameter" |});
        ("b@global", Some {| nd_var := b; nd_function := global_fn;
                             nd_var_type := "local" |})];
     g_edges :=
       [(("a@global", "b@global"),
         {| ed_expression := "b = a"; ed_line := Some 11 |})] |}.

(** Names that hold the separator of the key. *)
Definition a_at_b : Var :=
  {| var_id := 10; var_name := "a@b"; var_class := LocalVariable false |}.
Definition fn_c : Function :=
  {| fn_id := 8; fn_name := "c"; parameters := []; nodes := [] |}.
Definition fn_b_at_c : Function :=
  {| fn_id := 9; fn_name := "b@c"; parameters := []; nodes := [] |}.

(** A function with a parameter [_amount] and a local variable
    [amount]. *)
Definition _amount : Var :=
  {| var_id := 8; var_name := "_amount"; var_class := LocalVariable true |}.
Definition amount_local : Var :=
  {| var_id := 9; var_name := "amount"; var_class := LocalVariable false |}.

Definition amount_gets__amount : Node :=
  {| expression := Some (assignment "amount = _amount" amount_local _amount);
     local_variables_written := [amount_local]; state_variables_written := [];
     local_variables_read := [_amount]; state_variables_read := [];
     internal_calls := [];
     source_lines := [21] |}.

Definition deposit : Function :=
  {| fn_id := 7; fn_name := "deposit"; parameters := [_amount];
     nodes := [amount_gets__amount] |}.

(** Calls of [inner] that are part of a larger expression.  An
    [Identifier] naming a function holds no [Variable]. *)
Definition callee (name : string) : Expression := Expr name None [] [] [].

Definition aa : Var := {| var_id := 20; var_name := "aa"; var_class := LocalVariable true |}.
Definition bb : Var := {| var_id := 21; var_name := "bb"; var_class := LocalVariable true |}.
Definition s : Var := {| var_id := 22; var_name := "s"; var_class := LocalVariable true |}.
Definition t : Var := {| var_id := 23; var_name := "t"; var_class := LocalVariable true |}.
Definition y : Var := {| var_id := 24; var_name := "y"; var_class := LocalVariable false |}.

(** [inner(bb)] *)
Definition inner_of_bb : Expression :=
  Expr "inner(bb)" None [] [callee "inner"] [("arguments", [Some (ident bb)])].

(** [g(aa, inner(bb))] *)
Definition g_of_aa_inner_of_bb : Expression :=
  Expr "g(aa, inner(bb))" None [] [callee "g"]
       [("arguments", [Some (ident aa); Some inner_of_bb])].

Definition g : Function :=
  {| fn_id := 20; fn_name := "g"; parameters := [s; t]; nodes := [] |}.

Definition nested_call : Node :=
  {| expression := Some g_of_aa_inner_of_bb;
     local_variables_written := []; state_variables_written := [];
     local_variables_read := [aa; bb]; state_variables_read := [];
     internal_calls := [CallFunction 20; CallFunction 1];
     source_lines := [7] |}.

(** [outer(aa, bb) { g(aa, inner(bb)); }] *)
Definition outer_nested : Function :=
  {| fn_id := 21; fn_name := "outer"; parameters := [aa; bb];
     nodes := [nested_call] |}.

Definition nested_contract : Contract :=
  {| functions := [inner; g; outer_nested] |}.

(** The graph built from the seed [(p, inner)] in [nested_contract]. *)
Definition nested_graph : DiGraph :=
  {| g_nodes :=
       [("p@inner", Some {| nd_var := p; nd_function := inner;
                            nd_var_type := "parameter" |});
        ("aa@outer", Some {| nd_var := aa; nd_function := outer_nested;
                             nd_var_type := "parameter" |})];
     g_edges :=
       [(("aa@outer", "p@inner"),
         {| ed_expression := "Parameter p in call to inner";
            ed_line := Some 7 |})] |}.

(** [y = inner(x)]: an assignment, whose attributes are its two sides. *)
Definition y_gets_inner_of_x : Expression :=
  Expr "y = inner(x)" None [] [ident y; call "inner(x)" x]
       [("expressions", [Some (ident y); Some (call "inner(x)" x)])].

Definition assigned_call : Node :=
  {| expression := Some y_gets_inner_of_x;
     local_variables_written := [y]; state_variables_written := [];
     local_variables_read := [x]; state_variables_read := [];
     internal_calls := [CallFunction 1];
     source_lines := [7] |}.

(** [outer(x) { y = inner(x); }] *)
Definition outer_assigning : Function :=
  {| fn_id := 22; fn_name := "outer"; parameters := [x];
     nodes := [assigned_call] |}.

Definition assigning_contract : Contract :=
  {| functions := [inner; outer_assigning] |}.

End T.

(** *** For the token flow analyzer *)

Module TF.
Import Taint.

(** A vault: [deposit(value)] adds to [balances], [withdraw(amount)]
    takes from it. *)
Definition balances : Var :=
  {| var_id := 20; var_name := "balances"; var_class := StateVariable |}.
Definition value : Var :=
  {| var_id := 21; var_name := "value"; var_class := LocalVariable true |}.
Definition amount : Var :=
  {| var_id := 22; var_name := "amount"; var_class := LocalVariable true |}.

Definition statement (text : string) (reads writes : list Var) : Node :=
  {| expression := Some (Expr text None [] [] []);
     local_variables_written := []; state_variables_written := writes;
     local_variables_read := []; state_variables_read := reads;
     internal_calls := [];
     source_lines := [] |}.

Definition deposit : Function :=
  {| fn_id := 20; fn_name := "deposit"; parameters := [value];
     nodes := [statement "balances[msg.sender] += value" [balances] [balances]] |}.
Definition withdraw : Function :=
  {| fn_id := 21; fn_name := "withdraw"; parameters := [amount];
     nodes := [statement "balances[msg.sender] -= amount" [balances] [balances]] |}.

Definition vault : TokenFlow.Contract :=
  {| TokenFlow.functions := [deposit; withdraw];
     TokenFlow.state_variables := [balances] |}.

Definition type_of (v : Var) : string :=
  if String.eqb (var_name v) "balances" then "mapping(address => uint256)"
  else "uint256".

Definition no_dependency (_ _ : Var) (_ : Function) : bool := false.

(** What the analysis of [withdraw] with the amount [amount] answers. *)
Definition vault_analysis : TokenFlow.Analysis :=
  {| TokenFlow.found_state_variables :=
       [{| TokenFlow.entry_name := "balances";
           TokenFlow.entry_type := "mapping(address => uint256)" |}];
     TokenFlow.variable_modifications :=
       [("balances",
         [{| TokenFlow.mod_function := "deposit";
             TokenFlow.mod_expression := "balances[msg.sender] += value" |};
          {| TokenFlow.mod_function := "withdraw";
             TokenFlow.mod_expression := "balances[msg.sender] -= amount" |}])];
     TokenFlow.cross_function_inputs :=
       [("balances",
         [{| TokenFlow.ci_function := "deposit";
             TokenFlow.ci_expression := "balances[msg.sender] += value";
             TokenFlow.ci_parameters :=
               [{| TokenFlow.entry_name := "value";
                   TokenFlow.entry_type := "uint256" |}] |}])] |}.

End TF.

End Samples.

(** * Properties *)

(** An invariant of a left fold that each step keeps holds at its end. *)
Lemma fold_left_inv {A B : Type} (P : A -> Prop) (f : A -> B -> A) :
  forall (l : list B) (a : A),
    P a -> (forall a x, In x l -> P a -> P (f a x)) -> P (fold_left f l a).
Proof.
  induction l as [|x l IH]; intros a Ha Hstep; simpl.
  - exact Ha.
  - apply IH.
    + apply Hstep; [now left | exact Ha].
    + intros a' y Hy. apply Hstep. now right.
Qed.

(** ** Facts about [taint_analysis.py] *)

Module DirectDepFacts.
Import DirectDep.

Lemma mem_true_iff (x : IRVar) (s : list IRVar) : mem x s = true <-> In x s.
Proof. unfold mem. destruct (in_dec IRVar_eq_dec x s); split; intros; congruence || auto. Qed.

Lemma mem_false_iff (x : IRVar) (s : list IRVar) : mem x s = false <-> ~ In x s.
Proof. unfold mem. destruct (in_dec IRVar_eq_dec x s); split; intros; congruence || auto. Qed.

Lemma set_add_In (d x : IRVar) (s : list IRVar) :
  In x (set_add d s) <-> In x s \/ x = d.
Proof.
  unfold set_add. destruct (mem d s) eqn:E.
  - apply mem_true_iff in E. split; [auto | intros [H | ->]; auto].
  - rewrite in_app_iff. simpl. split.
    + intros [H | [H | []]]; auto.
    + intros [H | H]; auto.
Qed.

(** What [direct_dep[k].add(d)] changes: exactly the edge [(k, d)] is
    added. *)
Lemma dd_add_has_dep (m : DirectDepMap) (k d t x : IRVar) :
  has_dep (dd_add m k d) t x <-> has_dep m t x \/ (t = k /\ x = d).
Proof.
  unfold has_dep. induction m as [|[k' s] m IH]; simpl.
  - destruct (IRVar_eq_dec t k) as [->|Hne].
    + split.
      * intros (s' & Hs & Hin). inversion Hs; subst. destruct Hin as [->|[]]. auto.
      * intros [(s' & Hs & _) | [_ ->]]; [discriminate|]. exists [d]. simpl; auto.
    + split.
      * intros (s' & Hs & _). discriminate.
      * intros [(s' & Hs & _) | [Ht _]]; [discriminate | contradiction].
  - destruct (IRVar_eq_dec k k') as [->|Hkk']; simpl.
    + destruct (IRVar_eq_dec t k') as [->|Htk'].
      * split.
        -- intros (s' & Hs & Hin). inversion Hs; subst.
           apply set_add_In in Hin. destruct Hin as [Hin | ->]; [left; eauto | auto].
        -- intros [(s' & Hs & Hin) | [_ ->]].
           ++ inversion Hs; subst. eexists; split; [reflexivity|]. apply set_add_In; auto.
           ++ eexists; split; [reflexivity|]. apply set_add_In; auto.
      * split.
        -- intros H; left; exact H.
        -- intros [H | [Ht _]]; [exact H | contradiction].
    + destruct (IRVar_eq_dec t k') as [->|Htk'].
      * split.
        -- intros H; left; exact H.
        -- intros [H | [Ht _]]; [exact H | congruence].
      * exact IH.
Qed.

Lemma add_read_has_dep (lval r : IRVar) (dd : DirectDepMap) (t x : IRVar) :
  has_dep (add_read lval dd r) t x <->
  has_dep dd t x \/ (is_constant r = false /\ t = lval /\ x = non_ssa r).
Proof.
  unfold add_read. destruct (is_constant r) eqn:E.
  - split; [auto | intros [H | [H _]]; [exact H | discriminate]].
  - rewrite dd_add_has_dep. split; intros [H | H]; auto; right; tauto.
Qed.

Lemma fold_add_read_has_dep (lval : IRVar) (reads : list IRVar) :
  forall dd t x,
    has_dep (fold_left (add_read lval) reads dd) t x <->
    has_dep dd t x \/
    (exists r, In r reads /\ is_constant r = false /\ t = lval /\ x = non_ssa r).
Proof.
  induction reads as [|r reads IH]; intros dd t x; simpl.
  - split; [auto | intros [H | (r & [] & _)]; exact H].
  - rewrite IH, add_read_has_dep. split.
    + intros [[H | H] | (r' & Hin & H)]; auto.
      * right. exists r. auto.
      * right. exists r'. auto.
    + intros [H | (r' & [-> | Hin] & H)]; auto.
      right. exists r'. auto.
Qed.

Lemma op_edges_iff (ir : Operation) (t x : IRVar) :
  In (t, x) (op_edges ir) <->
  exists lv r, op_with_lvalue ir = true /\ lvalue ir = Some lv /\
               lv_is_storage lv = false /\ In r (reads_of ir) /\
               is_constant r = false /\ t = target_of lv /\ x = non_ssa r.
Proof.
  unfold op_edges. split.
  - destruct (op_with_lvalue ir); [|intros []].
    destruct (lvalue ir) as [lv|]; [|intros []].
    destruct (lv_is_storage lv) eqn:Es; [intros []|].
    rewrite in_map_iff. intros (r & Heq & Hin). apply filter_In in Hin.
    destruct Hin as [Hin Hc]. inversion Heq; subst.
    exists lv, r. repeat split; auto. now destruct (is_constant r).
  - intros (lv & r & -> & -> & -> & Hin & Hc & -> & ->).
    apply in_map_iff. exists r. split; [reflexivity|].
    apply filter_In. split; [exact Hin | now rewrite Hc].
Qed.

(** One operation adds its own edges to the map and nothing else. *)
Lemma process_ir_has_dep (dd : DirectDepMap) (ir : Operation) (t x : IRVar) :
  has_dep (process_ir dd ir) t x <-> has_dep dd t x \/ In (t, x) (op_edges ir).
Proof.
  rewrite op_edges_iff. unfold process_ir.
  destruct (op_with_lvalue ir).
  2:{ split; [auto | intros [H | (lv & r & H & _)]; [exact H | discriminate]]. }
  destruct (lvalue ir) as [lv|].
  2:{ split; [auto | intros [H | (lv & r & _ & H & _)]; [exact H | discriminate]]. }
  destruct (lv_is_storage lv) eqn:Es.
  - split; [auto | intros [H | (lv' & r & _ & H & Hs & _)]; [exact H |]].
    inversion H; subst. congruence.
  - rewrite fold_add_read_has_dep. split.
    + intros [H | (r & Hin & Hc & -> & ->)]; auto.
      right. exists lv, r. repeat split; auto.
    + intros [H | (lv' & r & _ & Hlv & _ & Hin & Hc & -> & ->)]; auto.
      inversion Hlv; subst. right. exists r. auto.
Qed.

Lemma process_node_has_dep (node : list Operation) :
  forall dd t x,
    has_dep (process_node dd node) t x <->
    has_dep dd t x \/ exists ir, In ir node /\ In (t, x) (op_edges ir).
Proof.
  unfold process_node. induction node as [|ir node IH]; intros dd t x; simpl.
  - split; [auto | intros [H | (ir & [] & _)]; exact H].
  - rewrite IH, process_ir_has_dep. split.
    + intros [[H | H] | (ir' & Hin & H)]; eauto.
    + intros [H | (ir' & [-> | Hin] & H)]; eauto.
Qed.

Lemma process_function_has_dep (f : Function) (dd : DirectDepMap) (t x : IRVar) :
  has_dep (process_function dd f) t x <->
  has_dep dd t x \/
  exists node ir, In node (nodes f) /\ In ir node /\ In (t, x) (op_edges ir).
Proof.
  unfold process_function. revert dd.
  induction (nodes f) as [|node ns IH]; intros dd; simpl.
  - split; [auto | intros [H | (n & ir & [] & _)]; exact H].
  - rewrite IH, process_node_has_dep. split.
    + intros [[H | (ir & Hin & H)] | (n & ir & Hn & Hin & H)]; eauto 8.
    + intros [H | (n & ir & [-> | Hn] & Hin & H)]; eauto 8.
Qed.

Lemma process_functions_has_dep (fs : list Function) :
  forall dd t x,
    has_dep (fold_left process_function fs dd) t x <->
    has_dep dd t x \/ edge_of fs t x.
Proof.
  unfold edge_of. induction fs as [|f fs IH]; intros dd t x; simpl.
  - split; [auto | intros [H | (f & n & ir & [] & _)]; exact H].
  - rewrite IH, process_function_has_dep. split.
    + intros [[H | (n & ir & Hn & Hin & H)] | (f' & n & ir & Hf & Hn & Hin & H)]; eauto 10.
    + intros [H | (f' & n & ir & [-> | Hf] & Hn & Hin & H)]; eauto 10.
Qed.

Lemma has_dep_nil (t x : IRVar) : ~ has_dep [] t x.
Proof. intros (s & Hs & _). discriminate. Qed.

(** The map of a unit holds exactly the edges of the operations of the
    functions and modifiers of the target contract. *)
Lemma compute_direct_dependencies_edges (s : Slither) (nm : string)
  (c : Contract) (t x : IRVar) :
  find_contract s nm = Some c ->
  exists dd, compute_direct_dependencies s nm = Some dd /\
             (has_dep dd t x <-> edge_of (functions c ++ modifiers c) t x).
Proof.
  intros Hc. unfold compute_direct_dependencies. rewrite Hc.
  eexists; split; [reflexivity|].
  rewrite process_functions_has_dep. split; [intros [H | H]; auto | auto].
  now apply has_dep_nil in H.
Qed.

Lemma non_ssa_not_constant (r : IRVar) :
  is_constant r = false -> is_constant (non_ssa r) = false.
Proof. destruct r; simpl; congruence. Qed.

(** C6. The direct-dependency map computed for a unit never holds a
    dependency on a constant: whatever the unit and the target contract,
    every dependency recorded for a variable is not a [Constant]. *)
Theorem no_dependency_on_constant (s : Slither) (nm : string)
  (dd : DirectDepMap) (t d : IRVar) :
  compute_direct_dependencies s nm = Some dd ->
  has_dep dd t d ->
  is_constant d = false.
Proof.
  unfold compute_direct_dependencies.
  destruct (find_contract s nm) as [c|] eqn:Hc; [|discriminate].
  intros Hdd Hdep. inversion Hdd; subst dd; clear Hdd.
  apply process_functions_has_dep in Hdep.
  destruct Hdep as [H | (f & n & ir & _ & _ & _ & H)].
  - now apply has_dep_nil in H.
  - apply op_edges_iff in H.
    destruct H as (lv & r & _ & _ & _ & _ & Hr & _ & ->).
    now apply non_ssa_not_constant.
Qed.

(** A statement whose operands are all constants leaves the map as it
    was. *)
Lemma constant_only_statement_adds_nothing (dd : DirectDepMap) (ir : Operation) :
  (forall r, In r (reads_of ir) -> is_constant r = true) ->
  process_ir dd ir = dd.
Proof.
  intros Hall. unfold process_ir.
  destruct (op_with_lvalue ir); [|reflexivity].
  destruct (lvalue ir) as [lv|]; [|reflexivity].
  destruct (lv_is_storage lv); [reflexivity|].
  revert dd. induction (reads_of ir) as [|r rs IH]; intros dd; simpl; [reflexivity|].
  unfold add_read at 2. rewrite (Hall r (or_introl eq_refl)).
  apply IH. intros r' Hr'. apply Hall. now right.
Qed.

Lemma find_contract_app (nm : string) (cs1 cs2 : list Contract) :
  find (fun c => String.eqb (name c) nm) (cs1 ++ cs2) =
  match find (fun c => String.eqb (name c) nm) cs1 with
  | Some c => Some c
  | None => find (fun c => String.eqb (name c) nm) cs2
  end.
Proof.
  induction cs1 as [|c cs1 IH]; simpl; [reflexivity|].
  destruct (String.eqb (name c) nm); [reflexivity | exact IH].
Qed.

Lemma edge_of_incl (fs fs' : list Function) (t x : IRVar) :
  (forall f, In f fs ->
     exists f', In f' fs' /\ forall node, In node (nodes f) -> In node (nodes f')) ->
  edge_of fs t x -> edge_of fs' t x.
Proof.
  intros Hincl (f & node & ir & Hf & Hn & Hir & He).
  destruct (Hincl f Hf) as (f' & Hf' & Hnodes).
  exists f', node, ir. auto.
Qed.

(** C9. Monotonicity of the direct-dependency map: when one statement is
    added to a function of a unit, every (target, dependency) edge of the
    map computed for the original unit is an edge of the map computed for
    the extended unit. *)
Theorem dependency_map_monotone (s s' : Slither) (nm : string)
  (dd : DirectDepMap) (t d : IRVar) :
  statement_added s s' ->
  compute_direct_dependencies s nm = Some dd ->
  has_dep dd t d ->
  exists dd', compute_direct_dependencies s' nm = Some dd' /\ has_dep dd' t d.
Proof.
  intros (cs1 & c & cs2 & fs1 & f & fs2 & ns1 & n & ns2 & Hcs & Hfs & Hns & ->).
  intros Hdd Hdep.
  destruct (find_contract s nm) as [c0|] eqn:Hc0.
  2:{ unfold compute_direct_dependencies in Hdd. rewrite Hc0 in Hdd. discriminate. }
  destruct (compute_direct_dependencies_edges s nm c0 t d Hc0) as (dd0 & Hdd0 & Hedges).
  rewrite Hdd in Hdd0. inversion Hdd0; subst dd0; clear Hdd0.
  apply Hedges in Hdep. clear Hedges Hdd.
  set (f' := {| fn_name := fn_name f; nodes := ns1 ++ n :: ns2 |}).
  set (c' := {| name := name c; functions := fs1 ++ f' :: fs2;
                modifiers := modifiers c |}).
  assert (Hc : edge_of (functions c ++ modifiers c) t d ->
               edge_of (functions c' ++ modifiers c') t d).
  { apply edge_of_incl. intros g Hg. rewrite Hfs in Hg. simpl.
    rewrite !in_app_iff in Hg. simpl in Hg.
    destruct Hg as [[Hg | [<- | Hg]] | Hg].
    - exists g. rewrite !in_app_iff. simpl. auto.
    - exists f'. rewrite !in_app_iff. simpl. split; [auto|].
      intros node Hnode. rewrite Hns in Hnode. rewrite in_app_iff in *. simpl.
      tauto.
    - exists g. rewrite !in_app_iff. simpl. auto.
    - exists g. rewrite !in_app_iff. simpl. auto. }
  assert (Hfind : find_contract {| contracts := cs1 ++ c' :: cs2 |} nm = Some c0
                  \/ (c0 = c /\
                      find_contract {| contracts := cs1 ++ c' :: cs2 |} nm = Some c')).
  { unfold find_contract in *. simpl. rewrite Hcs in Hc0.
    rewrite find_contract_app in *. simpl in *.
    destruct (find (fun c1 => String.eqb (name c1) nm) cs1); [now left|].
    destruct (String.eqb (name c) nm).
    - right. inversion Hc0. auto.
    - now left. }
  destruct Hfind as [Hfind | [-> Hfind]].
  - destruct (compute_direct_dependencies_edges _ nm c0 t d Hfind) as (dd' & Hdd' & He).
    exists dd'. split; [exact Hdd' | now apply He].
  - destruct (compute_direct_dependencies_edges _ nm c' t d Hfind) as (dd' & Hdd' & He).
    exists dd'. split; [exact Hdd' | apply He; now apply Hc].
Qed.

(** *** The reverse search *)

Lemma dd_get_all_deps (dd : DirectDepMap) (k : IRVar) (s : list IRVar) :
  dd_get dd k = Some s -> incl s (all_deps dd).
Proof.
  unfold all_deps. induction dd as [|[k' s'] dd IH]; simpl; [discriminate|].
  destruct (IRVar_eq_dec k k').
  - intros H; inversion H; subst. apply incl_appl, incl_refl.
  - intros H. apply incl_appr. now apply IH.
Qed.

(** Splits a conjunction of six. *)
Ltac split6 := split; [|split; [|split; [|split; [|split]]]].

Section Search.

Variable direct_dep : DirectDepMap.
Variable input_set : list IRVar.

(** The loop over [direct_dep[current]], for any answer [sub] of the
    recursive calls. *)
Lemma precursor_loop (sub : IRVar -> option (list (list IRVar)))
  (current : IRVar) (visited : list IRVar) :
  forall (precursors : list IRVar) (acc : list (list IRVar)),
    (forall pr, In pr precursors -> ~ In pr visited -> exists sps, sub pr = Some sps) ->
    exists paths,
      fold_left
        (fun acc precursor =>
           match acc with
           | None => None
           | Some paths =>
               if mem precursor visited then Some paths
               else match sub precursor with
                    | None => None
                    | Some subpaths =>
                        Some (paths ++ map (fun sp => sp ++ [current]) subpaths)
                    end
           end)
        precursors (Some acc) = Some paths /\
      forall p, In p paths <->
                In p acc \/
                exists pr sps sp, In pr precursors /\ ~ In pr visited /\
                                  sub pr = Some sps /\ In sp sps /\ p = sp ++ [current].
Proof.
  induction precursors as [|pr prs IH]; intros acc Hsub; simpl.
  - exists acc. split; [reflexivity|].
    intros p; split; [auto | intros [H | (pr & sps & sp & [] & _)]; exact H].
  - destruct (mem pr visited) eqn:Em.
    + apply mem_true_iff in Em.
      destruct (IH acc) as (paths & Hf & Hp).
      { intros pr' Hin. apply Hsub. now right. }
      exists paths. split; [exact Hf|]. intros p. rewrite Hp. split.
      * intros [H | (pr' & sps & sp & Hin & H)]; [auto|].
        right. exists pr', sps, sp. split; [now right | exact H].
      * intros [H | (pr' & sps & sp & [<- | Hin] & Hnv & H)]; [auto | contradiction |].
        right. exists pr', sps, sp. auto.
    + apply mem_false_iff in Em.
      destruct (Hsub pr (or_introl eq_refl) Em) as (sps & Hsps). rewrite Hsps.
      destruct (IH (acc ++ map (fun sp => sp ++ [current]) sps)) as (paths & Hf & Hp).
      { intros pr' Hin. apply Hsub. now right. }
      exists paths. split; [exact Hf|]. intros p. rewrite Hp, in_app_iff, in_map_iff.
      split.
      * intros [[H | (sp & <- & Hsp)] | (pr' & sps' & sp & Hin & H)]; [auto | |].
        -- right. exists pr, sps, sp. auto.
        -- right. exists pr', sps', sp. split; [now right | exact H].
      * intros [H | (pr' & sps' & sp & [<- | Hin] & Hnv & Hs & Hsp & ->)]; [auto | |].
        -- rewrite Hsps in Hs. inversion Hs; subst. left; right. exists sp. auto.
        -- right. exists pr', sps', sp. auto.
Qed.

(** With fuel for every variable not yet on the branch, [dfs] answers,
    and its answer holds exactly the branches of the search. *)
Lemma dfs_branch (U : list IRVar) :
  incl (all_deps direct_dep) U ->
  forall (fuel : nat) (current : IRVar) (visited : list IRVar),
    NoDup visited -> incl visited U -> length U < fuel + length visited ->
    exists paths,
      dfs direct_dep input_set fuel current visited = Some paths /\
      forall p, In p paths <-> branch direct_dep input_set visited current p.
Proof.
  intros HU. induction fuel as [|fuel IH]; intros current visited Hnd Hincl Hlen.
  - pose proof (NoDup_incl_length Hnd Hincl). simpl in Hlen. lia.
  - simpl. destruct (mem current input_set) eqn:Ein.
    + apply mem_true_iff in Ein. exists [[current]]. split; [reflexivity|].
      intros p; split.
      * intros [<- | []]. now constructor.
      * intros Hb. inversion Hb; subst; [now left | contradiction].
    + apply mem_false_iff in Ein.
      destruct (dd_get direct_dep current) as [precursors|] eqn:Eget.
      * destruct (precursor_loop
                    (fun pr => dfs direct_dep input_set fuel pr (pr :: visited))
                    current visited precursors [])
          as (paths & Hf & Hp).
        { intros pr Hin Hnv.
          destruct (IH pr (pr :: visited)) as (sps & Hs & _).
          - now constructor.
          - intros y [<- | Hy]; [|now apply Hincl].
            apply HU. eapply dd_get_all_deps; eauto.
          - simpl. lia.
          - eauto. }
        exists paths. split; [exact Hf|]. intros p. rewrite Hp. split.
        -- intros [[] | (pr & sps & sp & Hin & Hnv & Hs & Hsp & ->)].
           destruct (IH pr (pr :: visited)) as (sps' & Hs' & Hb').
           ++ now constructor.
           ++ intros y [<- | Hy]; [|now apply Hincl].
              apply HU. eapply dd_get_all_deps; eauto.
           ++ simpl. lia.
           ++ rewrite Hs in Hs'. inversion Hs'; subst sps'.
              eapply branch_step; eauto. now apply Hb'.
        -- intros Hb. inversion Hb; subst; [contradiction|]. right.
           match goal with
           | H : dd_get direct_dep current = Some ?prs |- _ =>
               rewrite Eget in H; inversion H; subst prs
           end.
           destruct (IH precursor (precursor :: visited)) as (sps' & Hs' & Hb').
           ++ now constructor.
           ++ intros y [<- | Hy]; [|now apply Hincl].
              apply HU. eapply dd_get_all_deps; eauto.
           ++ simpl. lia.
           ++ exists precursor, sps', sp. repeat split; auto. now apply Hb'.
      * exists []. split; [reflexivity|]. intros p; split; [intros []|].
        intros Hb. inversion Hb; subst; [contradiction | congruence].
Qed.

Lemma linked_snoc (sp : list IRVar) (c : IRVar) :
  sp <> [] ->
  (linked direct_dep (sp ++ [c]) <->
   linked direct_dep sp /\ has_dep direct_dep c (last sp c)).
Proof.
  induction sp as [|a sp IH]; [congruence|]. intros _.
  destruct sp as [|b sp].
  - simpl. tauto.
  - change (linked direct_dep ((a :: b :: sp) ++ [c]))
      with (has_dep direct_dep b a /\ linked direct_dep ((b :: sp) ++ [c])).
    change (linked direct_dep (a :: b :: sp))
      with (has_dep direct_dep b a /\ linked direct_dep (b :: sp)).
    change (last (a :: b :: sp) c) with (last (b :: sp) c).
    rewrite IH by congruence. tauto.
Qed.

Lemma last_nonempty (sp : list IRVar) (c d : IRVar) :
  sp <> [] -> last sp c = last sp d.
Proof.
  induction sp as [|a sp IH]; [congruence|]. intros _.
  destruct sp as [|b sp]; [reflexivity|].
  change (last (b :: sp) c = last (b :: sp) d). apply IH. congruence.
Qed.

Lemma branch_sound (visited : list IRVar) (current : IRVar) (p : list IRVar) :
  branch direct_dep input_set visited current p ->
  In current visited ->
  branch_path direct_dep input_set visited current p.
Proof.
  induction 1 as [visited current Hin
                 | visited current precursors pr sp Hnin Hget Hpr Hnv Hb IH];
    intros Hcur; unfold branch_path.
  - simpl. split6.
    + exists current. auto.
    + intros y [].
    + reflexivity.
    + exact I.
    + repeat constructor. intros [].
    + intros y [].
  - destruct (IH (or_introl eq_refl)) as ((x & Hhd & Hx) & Htl & Hlast & Hlk & Hnd & Hrl).
    assert (Hne : sp <> []) by (intros ->; discriminate).
    assert (Hsp : sp = removelast sp ++ [pr]).
    { rewrite <- Hlast. now apply app_removelast_last. }
    assert (Hprcur : pr <> current) by (intros ->; contradiction).
    split6.
    + exists x. split; [|exact Hx]. destruct sp; [congruence | exact Hhd].
    + intros y Hy. destruct sp as [|a sp]; [congruence|]. simpl in Hy.
      apply in_app_iff in Hy. destruct Hy as [Hy | [<- | []]]; [|exact Hnin].
      apply Htl. exact Hy.
    + apply last_last.
    + apply linked_snoc; [exact Hne|]. split; [exact Hlk|].
      rewrite (last_nonempty sp current pr Hne), Hlast.
      exists precursors. auto.
    + apply NoDup_app; [exact Hnd | repeat constructor; intros [] |].
      intros y Hy [Hyc | []]. subst y. rewrite Hsp in Hy. apply in_app_iff in Hy.
      destruct Hy as [Hy | [Hy | []]]; [|congruence].
      apply (Hrl current Hy). now right.
    + rewrite removelast_last. intros y Hy Hv. rewrite Hsp in Hy.
      apply in_app_iff in Hy. destruct Hy as [Hy | [Hy | []]].
      * apply (Hrl y Hy). now right.
      * subst y. contradiction.
Qed.

Lemma branch_complete :
  forall (p : list IRVar) (visited : list IRVar) (current : IRVar),
    branch_path direct_dep input_set visited current p ->
    branch direct_dep input_set visited current p.
Proof.
  induction p as [|c sp IH] using rev_ind; intros visited current
    ((x & Hhd & Hx) & Htl & Hlast & Hlk & Hnd & Hrl).
  - discriminate.
  - rewrite last_last in Hlast. subst c.
    destruct sp as [|a sp'] eqn:Esp.
    + simpl in Hhd. inversion Hhd; subst. now constructor.
    + rewrite <- Esp in *.
      assert (Hne : sp <> []) by (rewrite Esp; congruence).
      set (pr := last sp current).
      apply linked_snoc in Hlk; [|exact Hne]. destruct Hlk as [Hlk (prs & Hget & Hpr)].
      rewrite removelast_last in Hrl.
      assert (Hsp : sp = removelast sp ++ [pr]) by now apply app_removelast_last.
      assert (Hprsp : In pr sp).
      { rewrite Hsp. apply in_app_iff. right. now left. }
      apply NoDup_app_remove_r in Hnd as Hndsp.
      eapply branch_step with (precursor := pr); eauto.
      * apply Htl. rewrite Esp. simpl. apply in_app_iff. right. now left.
      * apply IH. unfold branch_path. split6.
        -- exists x. split; [|exact Hx]. rewrite Esp in *. exact Hhd.
        -- intros y Hy. apply Htl. rewrite Esp in *. simpl in *.
           apply in_app_iff. now left.
        -- unfold pr. now apply last_nonempty.
        -- exact Hlk.
        -- exact Hndsp.
        -- intros y Hy [Hyp | Hv].
           ++ subst y. rewrite Hsp in Hndsp. apply NoDup_remove_2 in Hndsp.
              rewrite app_nil_r in Hndsp. contradiction.
           ++ apply (Hrl y); [|exact Hv]. rewrite Hsp. apply in_app_iff. now left.
Qed.

End Search.

(** C7. The reverse search from [target] over the direct-dependency map
    always answers, and it answers exactly the paths that start at an
    input variable and meet no other input, end at [target], follow
    direct dependencies step by step and repeat no variable.  So a branch
    stops at the first input it reaches, a variable is excluded only when
    it is already on the branch at hand, a branch that ends on a variable
    with no recorded dependency that is not an input gives no path, and
    every path reads from the input to the target. *)
Theorem find_dependency_paths_spec (target : IRVar) (direct_dep : DirectDepMap)
  (input_set : list IRVar) :
  exists paths,
    find_dependency_paths target direct_dep input_set = Some paths /\
    forall p, In p paths <-> input_path direct_dep input_set target p.
Proof.
  unfold find_dependency_paths, depth_bound.
  destruct (dfs_branch direct_dep input_set (target :: all_deps direct_dep))
    with (fuel := S (S (length (all_deps direct_dep))))
         (current := target) (visited := [target])
    as (paths & Hdfs & Hpaths).
  - apply incl_tl, incl_refl.
  - repeat constructor. intros [].
  - intros y [<- | []]. now left.
  - simpl. lia.
  - exists paths. split; [exact Hdfs|]. intros p. rewrite Hpaths. split.
    + intros Hb. apply branch_sound in Hb; [|now left].
      destruct Hb as (Hhd & Htl & Hlast & Hlk & Hnd & _).
      unfold input_path. auto.
    + intros (Hhd & Htl & Hlast & Hlk & Hnd).
      apply branch_complete. unfold branch_path. split6; auto.
      intros y Hy [Hyt | []]. subst y.
      destruct Hhd as (x & Hhd & _).
      assert (Hne : p <> []) by (intros ->; discriminate).
      rewrite (app_removelast_last target Hne) in Hnd.
      rewrite Hlast in Hnd.
      apply NoDup_remove_2 in Hnd. rewrite app_nil_r in Hnd. contradiction.
Qed.

(** *** The properties on the sample units *)

Import Samples.DD.

(** In [x = y + 7] the constant [7] leaves no dependency. *)
Lemma no_dependency_on_constant_witness :
  compute_direct_dependencies one_statement "C" = Some [(Plain x, [Plain y])] /\
  is_constant (Plain y) = false.
Proof.
  split; [reflexivity|].
  apply (no_dependency_on_constant one_statement "C" [(Plain x, [Plain y])]
           (Plain x) (Plain y)).
  - reflexivity.
  - exists [Plain y]. split; [reflexivity | simpl; auto].
Defined.

(** Adding [z = x] after [x = y + 7] keeps the edge from [x] to [y]. *)
Lemma dependency_map_monotone_witness :
  statement_added one_statement two_statements /\
  exists dd', compute_direct_dependencies two_statements "C" = Some dd' /\
              has_dep dd' (Plain x) (Plain y).
Proof.
  assert (Hadd : statement_added one_statement two_statements).
  { exists [], {| name := "C";
                  functions := [{| fn_name := "f"; nodes := [[x_gets_y_plus_7]] |}];
                  modifiers := [] |}, [],
           [], {| fn_name := "f"; nodes := [[x_gets_y_plus_7]] |}, [],
           [[x_gets_y_plus_7]], [z_gets_x], [].
    repeat split; reflexivity. }
  split; [exact Hadd|].
  apply (dependency_map_monotone one_statement two_statements "C"
           [(Plain x, [Plain y])] (Plain x) (Plain y)).
  - exact Hadd.
  - reflexivity.
  - exists [Plain y]. split; [reflexivity | simpl; auto].
Defined.

(** On the diamond both routes through [c] are answered: [c] is visited
    once on each branch. *)
Example diamond_paths :
  find_dependency_paths t diamond [i] = Some [[i; c; a; t]; [i; c; b; t]].
Proof. reflexivity. Qed.

(** *** Further properties of the extractor *)

(** X1. The map computed for a unit holds exactly the edges of its
    operations: [t] depends on [d] if and only if some operation of a
    function or modifier of the target contract assigns a value, is not a
    write to storage, has [t] as the canonical form of its target
    (through [points_to]) and reads, by its class, a variable that is not
    a constant and whose canonical form is [d]. *)
Theorem direct_dependencies_exact (s : Slither) (nm : string)
  (dd : DirectDepMap) (t d : IRVar) :
  compute_direct_dependencies s nm = Some dd ->
  (has_dep dd t d <->
   exists c f node ir lv r,
     find_contract s nm = Some c /\
     In f (functions c ++ modifiers c) /\ In node (nodes f) /\ In ir node /\
     op_with_lvalue ir = true /\ lvalue ir = Some lv /\
     lv_is_storage lv = false /\
     In r (reads_of ir) /\ is_constant r = false /\
     t = target_of lv /\ d = non_ssa r).
Proof.
  intros Hdd.
  destruct (find_contract s nm) as [c|] eqn:Hc.
  2:{ unfold compute_direct_dependencies in Hdd. rewrite Hc in Hdd. discriminate. }
  destruct (compute_direct_dependencies_edges s nm c t d Hc) as (dd0 & Hdd0 & Hedges).
  rewrite Hdd in Hdd0. inversion Hdd0; subst dd0; clear Hdd0.
  rewrite Hedges. unfold edge_of. split.
  - intros (f & node & ir & Hf & Hn & Hir & He).
    apply op_edges_iff in He. destruct He as (lv & r & He).
    exists c, f, node, ir, lv, r. tauto.
  - intros (c' & f & node & ir & lv & r & Hc' & Hf & Hn & Hir & He).
    inversion Hc'; subst c'.
    exists f, node, ir. repeat split; auto.
    apply op_edges_iff. exists lv, r. exact He.
Qed.

Lemma direct_dependencies_exact_witness :
  has_dep [(Plain x, [Plain y])] (Plain x) (Plain y) <->
  exists c f node ir lv r,
    find_contract one_statement "C" = Some c /\
    In f (functions c ++ modifiers c) /\ In node (nodes f) /\ In ir node /\
    op_with_lvalue ir = true /\ lvalue ir = Some lv /\
    lv_is_storage lv = false /\
    In r (reads_of ir) /\ is_constant r = false /\
    Plain x = target_of lv /\ Plain y = non_ssa r.
Proof.
  apply (direct_dependencies_exact one_statement "C" [(Plain x, [Plain y])]
           (Plain x) (Plain y)).
  reflexivity.
Defined.

Lemma non_ssa_idempotent (v : IRVar) : non_ssa (non_ssa v) = non_ssa v.
Proof. destruct v; reflexivity. Qed.

(** X2. The map only speaks of canonical variables: no target and no
    dependency recorded for a unit is an SSA version. *)
Theorem direct_dependencies_canonical (s : Slither) (nm : string)
  (dd : DirectDepMap) (t d : IRVar) :
  compute_direct_dependencies s nm = Some dd ->
  has_dep dd t d ->
  non_ssa t = t /\ non_ssa d = d.
Proof.
  unfold compute_direct_dependencies.
  destruct (find_contract s nm) as [c|] eqn:Hc; [|discriminate].
  intros Hdd Hdep. inversion Hdd; subst dd; clear Hdd.
  apply process_functions_has_dep in Hdep.
  destruct Hdep as [H | (f & n & ir & _ & _ & _ & H)].
  - now apply has_dep_nil in H.
  - apply op_edges_iff in H.
    destruct H as (lv & r & _ & _ & _ & _ & _ & -> & ->).
    unfold target_of. split; apply non_ssa_idempotent.
Qed.

Lemma direct_dependencies_canonical_witness :
  non_ssa (Plain x) = Plain x /\ non_ssa (Plain y) = Plain y.
Proof.
  apply (direct_dependencies_canonical one_statement "C" [(Plain x, [Plain y])]).
  - reflexivity.
  - exists [Plain y]. split; [reflexivity | simpl; auto].
Defined.

(** Adding an edge that the map has changes nothing. *)
Lemma dd_add_known (m : DirectDepMap) (k d : IRVar) :
  has_dep m k d -> dd_add m k d = m.
Proof.
  unfold has_dep. induction m as [|[k' s] m IH]; simpl.
  - intros (s' & Hs & _). discriminate.
  - destruct (IRVar_eq_dec k k') as [->|Hne].
    + intros (s' & Hs & Hin). inversion Hs; subst s'.
      unfold set_add. apply mem_true_iff in Hin. now rewrite Hin.
    + intros H. f_equal. now apply IH.
Qed.

Lemma process_ir_known (dd : DirectDepMap) (ir : Operation) :
  (forall t d, In (t, d) (op_edges ir) -> has_dep dd t d) ->
  process_ir dd ir = dd.
Proof.
  intros Hknown. unfold process_ir.
  destruct (op_with_lvalue ir) eqn:Eop; [|reflexivity].
  destruct (lvalue ir) as [lv|] eqn:Elv; [|reflexivity].
  destruct (lv_is_storage lv) eqn:Est; [reflexivity|].
  assert (Hreads : forall r, In r (reads_of ir) -> is_constant r = false ->
                             has_dep dd (target_of lv) (non_ssa r)).
  { intros r Hr Hc. apply Hknown. apply op_edges_iff. exists lv, r. auto 10. }
  clear Hknown. induction (reads_of ir) as [|r rs IH]; simpl; [reflexivity|].
  assert (Hstep : add_read (target_of lv) dd r = dd).
  { unfold add_read. destruct (is_constant r) eqn:Ec; [reflexivity|].
    apply dd_add_known. apply Hreads; [now left | exact Ec]. }
  rewrite Hstep. apply IH. intros r' Hr'. apply Hreads. now right.
Qed.

(** X3. Repeated discovery is a no-op: extracting from a function whose
    edges are all in the map already returns the very same map. *)
Theorem process_function_known (dd : DirectDepMap) (f : Function) :
  (forall t d, edge_of [f] t d -> has_dep dd t d) ->
  process_function dd f = dd.
Proof.
  intros Hknown. unfold process_function.
  assert (Hnodes : forall node ir t d,
             In node (nodes f) -> In ir node -> In (t, d) (op_edges ir) ->
             has_dep dd t d).
  { intros node ir t d Hn Hir He. apply Hknown.
    exists f, node, ir. simpl. auto. }
  clear Hknown. induction (nodes f) as [|node ns IH]; simpl; [reflexivity|].
  assert (Hnode : process_node dd node = dd).
  { unfold process_node.
    assert (Hirs : forall ir t d, In ir node -> In (t, d) (op_edges ir) ->
                                  has_dep dd t d).
    { intros ir t d. apply Hnodes. now left. }
    clear Hnodes IH. induction node as [|ir irs IHn]; simpl; [reflexivity|].
    rewrite process_ir_known.
    - apply IHn. intros ir' t d Hir'. apply Hirs. now right.
    - intros t d. apply Hirs. now left. }
  rewrite Hnode. apply IH. intros node' ir t d Hn. apply Hnodes. now right.
Qed.

(** Extracting twice from [x = y + 7] gives the map of the first pass. *)
Lemma process_function_known_witness :
  process_function [(Plain x, [Plain y])]
    {| fn_name := "f"; nodes := [[x_gets_y_plus_7]] |} = [(Plain x, [Plain y])].
Proof.
  apply (process_function_known [(Plain x, [Plain y])]
           {| fn_name := "f"; nodes := [[x_gets_y_plus_7]] |}).
  intros t d (f & node & ir & [<- | []] & [<- | []] & [<- | []] & He).
  simpl in He. destruct He as [He | []]. inversion He; subst.
  exists [Plain y]. split; [reflexivity | simpl; auto].
Defined.

(** X4. The edges of the map depend on which functions and modifiers the
    target contract has, not on their order or on repetitions: two units
    whose target contracts have the same functions and modifiers, in any
    arrangement, give maps with the same edges. *)
Theorem direct_dependencies_order_free (s s' : Slither) (nm : string)
  (c c' : Contract) (dd dd' : DirectDepMap) (t d : IRVar) :
  find_contract s nm = Some c ->
  find_contract s' nm = Some c' ->
  (forall f, In f (functions c ++ modifiers c) <->
             In f (functions c' ++ modifiers c')) ->
  compute_direct_dependencies s nm = Some dd ->
  compute_direct_dependencies s' nm = Some dd' ->
  (has_dep dd t d <-> has_dep dd' t d).
Proof.
  intros Hc Hc' Hsame Hdd Hdd'.
  destruct (compute_direct_dependencies_edges s nm c t d Hc) as (dd0 & Hdd0 & He).
  destruct (compute_direct_dependencies_edges s' nm c' t d Hc') as (dd1 & Hdd1 & He').
  rewrite Hdd in Hdd0. inversion Hdd0; subst dd0.
  rewrite Hdd' in Hdd1. inversion Hdd1; subst dd1.
  rewrite He, He'. unfold edge_of. split.
  - intros (f & node & ir & Hf & H). exists f, node, ir. split; [now apply Hsame | exact H].
  - intros (f & node & ir & Hf & H). exists f, node, ir. split; [now apply Hsame | exact H].
Qed.

Lemma direct_dependencies_order_free_witness :
  has_dep [(Plain x, [Plain y]); (Plain z, [Plain x])] (Plain z) (Plain x) <->
  has_dep [(Plain z, [Plain x]); (Plain x, [Plain y])] (Plain z) (Plain x).
Proof.
  apply (direct_dependencies_order_free
           {| contracts := [contract_fg] |} {| contracts := [contract_gf] |} "C"
           contract_fg contract_gf).
  - reflexivity.
  - reflexivity.
  - intros f. simpl. tauto.
  - reflexivity.
  - reflexivity.
Defined.

(** *** Further properties of the search *)

Lemma set_add_nodup (d : IRVar) (s : list IRVar) : NoDup s -> NoDup (set_add d s).
Proof.
  intros Hs. unfold set_add. destruct (mem d s) eqn:E; [exact Hs|].
  apply mem_false_iff in E. apply NoDup_app; [exact Hs | repeat constructor; intros [] |].
  intros y Hy [Hyd | []]. subst y. contradiction.
Qed.

Lemma dd_add_sets_nodup (m : DirectDepMap) (k d : IRVar) :
  sets_nodup m -> sets_nodup (dd_add m k d).
Proof.
  unfold sets_nodup. induction m as [|[k' s] m IH]; simpl; intros Hm.
  - repeat constructor. intros [].
  - inversion Hm as [|? ? Hs Hrest]; subst. simpl in Hs.
    destruct (IRVar_eq_dec k k').
    + constructor; [now apply set_add_nodup | exact Hrest].
    + constructor; [exact Hs | now apply IH].
Qed.

Lemma process_functions_sets_nodup (fs : list Function) (dd : DirectDepMap) :
  sets_nodup dd -> sets_nodup (fold_left process_function fs dd).
Proof.
  intros Hdd. apply fold_left_inv; [exact Hdd|]. intros a f _ Ha.
  unfold process_function. apply fold_left_inv; [exact Ha|]. intros a' node _ Ha'.
  unfold process_node. apply fold_left_inv; [exact Ha'|]. intros a'' ir _ Ha''.
  unfold process_ir. destruct (op_with_lvalue ir); [|exact Ha''].
  destruct (lvalue ir) as [lv|]; [|exact Ha''].
  destruct (lv_is_storage lv); [exact Ha''|].
  apply fold_left_inv; [exact Ha''|]. intros b r _ Hb.
  unfold add_read. destruct (is_constant r); [exact Hb|].
  now apply dd_add_sets_nodup.
Qed.

Lemma dd_get_nodup (m : DirectDepMap) (k : IRVar) (s : list IRVar) :
  sets_nodup m -> dd_get m k = Some s -> NoDup s.
Proof.
  unfold sets_nodup. induction m as [|[k' s'] m IH]; simpl; [discriminate|].
  intros Hm. inversion Hm as [|? ? Hs Hrest]; subst. simpl in Hs.
  destruct (IRVar_eq_dec k k'); [intros H; inversion H; subst; exact Hs | now apply IH].
Qed.

Lemma nodup_map_snoc (c : IRVar) (sps : list (list IRVar)) :
  NoDup sps -> NoDup (map (fun sp => sp ++ [c]) sps).
Proof.
  induction 1 as [|sp sps Hnin Hnd IH]; simpl; constructor; [|exact IH].
  intros Hin. apply in_map_iff in Hin. destruct Hin as (sp' & Heq & Hsp').
  apply app_inj_tail in Heq. destruct Heq as [-> _]. contradiction.
Qed.

Section NoRepeatedPath.

Variable sub : IRVar -> option (list (list IRVar)).
Variable current : IRVar.
Variable visited : list IRVar.

(** The body of [for precursor in direct_dep[current]]. *)
Let body (acc : option (list (list IRVar))) (precursor : IRVar) :=
  match acc with
  | None => None
  | Some paths =>
      if mem precursor visited then Some paths
      else match sub precursor with
           | None => None
           | Some subpaths => Some (paths ++ map (fun sp => sp ++ [current]) subpaths)
           end
  end.

Lemma body_none (prs : list IRVar) : fold_left body prs None = None.
Proof. induction prs as [|pr prs IH]; simpl; [reflexivity | exact IH]. Qed.

(** [p] came from the recursive call on [pr]. *)
Let from (pr : IRVar) (p : list IRVar) : Prop :=
  exists sp, p = sp ++ [current] /\ sp <> [] /\ last sp current = pr.

Lemma precursor_loop_nodup :
  forall (prs : list IRVar) (acc paths : list (list IRVar)),
    NoDup prs -> NoDup acc ->
    (forall p, In p acc -> exists pr, from pr p /\ ~ In pr prs) ->
    (forall pr sps, In pr prs -> sub pr = Some sps ->
                    NoDup sps /\ forall sp, In sp sps -> sp <> [] /\ last sp pr = pr) ->
    fold_left body prs (Some acc) = Some paths ->
    NoDup paths /\ forall p, In p paths -> p <> [] /\ last p current = current.
Proof.
  induction prs as [|pr prs IH]; intros acc paths Hprs Hacc Htag Hsub Hrun.
  - simpl in Hrun. inversion Hrun; subst paths. split; [exact Hacc|].
    intros p Hp. destruct (Htag p Hp) as (pr & (sp & -> & _ & _) & _).
    split; [now destruct sp | apply last_last].
  - inversion Hprs as [|? ? Hpr Hprs']; subst. simpl in Hrun.
    destruct (mem pr visited) eqn:Em.
    + apply IH with (acc := acc); auto.
      * intros p Hp. destruct (Htag p Hp) as (pr' & Hfrom & Hnin).
        exists pr'. split; [exact Hfrom|]. intros Hin. apply Hnin. now right.
      * intros pr' sps Hin. apply Hsub. now right.
    + destruct (sub pr) as [sps|] eqn:Esub.
      2:{ rewrite body_none in Hrun. discriminate. }
      destruct (Hsub pr sps (or_introl eq_refl) Esub) as [Hsps Hlast].
      apply IH with (acc := acc ++ map (fun sp => sp ++ [current]) sps); auto.
      * apply NoDup_app; [exact Hacc | |].
        -- now apply nodup_map_snoc.
        -- intros p Hp Hp'. apply in_map_iff in Hp'. destruct Hp' as (sp & <- & Hsp).
           destruct (Htag _ Hp) as (pr' & (sp' & Heq & Hne & Hl) & Hnin).
           apply app_inj_tail in Heq. destruct Heq as [<- _].
           destruct (Hlast sp Hsp) as [_ Hl'].
           rewrite (last_nonempty sp current pr Hne) in Hl.
           apply Hnin. left. congruence.
      * intros p Hp. apply in_app_iff in Hp. destruct Hp as [Hp | Hp].
        -- destruct (Htag p Hp) as (pr' & Hfrom & Hnin).
           exists pr'. split; [exact Hfrom|]. intros Hin. apply Hnin. now right.
        -- apply in_map_iff in Hp. destruct Hp as (sp & <- & Hsp).
           destruct (Hlast sp Hsp) as [Hne Hl].
           exists pr. split; [|exact Hpr].
           exists sp. split; [reflexivity|]. split; [exact Hne|].
           now rewrite (last_nonempty sp current pr Hne).
      * intros pr' sps' Hin. apply Hsub. now right.
Qed.

End NoRepeatedPath.

Lemma dfs_nodup (direct_dep : DirectDepMap) (input_set : list IRVar) :
  sets_nodup direct_dep ->
  forall (fuel : nat) (current : IRVar) (visited : list IRVar) paths,
    dfs direct_dep input_set fuel current visited = Some paths ->
    NoDup paths /\ forall p, In p paths -> p <> [] /\ last p current = current.
Proof.
  intros Hdd. induction fuel as [|fuel IH]; intros current visited paths Hrun;
    [discriminate|].
  simpl in Hrun. destruct (mem current input_set).
  - inversion Hrun; subst paths. split.
    + repeat constructor. intros [].
    + intros p [<- | []]. split; [discriminate | reflexivity].
  - destruct (dd_get direct_dep current) as [precursors|] eqn:Eget.
    + apply (precursor_loop_nodup
               (fun pr => dfs direct_dep input_set fuel pr (pr :: visited))
               current visited precursors [] paths).
      * eapply dd_get_nodup; eauto.
      * constructor.
      * intros p [].
      * intros pr sps _ Hs. apply (IH pr (pr :: visited) sps Hs).
      * exact Hrun.
    + inversion Hrun; subst paths. split; [constructor | intros p []].
Qed.

(** X5. On the map computed for a unit the search reports no path
    twice. *)
Theorem no_path_reported_twice (s : Slither) (nm : string) (dd : DirectDepMap)
  (target : IRVar) (input_set : list IRVar) (paths : list (list IRVar)) :
  compute_direct_dependencies s nm = Some dd ->
  find_dependency_paths target dd input_set = Some paths ->
  NoDup paths.
Proof.
  unfold compute_direct_dependencies.
  destruct (find_contract s nm) as [c|]; [|discriminate].
  intros Hdd Hrun. inversion Hdd; subst dd; clear Hdd.
  unfold find_dependency_paths in Hrun.
  eapply dfs_nodup; [|exact Hrun].
  apply process_functions_sets_nodup. constructor.
Qed.

(** From [z] back to the input [y] through [z = x] and [x = y + 7]. *)
Lemma no_path_reported_twice_witness :
  NoDup [[Plain y; Plain x; Plain z]].
Proof.
  apply (no_path_reported_twice two_statements "C"
           [(Plain x, [Plain y]); (Plain z, [Plain x])] (Plain z) [Plain y]).
  - reflexivity.
  - reflexivity.
Defined.

End DirectDepFacts.

(** ** Facts about the taint analyzer *)

Module TaintFacts.
Import Taint.

(** *** The graph *)

Lemma edge_eqb_eq (a b : string * string) : edge_eqb a b = true <-> a = b.
Proof.
  destruct a as [a1 a2], b as [b1 b2]. unfold edge_eqb. simpl.
  rewrite andb_true_iff, !String.eqb_eq. split; [intros [-> ->] | intros H; inversion H]; auto.
Qed.

Lemma edge_eqb_refl (a : string * string) : edge_eqb a a = true.
Proof. now apply edge_eqb_eq. Qed.

Section Dict.

Context {K V : Type}.
Variable eqb : K -> K -> bool.
Hypothesis eqb_eq : forall a b, eqb a b = true <-> a = b.

Lemma eqb_neq (a b : K) : eqb a b = false <-> a <> b.
Proof.
  destruct (eqb a b) eqn:E.
  - apply eqb_eq in E. split; [discriminate | contradiction].
  - split; [|reflexivity]. intros _ H. apply eqb_eq in H. congruence.
Qed.

(** After [d[k] = v], the keys of [d] are those it had and [k]. *)
Lemma dict_set_has (d : list (K * V)) (k k' : K) (v : V) :
  existsb (fun e => eqb (fst e) k') (dict_set eqb d k v) =
  existsb (fun e => eqb (fst e) k') d || eqb k k'.
Proof.
  induction d as [|[k0 v0] d IH]; simpl.
  - now rewrite orb_false_r.
  - destruct (eqb k0 k) eqn:E; simpl.
    + apply eqb_eq in E. subst k0.
      destruct (eqb k k'); simpl; [reflexivity | now rewrite orb_false_r].
    + rewrite IH. now rewrite orb_assoc.
Qed.

(** [d[k] = v] leaves the entries of any other key as they were. *)
Lemma dict_set_other (d : list (K * V)) (k k' : K) (v : V) :
  k <> k' ->
  filter (fun e => eqb (fst e) k') (dict_set eqb d k v) =
  filter (fun e => eqb (fst e) k') d.
Proof.
  intros Hne. apply eqb_neq in Hne as Hb.
  induction d as [|[k0 v0] d IH]; simpl.
  - now rewrite Hb.
  - destruct (eqb k0 k) eqn:E; simpl.
    + apply eqb_eq in E. subst k0. now rewrite Hb.
    + now rewrite IH.
Qed.

(** [d[k] = v] leaves one entry under [k] when there was none or one. *)
Lemma dict_set_same (d : list (K * V)) (k : K) (v : V) :
  length (filter (fun e => eqb (fst e) k) d) <= 1 ->
  filter (fun e => eqb (fst e) k) (dict_set eqb d k v) = [(k, v)].
Proof.
  assert (Hkk : eqb k k = true) by now apply eqb_eq.
  induction d as [|[k0 v0] d IH]; simpl.
  - now rewrite Hkk.
  - destruct (eqb k0 k) eqn:E; simpl.
    + rewrite E. simpl. intros Hlen. apply eqb_eq in E. subst k0.
      destruct (filter (fun e => eqb (fst e) k) d); [reflexivity | simpl in Hlen; lia].
    + rewrite E. exact IH.
Qed.

End Dict.

Lemma has_node_add_node (G : DiGraph) (k k' : string) (data : NodeData) :
  has_node (add_node G k data) k' = has_node G k' || String.eqb k k'.
Proof. unfold has_node, add_node. simpl. apply dict_set_has, String.eqb_eq. Qed.

Lemma has_edge_add_node (G : DiGraph) (k u v : string) (data : NodeData) :
  has_edge (add_node G k data) u v = has_edge G u v.
Proof. reflexivity. Qed.

Lemma touch_node_has (ns : list (string * option NodeData)) (k k' : string) :
  existsb (fun n => String.eqb (fst n) k') (touch_node ns k) =
  existsb (fun n => String.eqb (fst n) k') ns || String.eqb k k'.
Proof.
  unfold touch_node.
  destruct (existsb (fun n => String.eqb (fst n) k) ns) eqn:E.
  - destruct (String.eqb k k') eqn:Ek.
    + apply String.eqb_eq in Ek. subst k'. rewrite E. reflexivity.
    + now rewrite orb_false_r.
  - rewrite existsb_app. simpl. now rewrite orb_false_r.
Qed.

Lemma has_node_add_edge (G : DiGraph) (u v k' : string) (data : EdgeData) :
  has_node (add_edge G u v data) k' =
  has_node G k' || String.eqb u k' || String.eqb v k'.
Proof. unfold has_node, add_edge. simpl. now rewrite !touch_node_has. Qed.

Lemma has_edge_add_edge (G : DiGraph) (u v u' v' : string) (data : EdgeData) :
  has_edge (add_edge G u v data) u' v' =
  has_edge G u' v' || edge_eqb (u, v) (u', v').
Proof. unfold has_edge, add_edge. simpl. apply dict_set_has, edge_eqb_eq. Qed.

(** An edge added for a pair that has one takes its place: the pair
    keeps a single edge, with the attributes given last. *)
Lemma add_edge_overwrites (G : DiGraph) (u v : string) (data : EdgeData) :
  single_edges G ->
  edges_between (add_edge G u v data) u v = [data].
Proof.
  intros Hs. unfold edges_between, add_edge. simpl.
  rewrite (dict_set_same edge_eqb edge_eqb_eq).
  - reflexivity.
  - specialize (Hs u v). unfold edges_between in Hs. now rewrite length_map in Hs.
Qed.

Lemma single_edges_add_node (G : DiGraph) (k : string) (data : NodeData) :
  single_edges G -> single_edges (add_node G k data).
Proof. intros Hs u v. exact (Hs u v). Qed.

Lemma single_edges_add_edge (G : DiGraph) (u v : string) (data : EdgeData) :
  single_edges G -> single_edges (add_edge G u v data).
Proof.
  intros Hs u' v'.
  destruct (edge_eqb (u, v) (u', v')) eqn:E.
  - apply edge_eqb_eq in E. inversion E; subst u' v'.
    rewrite add_edge_overwrites by exact Hs. simpl. lia.
  - unfold edges_between, add_edge. simpl.
    rewrite (dict_set_other edge_eqb edge_eqb_eq).
    + exact (Hs u' v').
    + intros H. apply edge_eqb_eq in H. congruence.
Qed.

Lemma graph_le_refl (G : DiGraph) : graph_le G G.
Proof. split; auto. Qed.

Lemma graph_le_trans (G1 G2 G3 : DiGraph) :
  graph_le G1 G2 -> graph_le G2 G3 -> graph_le G1 G3.
Proof. intros [H1 H2] [H3 H4]. split; auto. Qed.

Lemma graph_le_add_node (G : DiGraph) (k : string) (data : NodeData) :
  graph_le G (add_node G k data).
Proof.
  split.
  - intros k' H. rewrite has_node_add_node, H. reflexivity.
  - intros u v H. exact H.
Qed.

Lemma graph_le_add_edge (G : DiGraph) (u v : string) (data : EdgeData) :
  graph_le G (add_edge G u v data).
Proof.
  split.
  - intros k' H. rewrite has_node_add_edge, H. reflexivity.
  - intros u' v' H. rewrite has_edge_add_edge, H. reflexivity.
Qed.

(** *** The propagation rules as runs of steps *)

Lemma var_in_true_iff (v : Var) (vs : list Var) : var_in v vs = true <-> In v vs.
Proof. unfold var_in. destruct (in_dec Var_eq_dec v vs); split; intros; congruence || auto. Qed.

Lemma var_in_false_iff (v : Var) (vs : list Var) : var_in v vs = false <-> ~ In v vs.
Proof. unfold var_in. destruct (in_dec Var_eq_dec v vs); split; intros; congruence || auto. Qed.

Section Rules.

Variable is_dependent : Var -> Var -> Function -> bool.
Variable contract : Contract.
Variable source_func : Function.
Variable source_var : Var.
Variable processed : list (Var * Function).

Let Q := in_unit contract source_func source_var.
Let steps := taint_steps processed Q.

Lemma node_vars_in_unit (func : Function) (node : Node) (x : Var) :
  In func (unit_funcs contract source_func) -> In node (nodes func) ->
  In x (node_vars node) ->
  In x (unit_vars contract source_func source_var).
Proof.
  intros Hf Hn Hx. unfold unit_vars. apply in_cons.
  apply in_flat_map. exists func. split; [exact Hf|].
  apply in_flat_map. exists node. auto.
Qed.

Lemma written_in_unit (func : Function) (node : Node) (x : Var) :
  In func (unit_funcs contract source_func) -> In node (nodes func) ->
  In x (written node) -> Q (x, func).
Proof.
  intros Hf Hn Hx. split; [|exact Hf]. cbn [fst].
  apply (node_vars_in_unit func node); auto.
  unfold node_vars. apply in_app_iff. now left.
Qed.

Lemma expression_rule_steps (func : Function) (var : Var) (current_key : string)
  (node : Node) (w0 w : Work) :
  In func (unit_funcs contract source_func) -> In node (nodes func) ->
  steps w0 w ->
  steps w0 (expression_rule func var current_key processed node w).
Proof.
  intros Hf Hn Hw. unfold expression_rule.
  destruct (expression node) as [e|]; [|exact Hw].
  destruct (var_in var (get_expression_variables e)); [|exact Hw].
  apply fold_left_inv with (P := steps w0); [exact Hw|].
  intros a x Hx Ha.
  destruct (var_in x (get_expression_variables e)); [exact Ha|].
  apply taint_steps_step; [exact Ha|]. eapply written_in_unit; eauto.
Qed.

Lemma dependency_rule_steps (func : Function) (var : Var) (current_key : string)
  (node : Node) (w0 w : Work) :
  In func (unit_funcs contract source_func) -> In node (nodes func) ->
  steps w0 w ->
  steps w0 (dependency_rule is_dependent func var current_key processed node w).
Proof.
  intros Hf Hn Hw. unfold dependency_rule.
  apply fold_left_inv with (P := steps w0); [exact Hw|].
  intros a x Hx Ha.
  destruct (is_dependent x var func); [|exact Ha].
  apply taint_steps_step; [exact Ha|]. eapply written_in_unit; eauto.
Qed.

Lemma process_function_taint_steps (func : Function) (var : Var)
  (current_key : string) (w0 w : Work) :
  In func (unit_funcs contract source_func) ->
  steps w0 w ->
  steps w0 (_process_function_taint is_dependent func var current_key processed w).
Proof.
  intros Hf Hw. unfold _process_function_taint.
  apply fold_left_inv with (P := steps w0); [exact Hw|].
  intros a node Hn Ha.
  apply dependency_rule_steps; auto. apply expression_rule_steps; auto.
Qed.

Lemma process_state_var_taint_steps (func : Function) (var : Var)
  (current_key : string) (w0 w : Work) :
  In var (unit_vars contract source_func source_var) ->
  steps w0 w ->
  steps w0 (_process_state_var_taint contract func var current_key processed w).
Proof.
  intros Hv Hw. unfold _process_state_var_taint.
  apply fold_left_inv with (P := steps w0); [exact Hw|].
  intros a other_func Hof Ha.
  destruct (func_eqb other_func func); [exact Ha|].
  apply fold_left_inv with (P := steps w0); [exact Ha|].
  intros a' node Hn Ha'.
  destruct (var_in var (state_variables_read node)); [|exact Ha'].
  apply taint_steps_step; [exact Ha'|].
  split; [exact Hv | now right].
Qed.

Lemma argument_in_unit (other_func : Function) (node : Node) (e : Expression)
  (args : list (option Expression)) (i : nat) (arg : option Expression) (x : Var) :
  In other_func (functions contract) -> In node (nodes other_func) ->
  expression node = Some e -> arguments e = Some args ->
  nth_error args i = Some arg -> In x (item_variables arg) ->
  Q (x, other_func).
Proof.
  intros Hof Hn He Ha Hnth Hx. split; [|now right]. cbn [fst].
  apply (node_vars_in_unit other_func node); [now right | exact Hn |].
  unfold node_vars. apply in_app_iff. right. rewrite He, Ha.
  apply in_flat_map. exists arg. split; [|exact Hx].
  eapply nth_error_In; eauto.
Qed.

Lemma argument_rule_steps (func : Function) (var : Var) (param_idx : nat)
  (current_key : string) (other_func : Function) (node : Node) (w0 w : Work) :
  In other_func (functions contract) -> In node (nodes other_func) ->
  steps w0 w ->
  steps w0 (argument_rule func var param_idx current_key processed other_func node w).
Proof.
  intros Hof Hn Hw. unfold argument_rule.
  destruct (expression node) as [e|] eqn:He; [|exact Hw].
  destruct (arguments e) as [args|] eqn:Ha; [|exact Hw].
  destruct (nth_error args param_idx) as [arg|] eqn:Hnth; [|exact Hw].
  apply fold_left_inv with (P := steps w0); [exact Hw|].
  intros a x Hx Hst.
  apply taint_steps_step; [exact Hst|]. eapply argument_in_unit; eauto.
Qed.

Lemma process_parameter_taint_steps (func : Function) (var : Var)
  (current_key : string) (w0 w : Work) :
  steps w0 w ->
  steps w0 (_process_parameter_taint contract func var current_key processed w).
Proof.
  intros Hw. unfold _process_parameter_taint.
  destruct (index_of var (parameters func)) as [param_idx|]; [|exact Hw].
  apply fold_left_inv with (P := steps w0); [exact Hw|].
  intros a other_func Hof Ha.
  apply fold_left_inv with (P := steps w0); [exact Ha|].
  intros a' node Hn Ha'.
  apply fold_left_inv with (P := steps w0); [exact Ha'|].
  intros a'' ic Hic Ha''.
  destruct (calls ic func); [|exact Ha''].
  apply argument_rule_steps; auto.
Qed.

(** The body of the loop is a run of steps. *)
Lemma process_pair_steps (var : Var) (func : Function) (w : Work) :
  Q (var, func) ->
  steps w (process_pair is_dependent contract var func processed w).
Proof.
  intros [Hv Hf]. simpl in Hv, Hf. unfold process_pair.
  assert (H1 : steps w (_process_function_taint is_dependent func var
                          (_node_key var (Some func)) processed w)).
  { apply process_function_taint_steps; [exact Hf | constructor]. }
  assert (H2 : steps w
                 (if is_state_variable var
                  then _process_state_var_taint contract func var
                         (_node_key var (Some func)) processed
                         (_process_function_taint is_dependent func var
                            (_node_key var (Some func)) processed w)
                  else _process_function_taint is_dependent func var
                         (_node_key var (Some func)) processed w)).
  { destruct (is_state_variable var); [|exact H1].
    apply process_state_var_taint_steps; assumption. }
  destruct (var_in var (parameters func)); [|exact H2].
  apply process_parameter_taint_steps. exact H2.
Qed.

End Rules.

(** *** What a run of steps keeps *)

Section Steps.

Variable processed : list (Var * Function).
Variable Q : Var * Function -> Prop.

Lemma taint_steps_graph_le (w w' : Work) :
  taint_steps processed Q w w' -> graph_le (fst w) (fst w').
Proof.
  induction 1 as [w | w w' nk nd u v ed p Hs IH HQ]; simpl.
  - apply graph_le_refl.
  - eapply graph_le_trans; [exact IH|].
    eapply graph_le_trans; [apply graph_le_add_node | apply graph_le_add_edge].
Qed.

Lemma taint_steps_single_edges (w w' : Work) :
  taint_steps processed Q w w' -> single_edges (fst w) -> single_edges (fst w').
Proof.
  induction 1 as [w | w w' nk nd u v ed p Hs IH HQ]; simpl; intros Hsingle.
  - exact Hsingle.
  - apply single_edges_add_edge, single_edges_add_node. auto.
Qed.

Lemma taint_steps_queue (w w' : Work) :
  taint_steps processed Q w w' -> Forall Q (snd w) -> Forall Q (snd w').
Proof.
  induction 1 as [w | w w' nk nd u v ed p Hs IH HQ]; simpl; intros Hq.
  - exact Hq.
  - unfold enqueue. destruct (pair_in p processed); [auto|].
    apply Forall_app. split; [auto | now constructor].
Qed.

End Steps.

(** *** The worklist loop *)

Lemma pair_eqb_key (p q : Var * Function) :
  pair_eqb p q = true <-> pair_key p = pair_key q.
Proof.
  unfold pair_eqb, pair_key, func_eqb. destruct p as [v f], q as [v' f']. simpl.
  rewrite andb_true_iff, Nat.eqb_eq.
  destruct (Var_eq_dec v v') as [->|Hne]; split.
  - intros [_ ->]. reflexivity.
  - intros H; inversion H; auto.
  - intros [H _]; discriminate.
  - intros H; inversion H; contradiction.
Qed.

Lemma pair_in_key (p : Var * Function) (s : list (Var * Function)) :
  pair_in p s = true <-> In (pair_key p) (map pair_key s).
Proof.
  unfold pair_in. rewrite existsb_exists, in_map_iff. split.
  - intros (q & Hq & He). apply pair_eqb_key in He. exists q. auto.
  - intros (q & He & Hq). exists q. split; [exact Hq|]. now apply pair_eqb_key.
Qed.

Lemma filter_length_le {A : Type} (f g : A -> bool) (l : list A) :
  (forall y, g y = true -> f y = true) ->
  length (filter g l) <= length (filter f l).
Proof.
  intros Himp. induction l as [|a l IH]; simpl; [lia|].
  destruct (g a) eqn:Eg.
  - rewrite (Himp a Eg). simpl. lia.
  - destruct (f a); simpl; lia.
Qed.

Lemma filter_length_lt {A : Type} (f g : A -> bool) (l : list A) (x : A) :
  In x l -> f x = true -> g x = false ->
  (forall y, g y = true -> f y = true) ->
  length (filter g l) < length (filter f l).
Proof.
  intros Hx Hf Hg Himp. induction l as [|a l IH]; [contradiction|].
  simpl. destruct Hx as [-> | Hx].
  - rewrite Hf, Hg. simpl.
    pose proof (filter_length_le f g l Himp). lia.
  - specialize (IH Hx). destruct (g a) eqn:Eg.
    + rewrite (Himp a Eg). simpl. lia.
    + destruct (f a); simpl; lia.
Qed.

Lemma fresh_key_iff (k : Var * nat) (ks : list (Var * nat)) :
  (if in_dec key_eq_dec k ks then false else true) = true <-> ~ In k ks.
Proof. destruct (in_dec key_eq_dec k ks); split; intros; congruence || auto. Qed.

Lemma fresh_key_false (k : Var * nat) (ks : list (Var * nat)) :
  In k ks -> (if in_dec key_eq_dec k ks then false else true) = false.
Proof. destruct (in_dec key_eq_dec k ks); intros; congruence || auto. Qed.

Section Loop.

Variable is_dependent : Var -> Var -> Function -> bool.
Variable contract : Contract.

(** More fuel does not change the answer of the loop. *)
Lemma build_loop_more_fuel :
  forall (fuel : nat) (G : DiGraph) (q processed : list (Var * Function)) R,
    build_loop is_dependent fuel contract G q processed = Some R ->
    forall fuel', fuel <= fuel' ->
      build_loop is_dependent fuel' contract G q processed = Some R.
Proof.
  induction fuel as [|fuel IH]; intros G q processed R Hrun fuel' Hle;
    [discriminate|].
  destruct fuel' as [|fuel']; [lia|].
  simpl in *. destruct q as [|[var func] rest]; [exact Hrun|].
  destruct (pair_in (var, func) processed).
  - apply IH with (fuel' := fuel') in Hrun; [exact Hrun | lia].
  - apply IH with (fuel' := fuel') in Hrun; [exact Hrun | lia].
Qed.

(** A property of the graph and the processed set that the body of the
    loop keeps holds when the loop ends. *)
Lemma build_loop_invariant (P : DiGraph -> list (Var * Function) -> Prop) :
  (forall G q processed var func,
      P G processed -> pair_in (var, func) processed = false ->
      P (fst (process_pair is_dependent contract var func
                ((var, func) :: processed) (G, q)))
        ((var, func) :: processed)) ->
  forall (fuel : nat) (G : DiGraph) (q processed : list (Var * Function)) R,
    P G processed ->
    build_loop is_dependent fuel contract G q processed = Some R ->
    P (fst R) (snd R).
Proof.
  intros Hbody. induction fuel as [|fuel IH]; intros G q processed R HP Hrun;
    [discriminate|].
  simpl in Hrun. destruct q as [|[var func] rest].
  - inversion Hrun; subst. exact HP.
  - destruct (pair_in (var, func) processed) eqn:Ein.
    + eapply IH; eauto.
    + eapply IH; [|exact Hrun]. now apply Hbody.
Qed.

Variable source_func : Function.
Variable source_var : Var.

Let Q := in_unit contract source_func source_var.
Let pairs := unit_pairs contract source_func source_var.

Lemma in_unit_pairs (p : Var * Function) : Q p -> In (pair_key p) pairs.
Proof.
  intros [Hv Hf]. unfold pairs, unit_pairs, pair_key.
  apply in_prod; [exact Hv | now apply in_map].
Qed.

Lemma unprocessed_shrinks (p : Var * Function) (processed : list (Var * Function)) :
  Q p -> pair_in p processed = false ->
  length (unprocessed contract source_func source_var (p :: processed)) <
  length (unprocessed contract source_func source_var processed).
Proof.
  intros HQ Hnin. unfold unprocessed.
  apply filter_length_lt with (x := pair_key p).
  - now apply in_unit_pairs.
  - apply fresh_key_iff. intros Hin. apply pair_in_key in Hin. congruence.
  - apply fresh_key_false. now left.
  - intros y Hy. apply fresh_key_iff in Hy. apply fresh_key_iff.
    intros Hin. apply Hy. now right.
Qed.

(** From any state whose pairs are pairs of the unit the loop ends, and
    it processes no pair twice. *)
Lemma build_loop_terminates :
  forall (m : nat) (processed : list (Var * Function)),
    length (unprocessed contract source_func source_var processed) <= m ->
    NoDup (map pair_key processed) ->
    incl (map pair_key processed) pairs ->
    forall (q : list (Var * Function)) (G : DiGraph),
      Forall Q q ->
      exists fuel R,
        build_loop is_dependent fuel contract G q processed = Some R /\
        NoDup (map pair_key (snd R)) /\
        incl (map pair_key (snd R)) pairs.
Proof.
  induction m as [|m IHm]; intros processed Hm Hnd Hincl;
    induction q as [|[var func] rest IHq]; intros G Hq.
  - exists 1, (G, processed). auto.
  - inversion Hq as [|? ? Hp Hrest]; subst.
    destruct (pair_in (var, func) processed) eqn:Ein.
    + destruct (IHq G Hrest) as (fuel & R & Hrun & HR).
      exists (S fuel), R. simpl. rewrite Ein. auto.
    + pose proof (unprocessed_shrinks (var, func) processed Hp Ein). lia.
  - exists 1, (G, processed). auto.
  - inversion Hq as [|? ? Hp Hrest]; subst.
    destruct (pair_in (var, func) processed) eqn:Ein.
    + destruct (IHq G Hrest) as (fuel & R & Hrun & HR).
      exists (S fuel), R. simpl. rewrite Ein. auto.
    + pose proof (unprocessed_shrinks (var, func) processed Hp Ein) as Hlt.
      set (processed' := (var, func) :: processed) in *.
      set (w := process_pair is_dependent contract var func processed' (G, rest)).
      destruct (IHm processed') with (q := snd w) (G := fst w)
        as (fuel & R & Hrun & HR).
      * lia.
      * simpl. constructor; [|exact Hnd].
        intros Hin. apply pair_in_key in Hin. congruence.
      * intros k [<- | Hk]; [now apply in_unit_pairs | now apply Hincl].
      * apply (taint_steps_queue processed' Q (G, rest) w); [|exact Hrest].
        apply process_pair_steps. exact Hp.
      * exists (S fuel), R. simpl. rewrite Ein. auto.
Qed.

End Loop.

(** C5. The construction of the taint graph ends on every unit, cyclic
    or not: for some amount of fuel, and then for every larger one, the
    worklist loop returns the graph; the pairs it processed are pairwise
    different, so each (variable, function) pair was processed at most
    once, and they all are among the finitely many pairs of the unit. *)
Theorem build_taint_graph_terminates
  (is_dependent : Var -> Var -> Function -> bool) (contract : Contract)
  (source_func : Function) (source_var : Var) :
  exists fuel G processed,
    build_trace is_dependent fuel contract source_func source_var = Some (G, processed) /\
    (forall fuel', fuel <= fuel' ->
       _build_taint_graph is_dependent fuel' contract source_func source_var = Some G) /\
    NoDup (map pair_key processed) /\
    incl (map pair_key processed) (unit_pairs contract source_func source_var) /\
    length processed <= length (unit_pairs contract source_func source_var).
Proof.
  destruct (build_loop_terminates is_dependent contract source_func source_var
              (length (unprocessed contract source_func source_var [])) [])
    with (q := [(source_var, source_func)])
         (G := seed_graph source_func source_var)
    as (fuel & [G processed] & Hrun & Hnd & Hincl).
  - lia.
  - constructor.
  - intros k [].
  - constructor; [|constructor]. split; now left.
  - exists fuel, G, processed. simpl in Hnd, Hincl. split; [exact Hrun|].
    split; [|split; [exact Hnd | split; [exact Hincl|]]].
    + intros fuel' Hle. unfold _build_taint_graph, build_trace.
      rewrite (build_loop_more_fuel is_dependent contract fuel _ _ _ _ Hrun fuel' Hle).
      reflexivity.
    + rewrite <- (length_map pair_key). now apply NoDup_incl_length.
Qed.

(** *** Edges of the built graph *)

(** The body of the loop, on any pair, is a run of steps. *)
Lemma process_pair_any_steps (is_dependent : Var -> Var -> Function -> bool)
  (contract : Contract) (var : Var) (func : Function)
  (processed : list (Var * Function)) (w : Work) :
  taint_steps processed (in_unit contract func var) w
    (process_pair is_dependent contract var func processed w).
Proof. apply process_pair_steps. split; now left. Qed.

(** C3, as the code has it. Whatever the state the worklist loop is
    started in, the graph it returns has every node and every edge of
    the graph it started from, so no operation of the construction
    removes an edge; and if no ordered pair of nodes carried two edges at
    the start, none does at the end: a pair of nodes has at most one
    edge, whatever the justifications. *)
Theorem edges_kept_and_single
  (is_dependent : Var -> Var -> Function -> bool) (contract : Contract)
  (fuel : nat) (G : DiGraph) (q processed : list (Var * Function))
  (R : DiGraph * list (Var * Function)) :
  build_loop is_dependent fuel contract G q processed = Some R ->
  single_edges G ->
  single_edges (fst R) /\ graph_le G (fst R).
Proof.
  intros Hrun Hsingle.
  refine (build_loop_invariant is_dependent contract
            (fun G' _ => single_edges G' /\ graph_le G G')
            _ fuel G q processed R _ Hrun).
  - intros G' q' processed' var func [Hs Hle] _.
    pose proof (process_pair_any_steps is_dependent contract var func
                  ((var, func) :: processed') (G', q')) as Hsteps.
    split.
    + eapply taint_steps_single_edges; [exact Hsteps | exact Hs].
    + eapply graph_le_trans; [exact Hle|].
      apply (taint_steps_graph_le _ _ _ _ Hsteps).
  - split; [exact Hsingle | apply graph_le_refl].
Qed.

(** *** The co-occurrence rule *)

Section ExpressionRule.

Variable func : Function.
Variable var : Var.
Variable current_key : string.
Variable processed : list (Var * Function).
Variable node : Node.
Variable e : Expression.





End ExpressionRule.

(** *** Call arguments *)

(** What one step of a left fold establishes, and every step keeps, holds
    at the end of the fold. *)
Lemma fold_left_reach {A B : Type} (P : A -> Prop) (f : A -> B -> A)
  (l : list B) (x : B) :
  In x l ->
  (forall a, P (f a x)) ->
  (forall a y, In y l -> P a -> P (f a y)) ->
  forall a, P (fold_left f l a).
Proof.
  induction l as [|y l IH]; intros Hx Hadd Hkeep a; [contradiction|].
  simpl. destruct Hx as [-> | Hx].
  - apply fold_left_inv.
    + apply Hadd.
    + intros a' z Hz. apply Hkeep. now right.
  - apply IH; auto. intros a' z Hz. apply Hkeep. now right.
Qed.

Lemma index_of_var_in (var : Var) (params : list Var) (i : nat) :
  index_of var params = Some i -> var_in var params = true.
Proof.
  intros H. apply var_in_true_iff. revert i H.
  induction params as [|p ps IH]; intros i; simpl; [discriminate|].
  destruct (Var_eq_dec p var) as [->|]; [now left|].
  destruct (index_of var ps) as [j|]; [|discriminate].
  intros _. right. eapply IH. reflexivity.
Qed.

Section Arguments.

Variable contract : Contract.
Variable func : Function.
Variable var : Var.
Variable param_idx : nat.
Variable other_func : Function.
Variable node : Node.
Variable e : Expression.
Variable args : list (option Expression).
Variable arg : Expression.
Variable arg_var : Var.

Hypothesis Hparam : index_of var (parameters func) = Some param_idx.
Hypothesis Hcaller : In other_func (functions contract).
Hypothesis Hnode : In node (nodes other_func).
Hypothesis Hcall : In (CallFunction (fn_id func)) (internal_calls node).
Hypothesis Hexpr : expression node = Some e.
Hypothesis Hargs : arguments e = Some args.
Hypothesis Harg : nth_error args param_idx = Some (Some arg).
Hypothesis Hvar : In arg_var (get_expression_variables arg).

(** The node of the argument variable in the caller and the edge from it
    to [current_key] are in the graph. *)
Let linked_to (current_key : string) (w : Work) : Prop :=
  has_node (fst w) (_node_key arg_var (Some other_func)) = true /\
  has_edge (fst w) (_node_key arg_var (Some other_func)) current_key = true.

Lemma linked_to_kept (processed : list (Var * Function)) (current_key : string)
  (Q : Var * Function -> Prop) (w w' : Work) :
  taint_steps processed Q w w' -> linked_to current_key w -> linked_to current_key w'.
Proof.
  intros Hsteps [Hn He]. apply taint_steps_graph_le in Hsteps.
  destruct Hsteps as [Hnodes Hedges]. split; auto.
Qed.

Lemma argument_rule_links (processed : list (Var * Function))
  (current_key : string) (w : Work) :
  linked_to current_key
    (argument_rule func var param_idx current_key processed other_func node w).
Proof.
  unfold argument_rule. rewrite Hexpr, Hargs, Harg.
  apply fold_left_reach with (x := arg_var) (P := linked_to current_key).
  - exact Hvar.
  - intros a. unfold linked_to. simpl.
    rewrite has_node_add_edge, has_edge_add_edge, has_node_add_node.
    rewrite String.eqb_refl, edge_eqb_refl, !orb_true_r. auto.
  - intros a y Hy Ha.
    apply (linked_to_kept processed current_key (fun _ => True) a); [|exact Ha].
    apply taint_steps_step; [constructor | exact I].
Qed.

Lemma process_parameter_taint_links (processed : list (Var * Function))
  (current_key : string) (w : Work) :
  linked_to current_key
    (_process_parameter_taint contract func var current_key processed w).
Proof.
  unfold _process_parameter_taint. rewrite Hparam.
  pose (Q := in_unit contract func var).
  apply fold_left_reach with (x := other_func) (P := linked_to current_key).
  - exact Hcaller.
  - intros a.
    apply fold_left_reach with (x := node) (P := linked_to current_key).
    + exact Hnode.
    + intros a'.
      apply fold_left_reach with (x := CallFunction (fn_id func))
                                 (P := linked_to current_key).
      * exact Hcall.
      * intros a''. simpl. rewrite Nat.eqb_refl. apply argument_rule_links.
      * intros a'' ic Hic Ha''. destruct (calls ic func); [|exact Ha''].
        apply (linked_to_kept processed current_key Q a''); [|exact Ha''].
        apply argument_rule_steps; [exact Hcaller | exact Hnode | constructor].
    + intros a' n Hn Ha'.
      apply fold_left_inv with (P := linked_to current_key); [exact Ha'|].
      intros a'' ic Hic Ha''. destruct (calls ic func); [|exact Ha''].
      apply (linked_to_kept processed current_key Q a''); [|exact Ha''].
      apply argument_rule_steps; [exact Hcaller | exact Hn | constructor].
  - intros a f Hf Ha.
    apply fold_left_inv with (P := linked_to current_key); [exact Ha|].
    intros a' n Hn Ha'.
    apply fold_left_inv with (P := linked_to current_key); [exact Ha'|].
    intros a'' ic Hic Ha''. destruct (calls ic func); [|exact Ha''].
    apply (linked_to_kept processed current_key Q a''); [|exact Ha''].
    apply argument_rule_steps; [exact Hf | exact Hn | constructor].
Qed.

(** The rule of [_process_parameter_taint] where it applies. Let [var] be
    a parameter of [func], at position [param_idx], that the construction
    has processed. For every function of the unit with a statement that
    has [func] among its call targets and whose own expression has an
    [arguments] list with an entry at that position, every variable of
    that entry has a node in the context of that function, and an edge
    goes from that node to the node of the parameter. *)
Theorem call_argument_propagation
  (is_dependent : Var -> Var -> Function -> bool)
  (source_func : Function) (source_var : Var) (fuel : nat)
  (G : DiGraph) (done : list (Var * Function)) :
  build_trace is_dependent fuel contract source_func source_var = Some (G, done) ->
  In (var, func) done ->
  has_node G (_node_key arg_var (Some other_func)) = true /\
  has_edge G (_node_key arg_var (Some other_func)) (_node_key var (Some func)) = true.
Proof.
  intros Hrun Hdone.
  pose (P := fun (G' : DiGraph) (done' : list (Var * Function)) =>
               In (var, func) done' ->
               linked_to (_node_key var (Some func)) (G', @nil (Var * Function))).
  assert (HP : P (fst (G, done)) (snd (G, done))).
  { refine (build_loop_invariant is_dependent contract P _ fuel _ _ _ (G, done) _ Hrun).
    - intros G' q' done' v f HG' _ [Heq | Hin].
      + inversion Heq; subst v f. unfold process_pair.
        rewrite (index_of_var_in var (parameters func) param_idx Hparam).
        destruct (process_parameter_taint_links ((var, func) :: done')
                    (_node_key var (Some func))
                    (if is_state_variable var
                     then _process_state_var_taint contract func var
                            (_node_key var (Some func)) ((var, func) :: done')
                            (_process_function_taint is_dependent func var
                               (_node_key var (Some func)) ((var, func) :: done')
                               (G', q'))
                     else _process_function_taint is_dependent func var
                            (_node_key var (Some func)) ((var, func) :: done')
                            (G', q')))
          as [Hn He].
        split; assumption.
      + specialize (HG' Hin).
        pose proof (process_pair_any_steps is_dependent contract v f
                      ((v, f) :: done') (G', q')) as Hsteps.
        apply taint_steps_graph_le in Hsteps. destruct Hsteps as [Hnodes Hedges].
        destruct HG' as [Hn He]. split; simpl in *; auto.
    - intros []. }
  exact (HP Hdone).
Qed.

End Arguments.

(** *** Reachability *)

(** When the sink node is not in the graph the check answers at once. *)
Lemma check_sink_absent (G : DiGraph) (source_var sink_var : Var) (sink_func : Function) :
  has_node G (_node_key sink_var (Some sink_func)) = false ->
  _check_sink_tainted G source_var sink_var sink_func = Returns (false, []).
Proof. intros H. unfold _check_sink_tainted. now rewrite H. Qed.

(** The check raises exactly when the sink node is in the graph and the
    node of the source key, made with the function ["global"], is not;
    what it raises then is [NodeNotFound]. *)
Lemma check_sink_raises_iff (G : DiGraph) (source_var sink_var : Var)
  (sink_func : Function) (ex : Exception) :
  _check_sink_tainted G source_var sink_var sink_func = Raises ex <->
  ex = NodeNotFound /\
  has_node G (_node_key sink_var (Some sink_func)) = true /\
  has_node G (_node_key source_var None) = false.
Proof.
  unfold _check_sink_tainted, shortest_path.
  destruct (has_node G (_node_key sink_var (Some sink_func))) eqn:Esink;
    cbn [negb orb].
  - destruct (has_node G (_node_key source_var None)) eqn:Esrc; cbn [negb orb].
    + destruct (bfs G _ _ _ _) as [path|].
      * split; [discriminate | intros (_ & _ & H); discriminate].
      * split; [discriminate | intros (_ & _ & H); discriminate].
    + split; [intros H; inversion H; auto | intros (-> & _); reflexivity].
  - split; [discriminate | intros (_ & H & _); discriminate].
Qed.

(** **** The search answers walks of the graph *)

Lemma successors_has_edge (G : DiGraph) (u v : string) :
  In v (successors G u) -> has_edge G u v = true.
Proof.
  unfold successors, has_edge. rewrite in_map_iff.
  intros (e & Hv & He). apply filter_In in He. destruct He as [He Hu].
  apply existsb_exists. exists e. split; [exact He|].
  apply edge_eqb_eq. apply String.eqb_eq in Hu.
  destruct e as [[a b] d]. simpl in *. congruence.
Qed.

Lemma expand_rpaths (G : DiGraph) (source : string) (frontier : list (list string)) :
  forall seen,
    Forall (is_rpath G source) frontier ->
    Forall (is_rpath G source) (fst (expand G frontier seen)).
Proof.
  induction frontier as [|path frontier IH]; intros seen Hf; simpl; [constructor|].
  inversion Hf as [|? ? Hpath Hrest]; subst.
  apply Forall_app. split; [|apply IH; exact Hrest].
  apply fold_left_inv
    with (P := fun acc : list (list string) * list string =>
                 Forall (is_rpath G source) (fst acc)).
  - constructor.
  - intros acc v Hv Hacc. destruct (str_in v (snd acc)); [exact Hacc|].
    simpl. apply Forall_app. split; [exact Hacc|]. constructor; [|constructor].
    destruct path as [|u rest]; [contradiction|].
    simpl. split; [now apply successors_has_edge | exact Hpath].
Qed.

Lemma bfs_rpath (G : DiGraph) (source target : string) :
  forall fuel frontier seen path,
    Forall (is_rpath G source) frontier ->
    bfs G fuel frontier seen target = Some path ->
    exists rp, path = rev rp /\ is_rpath G source rp /\ hd_error rp = Some target.
Proof.
  induction fuel as [|fuel IH]; intros frontier seen path Hf Hrun; [discriminate|].
  simpl in Hrun.
  destruct (find _ frontier) as [found|] eqn:Efind.
  - inversion Hrun; subst path. apply find_some in Efind.
    destruct Efind as [Hin Hhd]. exists found. split; [reflexivity|]. split.
    + rewrite Forall_forall in Hf. now apply Hf.
    + destruct found as [|u rest]; [discriminate|].
      apply String.eqb_eq in Hhd. now subst u.
  - destruct frontier as [|p0 frontier']; [discriminate|].
    eapply IH; [|exact Hrun]. now apply expand_rpaths.
Qed.

Lemma is_path_snoc (G : DiGraph) (p : list string) (u v : string) :
  is_path G (p ++ [u]) -> has_edge G u v = true -> is_path G ((p ++ [u]) ++ [v]).
Proof.
  induction p as [|a p IH]; simpl; [auto|].
  destruct p as [|b p]; simpl in *; [tauto|].
  intros [Hab Hrest] Huv. split; [exact Hab | now apply IH].
Qed.

Lemma rpath_rev (G : DiGraph) (source : string) (rp : list string) :
  is_rpath G source rp ->
  is_path G (rev rp) /\ hd_error (rev rp) = Some source.
Proof.
  induction rp as [|v rest IH]; [intros []|].
  destruct rest as [|u rest'].
  - simpl. intros ->. auto.
  - intros [Huv Hrest]. destruct (IH Hrest) as [Hpath Hhd].
    change (rev (v :: u :: rest')) with ((rev rest' ++ [u]) ++ [v]).
    change (rev (u :: rest')) with (rev rest' ++ [u]) in Hpath, Hhd.
    split.
    + now apply is_path_snoc.
    + destruct (rev rest' ++ [u]) as [|a l] eqn:E; [discriminate | exact Hhd].
Qed.

(** A path answered by [shortest_path] is a walk of the graph from the
    source to the target. *)
Lemma shortest_path_is_path (G : DiGraph) (source target : string) (path : list string) :
  shortest_path G source target = Returns path ->
  is_path G path /\ hd_error path = Some source /\ last path source = target.
Proof.
  unfold shortest_path.
  destruct (negb (has_node G source) || negb (has_node G target)); [discriminate|].
  destruct (bfs G _ _ _ _) as [found|] eqn:Ebfs; [|discriminate].
  intros H; inversion H; subst found; clear H.
  apply bfs_rpath with (source := source) in Ebfs.
  - destruct Ebfs as (rp & -> & Hrp & Hhd).
    destruct (rpath_rev G source rp Hrp) as [Hpath Hsrc].
    split; [exact Hpath|]. split; [exact Hsrc|].
    destruct rp as [|v rest]; [discriminate|].
    simpl in Hhd. inversion Hhd; subst v. simpl. apply last_last.
  - constructor; [reflexivity | constructor].
Qed.

(** The three outcomes of the check. *)
Lemma check_sink_outcomes (G : DiGraph) (source_var sink_var : Var) (sink_func : Function) :
  let source_key := _node_key source_var None in
  let sink_key := _node_key sink_var (Some sink_func) in
  _check_sink_tainted G source_var sink_var sink_func = Returns (false, []) \/
  (_check_sink_tainted G source_var sink_var sink_func = Raises NodeNotFound /\
   has_node G sink_key = true /\ has_node G source_key = false) \/
  (exists path,
      _check_sink_tainted G source_var sink_var sink_func = Returns (true, path) /\
      is_path G path /\ hd_error path = Some source_key /\
      last path source_key = sink_key).
Proof.
  intros source_key sink_key. unfold _check_sink_tainted.
  fold source_key sink_key.
  destruct (has_node G sink_key) eqn:Esink; cbn [negb]; [|now left].
  destruct (shortest_path G source_key sink_key) as [path|ex] eqn:Esp.
  - right; right. exists path. split; [reflexivity|].
    now apply shortest_path_is_path.
  - unfold shortest_path in Esp. rewrite Esink in Esp.
    destruct (has_node G source_key) eqn:Esrc; cbn [negb orb] in Esp.
    + destruct (bfs G _ _ _ _); inversion Esp; subst ex. now left.
    + inversion Esp; subst ex. right; left. auto.
Qed.

Import Samples.T.

(** C1, where the code departs from it. In the graph built from the seed
    [(p, inner)] of the unit [inner(p)], [outer(x) { inner(x) }], the sink
    node [x@outer] is present and no edge leaves [p@inner], so the sink
    is not reachable from the source; the check does not return
    [(false, [])]: it raises [NodeNotFound], and so does [analyze]. *)
Theorem check_sink_raises_on_unreachable_sink :
  build_trace no_dependency 10 inner_outer inner p
    = Some (inner_outer_graph, [(x, outer); (p, inner)]) /\
  has_node inner_outer_graph (_node_key x (Some outer)) = true /\
  successors inner_outer_graph (_node_key p (Some inner)) = [] /\
  _check_sink_tainted inner_outer_graph p x outer = Raises NodeNotFound /\
  analyze no_dependency 10 inner_outer "inner" "p" "outer" "x"
    = Some (Raises NodeNotFound).
Proof. repeat split; reflexivity. Qed.

(** C8, where the code departs from it. The statement of
    [outer(aa, bb) { g(aa, inner(bb)); }] calls [inner] with [bb] at the
    position of the parameter [p]. In the graph built from the seed
    [(p, inner)], [bb] has no node in [outer] and no edge to [p@inner]:
    the argument taken is the first one of the statement's own
    expression, the call of [g], and it is [aa] that gets the edge to
    [p@inner], under the label of a parameter of a call to [inner]. In
    [outer(x) { y = inner(x); }] the statement's expression is the
    assignment, which has no [arguments]: the graph stays the seed alone
    and [x] gets no node. *)
Theorem call_argument_taken_from_the_statement_expression :
  (In (CallFunction (fn_id inner)) (internal_calls nested_call) /\
   index_of p (parameters inner) = Some 0 /\
   arguments inner_of_bb = Some [Some (ident bb)] /\
   build_trace no_dependency 10 nested_contract inner p
     = Some (nested_graph, [(aa, outer_nested); (p, inner)]) /\
   has_node nested_graph (_node_key bb (Some outer_nested)) = false /\
   has_edge nested_graph (_node_key bb (Some outer_nested))
            (_node_key p (Some inner)) = false /\
   get_edge_data nested_graph (_node_key aa (Some outer_nested))
                 (_node_key p (Some inner))
     = Some {| ed_expression := "Parameter p in call to inner";
               ed_line := Some 7 |}) /\
  (In (CallFunction (fn_id inner)) (internal_calls assigned_call) /\
   arguments y_gets_inner_of_x = None /\
   build_trace no_dependency 10 assigning_contract inner p
     = Some (seed_graph inner p, [(p, inner)]) /\
   has_node (seed_graph inner p) (_node_key x (Some outer_assigning)) = false).
Proof.
  split.
  - split; [simpl; auto|]. repeat split; reflexivity.
  - split; [simpl; auto|]. repeat split; reflexivity.
Qed.

(** *** Node keys *)

(** C2, where the code departs from it. The key is the text
    [name@function]: the state variable [owner] in two overloads of
    [transfer] gets one key for two different pairs, and so do [a@b] in
    [c] and [a] in [b@c]. *)
Theorem node_key_collides :
  pair_eqb (owner, transfer1) (owner, transfer2) = false /\
  _node_key owner (Some transfer1) = _node_key owner (Some transfer2) /\
  pair_eqb (a_at_b, fn_c) (a, fn_b_at_c) = false /\
  _node_key a_at_b (Some fn_c) = _node_key a (Some fn_b_at_c).
Proof. repeat split; reflexivity. Qed.

(** *** Resolution of a variable by name *)

(** C10. When a parameter of the function is named [n] or [_n], the
    resolution of [n] answers such a parameter, whatever the local and
    state variables of the function are named. *)
Theorem find_variable_parameter_first (function : Function) (n : string) :
  (exists param, In param (parameters function) /\
                 (var_name param = n \/ var_name param = ("_" ++ n)%string)) ->
  exists param,
    find_variable_by_name function n = Some param /\
    In param (parameters function) /\
    (var_name param = n \/ var_name param = ("_" ++ n)%string).
Proof.
  intros (param & Hin & Hname). unfold find_variable_by_name.
  destruct (find (fun param0 => String.eqb (var_name param0) n
                                || String.eqb (var_name param0) ("_" ++ n)%string)
                 (parameters function)) as [found|] eqn:Efind.
  - apply find_some in Efind. destruct Efind as [Hfound Hb].
    exists found. split; [reflexivity|]. split; [exact Hfound|].
    apply orb_true_iff in Hb. rewrite !String.eqb_eq in Hb. exact Hb.
  - exfalso. apply (find_none _ _ Efind) in Hin.
    apply orb_false_iff in Hin. rewrite !String.eqb_neq in Hin. tauto.
Qed.

(** In [deposit(_amount)], which has a local variable [amount], the name
    [amount] resolves to the parameter [_amount]. *)
Lemma find_variable_parameter_first_witness :
  In amount_local (local_variables_written amount_gets__amount) /\
  exists param,
    find_variable_by_name deposit "amount" = Some param /\
    In param (parameters deposit) /\
    (var_name param = "amount" \/ var_name param = "_amount").
Proof.
  split; [simpl; auto|].
  apply (find_variable_parameter_first deposit "amount").
  exists _amount. split; [simpl; auto | right; reflexivity].
Defined.

Example find_variable_prefers_underscore_parameter :
  find_variable_by_name deposit "amount" = Some _amount.
Proof. reflexivity. Qed.

(** *** The sample units *)

(** Against C3 as stated. In [f(a)] the first statement makes both rules
    fire for the pair ([a@f], [b@f]), and the second makes the
    data-dependency rule fire again with another justification; the built
    graph holds one edge between the two nodes, with the justification
    written last. *)
Lemma two_rules_one_edge :
  exists G done,
    build_trace b_on_a 10 two_writes f a = Some (G, done) /\
    (In a (get_expression_variables (call "g(a)" a)) /\
     In b (written first_write) /\
     ~ In b (get_expression_variables (call "g(a)" a)) /\
     b_on_a b a f = true) /\
    edges_between G "a@f" "b@f" = [{| ed_expression := "b = a"; ed_line := Some 11 |}].
Proof.
  eexists. eexists. split; [vm_compute; reflexivity|]. split.
  - repeat split; simpl; auto. intros [H | []]. discriminate.
  - reflexivity.
Qed.

(** On [f(a)]: the graph built from the seed has the seed node, and no
    pair of its nodes carries two edges. *)
Lemma edges_kept_and_single_witness :
  exists R,
    build_loop b_on_a 10 two_writes (seed_graph f a) [(a, f)] [] = Some R /\
    single_edges (fst R) /\ graph_le (seed_graph f a) (fst R).
Proof.
  eexists. split; [vm_compute; reflexivity|].
  apply (edges_kept_and_single b_on_a two_writes 10 (seed_graph f a) [(a, f)] []).
  - vm_compute. reflexivity.
  - intros u v. simpl. lia.
Defined.



(** In [outer(x) { inner(x) }] with the seed [(p, inner)]: [x] gets a
    node in [outer] and an edge to [p@inner]. *)
Lemma call_argument_propagation_witness :
  has_node inner_outer_graph "x@outer" = true /\
  has_edge inner_outer_graph "x@outer" "p@inner" = true.
Proof.
  apply (call_argument_propagation inner_outer inner p 0 outer call_inner
           (call "inner(x)" x) [Some (ident x)] (ident x) x)
    with (is_dependent := no_dependency) (source_func := inner) (source_var := p)
         (fuel := 10) (done := [(x, outer); (p, inner)]).
  - reflexivity.
  - simpl; auto.
  - simpl; auto.
  - simpl; auto.
  - reflexivity.
  - reflexivity.
  - reflexivity.
  - simpl; auto.
  - reflexivity.
  - simpl; auto.
Defined.

(** *** The propagation rules, step by step at the current node *)

Section RulesAtKey.

Variable is_dependent : Var -> Var -> Function -> bool.
Variable contract : Contract.
Variable source_func : Function.
Variable source_var : Var.
Variable processed : list (Var * Function).

Let Q := in_unit contract source_func source_var.

Lemma expression_rule_pair_steps (func : Function) (var : Var) (current_key : string)
  (node : Node) (w0 w : Work) :
  In func (unit_funcs contract source_func) -> In node (nodes func) ->
  pair_steps processed Q current_key w0 w ->
  pair_steps processed Q current_key w0
    (expression_rule func var current_key processed node w).
Proof.
  intros Hf Hn Hw. unfold expression_rule.
  destruct (expression node) as [e|]; [|exact Hw].
  destruct (var_in var (get_expression_variables e)); [|exact Hw].
  apply fold_left_inv with (P := pair_steps processed Q current_key w0); [exact Hw|].
  intros a x Hx Ha.
  destruct (var_in x (get_expression_variables e)); [exact Ha|].
  exact (pair_steps_step processed Q current_key w0 a true (x, func)
           {| ed_expression := expr_str e; ed_line := first_line node |} Ha
           (written_in_unit contract source_func source_var func node x Hf Hn Hx)).
Qed.

Lemma dependency_rule_pair_steps (func : Function) (var : Var) (current_key : string)
  (node : Node) (w0 w : Work) :
  In func (unit_funcs contract source_func) -> In node (nodes func) ->
  pair_steps processed Q current_key w0 w ->
  pair_steps processed Q current_key w0
    (dependency_rule is_dependent func var current_key processed node w).
Proof.
  intros Hf Hn Hw. unfold dependency_rule.
  apply fold_left_inv with (P := pair_steps processed Q current_key w0); [exact Hw|].
  intros a x Hx Ha.
  destruct (is_dependent x var func); [|exact Ha].
  exact (pair_steps_step processed Q current_key w0 a true (x, func)
           {| ed_expression := match expression node with
                               | Some e => expr_str e
                               | None => "unknown expression"
                               end;
              ed_line := first_line node |} Ha
           (written_in_unit contract source_func source_var func node x Hf Hn Hx)).
Qed.

Lemma process_state_var_taint_pair_steps (func : Function) (var : Var)
  (current_key : string) (w0 w : Work) :
  In var (unit_vars contract source_func source_var) ->
  pair_steps processed Q current_key w0 w ->
  pair_steps processed Q current_key w0
    (_process_state_var_taint contract func var current_key processed w).
Proof.
  intros Hv Hw. unfold _process_state_var_taint.
  apply fold_left_inv with (P := pair_steps processed Q current_key w0); [exact Hw|].
  intros a other_func Hof Ha.
  destruct (func_eqb other_func func); [exact Ha|].
  apply fold_left_inv with (P := pair_steps processed Q current_key w0); [exact Ha|].
  intros a' node Hn Ha'.
  destruct (var_in var (state_variables_read node)); [|exact Ha'].
  refine (pair_steps_step processed Q current_key w0 a' true (var, other_func)
            {| ed_expression := ("State variable read in " ++ fn_name other_func)%string;
               ed_line := None |} Ha' _).
  split; [exact Hv | now right].
Qed.

Lemma argument_rule_pair_steps (func : Function) (var : Var) (param_idx : nat)
  (current_key : string) (other_func : Function) (node : Node) (w0 w : Work) :
  In other_func (functions contract) -> In node (nodes other_func) ->
  pair_steps processed Q current_key w0 w ->
  pair_steps processed Q current_key w0
    (argument_rule func var param_idx current_key processed other_func node w).
Proof.
  intros Hof Hn Hw. unfold argument_rule.
  destruct (expression node) as [e|] eqn:He; [|exact Hw].
  destruct (arguments e) as [args|] eqn:Ha; [|exact Hw].
  destruct (nth_error args param_idx) as [arg|] eqn:Hnth; [|exact Hw].
  apply fold_left_inv with (P := pair_steps processed Q current_key w0); [exact Hw|].
  intros a x Hx Hst.
  exact (pair_steps_step processed Q current_key w0 a false (x, other_func)
           {| ed_expression := ("Parameter " ++ var_name var ++ " in call to "
                                  ++ fn_name func)%string;
              ed_line := first_line node |} Hst
           (argument_in_unit contract source_func source_var other_func node e args
              param_idx arg x Hof Hn He Ha Hnth Hx)).
Qed.

(** The body of the loop is a run of steps at the node of its pair. *)
Lemma process_pair_pair_steps (var : Var) (func : Function) (w : Work) :
  Q (var, func) ->
  pair_steps processed Q (_node_key var (Some func)) w
    (process_pair is_dependent contract var func processed w).
Proof.
  intros [Hv Hf]. cbn [fst snd] in Hv, Hf. unfold process_pair.
  set (key := _node_key var (Some func)).
  assert (H1 : pair_steps processed Q key w
                 (_process_function_taint is_dependent func var key processed w)).
  { unfold _process_function_taint.
    apply fold_left_inv with (P := pair_steps processed Q key w); [constructor|].
    intros a node Hn Ha.
    apply dependency_rule_pair_steps; auto.
    apply expression_rule_pair_steps; auto. }
  assert (H2 : pair_steps processed Q key w
                 (if is_state_variable var
                  then _process_state_var_taint contract func var key processed
                         (_process_function_taint is_dependent func var key processed w)
                  else _process_function_taint is_dependent func var key processed w)).
  { destruct (is_state_variable var); [|exact H1].
    apply process_state_var_taint_pair_steps; assumption. }
  destruct (var_in var (parameters func)); [|exact H2].
  unfold _process_parameter_taint.
  destruct (index_of var (parameters func)) as [param_idx|]; [|exact H2].
  apply fold_left_inv with (P := pair_steps processed Q key w); [exact H2|].
  intros a other_func Hof Ha.
  apply fold_left_inv with (P := pair_steps processed Q key w); [exact Ha|].
  intros a' node Hn Ha'.
  apply fold_left_inv with (P := pair_steps processed Q key w); [exact Ha'|].
  intros a'' ic Hic Ha''.
  destruct (calls ic func); [|exact Ha''].
  apply argument_rule_pair_steps; auto.
Qed.

End RulesAtKey.

(** *** The state of the construction stays in order *)

Lemma dict_set_In {K V : Type} (eqb : K -> K -> bool)
  (eqb_eq : forall a b, eqb a b = true <-> a = b)
  (l : list (K * V)) (k0 k : K) (v0 d : V) :
  In (k, d) (dict_set eqb l k0 v0) -> In (k, d) l \/ (k = k0 /\ d = v0).
Proof.
  induction l as [|[k' v'] l IH]; simpl.
  - intros [H | []]. inversion H. auto.
  - destruct (eqb k' k0) eqn:E.
    + apply eqb_eq in E. subst k'. intros [H | H]; [inversion H; auto | auto].
    + intros [H | H]; [auto|]. destruct (IH H); auto.
Qed.

Lemma touch_node_present (ns : list (string * option NodeData)) (k : string) :
  existsb (fun n => String.eqb (fst n) k) ns = true -> touch_node ns k = ns.
Proof. intros H. unfold touch_node. now rewrite H. Qed.

(** With both ends in the graph, [add_edge] leaves the nodes as they
    are. *)
Lemma add_edge_nodes (G : DiGraph) (u v : string) (data : EdgeData) :
  has_node G u = true -> has_node G v = true ->
  g_nodes (add_edge G u v data) = g_nodes G.
Proof.
  intros Hu Hv. unfold add_edge. simpl.
  rewrite (touch_node_present (g_nodes G) u Hu).
  now rewrite (touch_node_present (g_nodes G) v Hv).
Qed.

Lemma pair_in_In (p : Var * Function) (s : list (Var * Function)) :
  In p s -> pair_in p s = true.
Proof. intros H. apply pair_in_key. now apply in_map. Qed.

Lemma pair_in_incl (p : Var * Function) (s s' : list (Var * Function)) :
  incl s s' -> pair_in p s = true -> pair_in p s' = true.
Proof.
  intros Hincl H. apply pair_in_key in H. apply pair_in_key.
  apply in_map_iff in H. destruct H as (q & Hq & Hin).
  apply in_map_iff. exists q. auto.
Qed.

Lemma enqueue_incl (processed q : list (Var * Function)) (p : Var * Function) :
  incl (q ++ processed) (enqueue processed q p ++ processed).
Proof.
  unfold enqueue. destruct (pair_in p processed); [apply incl_refl|].
  intros x Hx. rewrite !in_app_iff in *. tauto.
Qed.

Lemma enqueue_pending (processed q : list (Var * Function)) (p : Var * Function) :
  pair_in p (enqueue processed q p ++ processed) = true.
Proof.
  unfold enqueue. destruct (pair_in p processed) eqn:E.
  - unfold pair_in in *. rewrite existsb_app, E. apply orb_true_r.
  - apply pair_in_In. rewrite !in_app_iff. simpl. auto.
Qed.

Lemma enqueue_has (processed q : list (Var * Function)) (p x : Var * Function) :
  In x (enqueue processed q p ++ processed) -> In x (q ++ processed) \/ x = p.
Proof.
  unfold enqueue. destruct (pair_in p processed); [auto|].
  rewrite !in_app_iff. simpl. intros [[H | [H | []]] | H]; auto.
Qed.

Section InOrder.

Variable processed : list (Var * Function).
Variable Q : Var * Function -> Prop.
Variable current_key : string.

Lemma taint_pair_nodes (outgoing : bool) (p : Var * Function) (edge : EdgeData)
  (w : Work) :
  has_node (fst w) current_key = true ->
  g_nodes (fst (taint_pair processed current_key outgoing p edge w)) =
  dict_set String.eqb (g_nodes (fst w)) (_node_key (fst p) (Some (snd p)))
    (Some {| nd_var := fst p; nd_function := snd p;
             nd_var_type := _get_var_type (fst p) |}).
Proof.
  intros Hcur. unfold taint_pair. cbn [fst].
  set (G1 := add_node (fst w) (_node_key (fst p) (Some (snd p))) _).
  assert (Hc1 : has_node G1 current_key = true).
  { unfold G1. rewrite has_node_add_node, Hcur. reflexivity. }
  assert (Hn1 : has_node G1 (_node_key (fst p) (Some (snd p))) = true).
  { unfold G1. rewrite has_node_add_node, String.eqb_refl. apply orb_true_r. }
  destruct outgoing; rewrite add_edge_nodes; auto.
Qed.

Lemma taint_pair_in_order (outgoing : bool) (p : Var * Function) (edge : EdgeData)
  (w : Work) :
  Q p ->
  in_order Q (fst w) (snd w ++ processed) ->
  has_node (fst w) current_key = true ->
  in_order Q (fst (taint_pair processed current_key outgoing p edge w))
    (snd (taint_pair processed current_key outgoing p edge w) ++ processed) /\
  has_node (fst (taint_pair processed current_key outgoing p edge w)) current_key
    = true.
Proof.
  intros HQ (Hnodes & Hpend & Hedges) Hcur.
  pose proof (taint_pair_nodes outgoing p edge w Hcur) as Hns.
  assert (Hle : graph_le (fst w)
                  (fst (taint_pair processed current_key outgoing p edge w))).
  { unfold taint_pair. cbn [fst]. destruct outgoing;
      (eapply graph_le_trans; [apply graph_le_add_node | apply graph_le_add_edge]). }
  assert (Hnk : has_node (fst (taint_pair processed current_key outgoing p edge w))
                  (_node_key (fst p) (Some (snd p))) = true).
  { unfold has_node. rewrite Hns.
    rewrite (dict_set_has String.eqb String.eqb_eq), String.eqb_refl.
    apply orb_true_r. }
  destruct Hle as [Hle_n Hle_e].
  split; [|now apply Hle_n]. split; [|split].
  - intros k d Hin. rewrite Hns in Hin.
    apply (dict_set_In String.eqb String.eqb_eq) in Hin.
    destruct Hin as [Hin | [-> ->]].
    + destruct (Hnodes k d Hin) as (data & Hd & Hk & Ht & Hq & Hp).
      exists data. repeat split; auto.
      eapply pair_in_incl; [|exact Hp]. apply enqueue_incl.
    + eexists. split; [reflexivity|]. cbn [nd_var nd_function nd_var_type].
      repeat split; auto.
      * destruct p; exact HQ.
      * destruct p as [v f]. apply enqueue_pending.
  - intros x Hx. cbn [taint_pair snd] in Hx. apply enqueue_has in Hx.
    destruct Hx as [Hx | ->]; [apply Hle_n; now apply Hpend | exact Hnk].
  - intros u v. unfold taint_pair. cbn [fst].
    destruct outgoing; rewrite has_edge_add_edge, has_edge_add_node, orb_true_iff,
      edge_eqb_eq; intros [He | He].
    + destruct (Hedges u v He). split; apply Hle_n; assumption.
    + inversion He; subst u v. split; [now apply Hle_n | exact Hnk].
    + destruct (Hedges u v He). split; apply Hle_n; assumption.
    + inversion He; subst u v. split; [exact Hnk | now apply Hle_n].
Qed.

Lemma pair_steps_in_order (w w' : Work) :
  pair_steps processed Q current_key w w' ->
  in_order Q (fst w) (snd w ++ processed) ->
  has_node (fst w) current_key = true ->
  in_order Q (fst w') (snd w' ++ processed) /\
  has_node (fst w') current_key = true.
Proof.
  induction 1 as [w | w w' outgoing p edge Hs IH HQ]; intros Hord Hcur; [auto|].
  destruct (IH Hord Hcur) as [Hord' Hcur'].
  now apply taint_pair_in_order.
Qed.

Lemma pair_steps_taint_steps (w w' : Work) :
  pair_steps processed Q current_key w w' -> taint_steps processed Q w w'.
Proof.
  induction 1 as [w | w w' outgoing p edge Hs IH HQ]; [constructor|].
  unfold taint_pair. destruct outgoing; now apply taint_steps_step.
Qed.

End InOrder.

(** Splits a conjunction of five. *)
Ltac split5 := split; [|split; [|split; [|split]]].

Section OrderedLoop.

Variable is_dependent : Var -> Var -> Function -> bool.
Variable contract : Contract.
Variable source_func : Function.
Variable source_var : Var.

Let Q := in_unit contract source_func source_var.

(** The loop keeps the state in order, and ends with an empty
    worklist. *)
Lemma build_loop_in_order :
  forall (fuel : nat) (G : DiGraph) (q processed : list (Var * Function)) R,
    in_order Q G (q ++ processed) -> Forall Q q ->
    build_loop is_dependent fuel contract G q processed = Some R ->
    in_order Q (fst R) (snd R).
Proof.
  induction fuel as [|fuel IH]; intros G q processed R Hord Hq Hrun; [discriminate|].
  simpl in Hrun. destruct q as [|[var func] rest].
  - inversion Hrun; subst R. exact Hord.
  - inversion Hq as [|? ? Hp Hrest]; subst.
    destruct Hord as (Hnodes & Hpend & Hedges).
    destruct (pair_in (var, func) processed) eqn:Ein.
    + apply (IH G rest processed R); [|exact Hrest | exact Hrun].
      split; [|split; [|exact Hedges]].
      * intros k d Hin. destruct (Hnodes k d Hin) as (data & Hd & Hk & Ht & HQ & Hpin).
        exists data. split5; auto.
        apply pair_in_key in Hpin. apply pair_in_key.
        simpl in Hpin. destruct Hpin as [Heq | Hpin]; [|exact Hpin].
        rewrite map_app. apply in_app_iff. right.
        rewrite <- Heq. now apply pair_in_key.
      * intros p Hin. apply Hpend. now right.
    + set (processed' := (var, func) :: processed) in *.
      set (w := process_pair is_dependent contract var func processed' (G, rest)) in *.
      assert (Hsteps : pair_steps processed' Q (_node_key var (Some func)) (G, rest) w).
      { apply process_pair_pair_steps. exact Hp. }
      assert (Hord0 : in_order Q G (rest ++ processed')).
      { split; [|split; [|exact Hedges]].
        - intros k d Hin. destruct (Hnodes k d Hin) as (data & Hd & Hk & Ht & HQ & Hpin).
          exists data. split5; auto.
          eapply pair_in_incl; [|exact Hpin].
          intros x Hx. unfold processed'. simpl in Hx. rewrite in_app_iff in *.
          simpl. tauto.
        - intros p Hin. apply Hpend. unfold processed' in Hin.
          rewrite in_app_iff in Hin. simpl in *. rewrite in_app_iff. tauto. }
      destruct (pair_steps_in_order processed' Q _ (G, rest) w Hsteps Hord0)
        as [Hord' _].
      { apply (Hpend (var, func)). now left. }
      apply (IH (fst w) (snd w) processed' R); [exact Hord' | | exact Hrun].
      apply (taint_steps_queue processed' Q (G, rest) w); [|exact Hrest].
      eapply pair_steps_taint_steps; eauto.
Qed.

(** The graph a construction returns is in order with respect to the
    pairs it processed. *)
Lemma build_trace_in_order (fuel : nat) (G : DiGraph) (done : list (Var * Function)) :
  build_trace is_dependent fuel contract source_func source_var = Some (G, done) ->
  in_order Q G done.
Proof.
  intros Hrun. unfold build_trace in Hrun.
  apply (build_loop_in_order fuel _ _ _ (G, done)) in Hrun; [exact Hrun | |].
  - split; [|split].
    + intros k d [Hin | []]. inversion Hin; subst k d.
      eexists. split5; [reflexivity | reflexivity | reflexivity | |].
      * split; now left.
      * apply pair_in_In. now left.
    + intros p [<- | []]. unfold seed_graph.
      rewrite has_node_add_node, String.eqb_refl. apply orb_true_r.
    + intros u v H. discriminate.
  - constructor; [|constructor]. split; now left.
Qed.

End OrderedLoop.

(** *** What the built graph reports *)

Lemma has_node_data (G : DiGraph) (k : string) :
  has_node G k = true ->
  exists d, node_data G k = Some d /\ In (k, d) (g_nodes G).
Proof.
  unfold has_node, node_data. intros H.
  destruct (find (fun n => String.eqb (fst n) k) (g_nodes G)) as [[k' d]|] eqn:E.
  - apply find_some in E. destruct E as [Hin Hk]. apply String.eqb_eq in Hk.
    simpl in Hk. subst k'. exists d. auto.
  - apply existsb_exists in H. destruct H as (n & Hn & Hk).
    rewrite (find_none _ _ E n Hn) in Hk. discriminate.
Qed.

Lemma tainted_variables_of_nodes (ns : list (string * option NodeData)) :
  (forall k d, In (k, d) ns ->
     exists data, d = Some data /\
                  k = _node_key (nd_var data) (Some (nd_function data))) ->
  map tv_key (_get_tainted_variables {| g_nodes := ns; g_edges := [] |}) = map fst ns.
Proof.
  unfold _get_tainted_variables. simpl.
  induction ns as [|[k d] ns IH]; intros Hns; [reflexivity|].
  destruct (Hns k d (or_introl eq_refl)) as (data & -> & ->).
  simpl. f_equal. apply IH. intros k' d' Hin. apply Hns. now right.
Qed.

(** X6. The tainted variables reported for a built graph are its
    nodes: one entry for each node, in the order of the nodes, whose name
    and function make the key of the node; each entry describes a pair
    of a variable and a function of the unit that the construction
    processed, with the class of that variable. *)
Theorem tainted_variables_are_the_nodes
  (is_dependent : Var -> Var -> Function -> bool) (contract : Contract)
  (source_func : Function) (source_var : Var) (fuel : nat)
  (G : DiGraph) (done : list (Var * Function)) :
  build_trace is_dependent fuel contract source_func source_var = Some (G, done) ->
  map tv_key (_get_tainted_variables G) = map fst (g_nodes G) /\
  forall r, In r (_get_tainted_variables G) ->
    exists v f,
      in_unit contract source_func source_var (v, f) /\
      pair_in (v, f) done = true /\
      tv_name r = var_name v /\ tv_function r = fn_name f /\
      tv_type r = _get_var_type v.
Proof.
  intros Hrun. apply build_trace_in_order in Hrun.
  destruct Hrun as (Hnodes & _ & _). split.
  - apply (tainted_variables_of_nodes (g_nodes G)).
    intros k d Hin. destruct (Hnodes k d Hin) as (data & Hd & Hk & _).
    exists data. auto.
  - intros r Hr. unfold _get_tainted_variables in Hr.
    apply in_flat_map in Hr. destruct Hr as ([k d] & Hin & Hr).
    destruct (Hnodes k d Hin) as (data & -> & Hk & Ht & HQ & Hp).
    simpl in Hr. destruct Hr as [<- | []].
    exists (nd_var data), (nd_function data). simpl. auto.
Qed.

Import Samples.T.

Lemma tainted_variables_are_the_nodes_witness :
  map tv_key (_get_tainted_variables inner_outer_graph) = ["p@inner"; "x@outer"] /\
  forall r, In r (_get_tainted_variables inner_outer_graph) ->
    exists v f,
      in_unit inner_outer inner p (v, f) /\
      pair_in (v, f) [(x, outer); (p, inner)] = true /\
      tv_name r = var_name v /\ tv_function r = fn_name f /\
      tv_type r = _get_var_type v.
Proof.
  apply (tainted_variables_are_the_nodes no_dependency inner_outer inner p 10
           inner_outer_graph [(x, outer); (p, inner)]).
  reflexivity.
Defined.

Lemma dict_set_head {V : Type} (l : list (string * V)) (k : string) (v : V) :
  l <> [] -> hd_error (map fst (dict_set String.eqb l k v)) = hd_error (map fst l).
Proof.
  destruct l as [|[k' v'] l]; [congruence|]. intros _. simpl.
  destruct (String.eqb k' k); reflexivity.
Qed.

Lemma touch_node_head (ns : list (string * option NodeData)) (k : string) :
  ns <> [] -> hd_error (map fst (touch_node ns k)) = hd_error (map fst ns) /\
              touch_node ns k <> [].
Proof.
  intros Hne. unfold touch_node.
  destruct (existsb _ ns); [auto|].
  destruct ns; [congruence|]. simpl. split; [reflexivity | discriminate].
Qed.

Lemma taint_steps_head (processed : list (Var * Function))
  (Q : Var * Function -> Prop) (w w' : Work) (k0 : string) :
  taint_steps processed Q w w' ->
  hd_error (map fst (g_nodes (fst w))) = Some k0 ->
  hd_error (map fst (g_nodes (fst w'))) = Some k0.
Proof.
  induction 1 as [w | w w' nk nd u v ed p Hs IH HQ]; intros Hhd; [exact Hhd|].
  specialize (IH Hhd). simpl.
  assert (Hne : g_nodes (fst w') <> []) by (intros E; rewrite E in IH; discriminate).
  assert (Hne1 : dict_set String.eqb (g_nodes (fst w')) nk (Some nd) <> []).
  { destruct (g_nodes (fst w')) as [|[k' d'] l]; [congruence|]. simpl.
    destruct (String.eqb k' nk); discriminate. }
  destruct (touch_node_head _ u Hne1) as [H1 Hne2].
  destruct (touch_node_head _ v Hne2) as [H2 _].
  rewrite H2, H1, dict_set_head; assumption.
Qed.

(** X7. The source is always reported: in every built graph the node of
    the seed pair is the first node, so the first tainted variable
    listed stands for the source variable in the source function; and
    every pair the construction processed has its node in the graph. *)
Theorem source_reported_first
  (is_dependent : Var -> Var -> Function -> bool) (contract : Contract)
  (source_func : Function) (source_var : Var) (fuel : nat)
  (G : DiGraph) (done : list (Var * Function)) :
  build_trace is_dependent fuel contract source_func source_var = Some (G, done) ->
  (exists r rest, _get_tainted_variables G = r :: rest /\
                  tv_key r = _node_key source_var (Some source_func)) /\
  (forall v f, In (v, f) done -> has_node G (_node_key v (Some f)) = true).
Proof.
  intros Hrun.
  pose proof (build_trace_in_order _ _ _ _ _ _ _ Hrun) as (Hnodes & Hpend & _).
  split; [|intros v f Hin; exact (Hpend (v, f) Hin)].
  assert (Hhd : hd_error (map fst (g_nodes G))
                = Some (_node_key source_var (Some source_func))).
  { unfold build_trace in Hrun.
    refine (build_loop_invariant is_dependent contract
              (fun G' _ => hd_error (map fst (g_nodes G'))
                           = Some (_node_key source_var (Some source_func)))
              _ fuel _ _ _ (G, done) _ Hrun).
    - intros G' q' processed' var func HG' _.
      apply (taint_steps_head _ _ (G', q') _ _
               (process_pair_any_steps is_dependent contract var func
                  ((var, func) :: processed') (G', q'))).
      exact HG'.
    - reflexivity. }
  assert (Hkeys : map tv_key (_get_tainted_variables G) = map fst (g_nodes G)).
  { apply (tainted_variables_of_nodes (g_nodes G)).
    intros k d Hin. destruct (Hnodes k d Hin) as (data & Hd & Hk & _).
    exists data. auto. }
  rewrite <- Hkeys in Hhd.
  destruct (_get_tainted_variables G) as [|r rest]; [discriminate|].
  exists r, rest. split; [reflexivity|]. simpl in Hhd. now inversion Hhd.
Qed.

Lemma source_reported_first_witness :
  (exists r rest, _get_tainted_variables inner_outer_graph = r :: rest /\
                  tv_key r = "p@inner") /\
  (forall v f, In (v, f) [(x, outer); (p, inner)] ->
               has_node inner_outer_graph (_node_key v (Some f)) = true).
Proof.
  apply (source_reported_first no_dependency inner_outer inner p 10
           inner_outer_graph [(x, outer); (p, inner)]).
  reflexivity.
Defined.

(** X8. In a built graph every edge joins two nodes that carry their
    attributes: no node was made by [add_edge] alone. *)
Theorem edges_join_attributed_nodes
  (is_dependent : Var -> Var -> Function -> bool) (contract : Contract)
  (source_func : Function) (source_var : Var) (fuel : nat)
  (G : DiGraph) (done : list (Var * Function)) (u v : string) :
  build_trace is_dependent fuel contract source_func source_var = Some (G, done) ->
  has_edge G u v = true ->
  exists du dv, node_data G u = Some (Some du) /\ node_data G v = Some (Some dv).
Proof.
  intros Hrun Hedge.
  pose proof (build_trace_in_order _ _ _ _ _ _ _ Hrun) as (Hnodes & _ & Hedges).
  destruct (Hedges u v Hedge) as [Hu Hv].
  destruct (has_node_data G u Hu) as (du & Hdu & Hinu).
  destruct (has_node_data G v Hv) as (dv & Hdv & Hinv).
  destruct (Hnodes u du Hinu) as (datau & -> & _).
  destruct (Hnodes v dv Hinv) as (datav & -> & _).
  exists datau, datav. auto.
Qed.

Lemma edges_join_attributed_nodes_witness :
  exists du dv, node_data inner_outer_graph "x@outer" = Some (Some du) /\
                node_data inner_outer_graph "p@inner" = Some (Some dv).
Proof.
  apply (edges_join_attributed_nodes no_dependency inner_outer inner p 10
           inner_outer_graph [(x, outer); (p, inner)] "x@outer" "p@inner").
  - reflexivity.
  - reflexivity.
Defined.

Lemma has_edge_data (G : DiGraph) (u v : string) :
  has_edge G u v = true -> exists ed, get_edge_data G u v = Some ed.
Proof.
  unfold has_edge, get_edge_data. intros H.
  destruct (find (fun e => edge_eqb (fst e) (u, v)) (g_edges G)) as [e|] eqn:E.
  - exists (snd e). reflexivity.
  - apply existsb_exists in H. destruct H as (e & He & Hk).
    rewrite (find_none _ _ E e He) in Hk. discriminate.
Qed.

(** X9. On a built graph the formatting of a walk never fails: it
    gives one step for each edge of the walk, and the steps name, end to
    end, the nodes of the walk. *)
Theorem format_taint_path_names_the_walk
  (is_dependent : Var -> Var -> Function -> bool) (contract : Contract)
  (source_func : Function) (source_var : Var) (fuel : nat)
  (G : DiGraph) (done : list (Var * Function)) (path : list string) :
  build_trace is_dependent fuel contract source_func source_var = Some (G, done) ->
  is_path G path ->
  exists steps,
    _format_taint_path G path = Some steps /\
    length steps = length path - 1 /\
    map step_from steps = removelast path /\
    map step_to steps = tl path.
Proof.
  intros Hrun.
  pose proof (build_trace_in_order _ _ _ _ _ _ _ Hrun) as (Hnodes & _ & Hedges).
  induction path as [|u rest IH]; intros Hpath.
  - exists []. auto.
  - destruct rest as [|v rest'].
    + exists []. auto.
    + destruct Hpath as [Huv Hrest].
      destruct (IH Hrest) as (steps & Hfmt & Hlen & Hfrom & Hto).
      destruct (has_edge_data G u v Huv) as (ed & Hed).
      destruct (Hedges u v Huv) as [Hu Hv].
      destruct (has_node_data G u Hu) as (du & Hdu & Hinu).
      destruct (has_node_data G v Hv) as (dv & Hdv & Hinv).
      destruct (Hnodes u du Hinu) as (datau & -> & Hku & _).
      destruct (Hnodes v dv Hinv) as (datav & -> & Hkv & _).
      eexists. split; [|split; [|split]].
      * change (_format_taint_path G (u :: v :: rest'))
          with (match get_edge_data G u v with
                | None => None
                | Some edge_data =>
                    match node_data G u, node_data G v with
                    | Some source_attrs, Some target_attrs =>
                        match _format_taint_path G (v :: rest') with
                        | Some steps0 =>
                            Some ({| from_variable := name_or_unknown source_attrs;
                                     from_function := function_or_unknown source_attrs;
                                     to_variable := name_or_unknown target_attrs;
                                     to_function := function_or_unknown target_attrs;
                                     step_expression := ed_expression edge_data;
                                     step_line := ed_line edge_data |} :: steps0)
                        | None => None
                        end
                    | _, _ => None
                    end
                end).
        rewrite Hed, Hdu, Hdv, Hfmt. reflexivity.
      * simpl in *. lia.
      * change (removelast (u :: v :: rest')) with (u :: removelast (v :: rest')).
        simpl. rewrite Hfrom. f_equal. unfold step_from. simpl. now rewrite Hku.
      * simpl. simpl in Hto. rewrite Hto. f_equal. unfold step_to. simpl.
        now rewrite Hkv.
Qed.

Lemma format_taint_path_names_the_walk_witness :
  exists steps,
    _format_taint_path inner_outer_graph ["x@outer"; "p@inner"] = Some steps /\
    length steps = 1 /\
    map step_from steps = ["x@outer"] /\
    map step_to steps = ["p@inner"].
Proof.
  apply (format_taint_path_names_the_walk no_dependency inner_outer inner p 10
           inner_outer_graph [(x, outer); (p, inner)] ["x@outer"; "p@inner"]).
  - reflexivity.
  - simpl. auto.
Defined.

(** *** The other propagation rules, on the built graph *)

Lemma link_kept (G G' : DiGraph) (k u v : string) :
  graph_le G G' ->
  has_node G k = true /\ has_edge G u v = true ->
  has_node G' k = true /\ has_edge G' u v = true.
Proof. intros [Hn He] [H1 H2]. auto. Qed.

(** A step toward [p] from the current node puts the node of [p] and the
    edge to it in the graph. *)
Lemma taint_pair_links (processed : list (Var * Function)) (current_key : string)
  (p : Var * Function) (edge : EdgeData) (w : Work) :
  has_node (fst (taint_pair processed current_key true p edge w))
    (_node_key (fst p) (Some (snd p))) = true /\
  has_edge (fst (taint_pair processed current_key true p edge w))
    current_key (_node_key (fst p) (Some (snd p))) = true.
Proof.
  unfold taint_pair. cbn [fst].
  rewrite has_node_add_edge, has_edge_add_edge, has_node_add_node.
  rewrite String.eqb_refl, edge_eqb_refl, !orb_true_r. auto.
Qed.

Section StateRule.

Variable contract : Contract.
Variable func : Function.
Variable var : Var.
Variable other_func : Function.
Variable node : Node.

Hypothesis Hstate : is_state_variable var = true.
Hypothesis Hother : In other_func (functions contract).
Hypothesis Hdiff : func_eqb other_func func = false.
Hypothesis Hnode : In node (nodes other_func).
Hypothesis Hread : In var (state_variables_read node).

Lemma process_state_var_taint_links (processed : list (Var * Function))
  (current_key : string) (w : Work) :
  has_node (fst (_process_state_var_taint contract func var current_key processed w))
    (_node_key var (Some other_func)) = true /\
  has_edge (fst (_process_state_var_taint contract func var current_key processed w))
    current_key (_node_key var (Some other_func)) = true.
Proof.
  unfold _process_state_var_taint.
  pose (P := fun w : Work =>
               has_node (fst w) (_node_key var (Some other_func)) = true /\
               has_edge (fst w) current_key (_node_key var (Some other_func)) = true).
  assert (Hkeep : forall (f : Function) (a : Work),
             P a ->
             P (fold_left
                  (fun (w : Work) node0 =>
                     if var_in var (state_variables_read node0)
                     then taint_pair processed current_key true (var, f)
                            {| ed_expression := ("State variable read in "
                                                   ++ fn_name f)%string;
                               ed_line := None |} w
                     else w)
                  (nodes f) a)).
  { intros f a Ha. apply fold_left_inv with (P := P); [exact Ha|].
    intros a' n _ Ha'. destruct (var_in var (state_variables_read n)); [|exact Ha'].
    apply (link_kept (fst a')); [|exact Ha'].
    unfold taint_pair. cbn [fst].
    eapply graph_le_trans; [apply graph_le_add_node | apply graph_le_add_edge]. }
  apply fold_left_reach with (x := other_func) (P := P).
  - exact Hother.
  - intros a. rewrite Hdiff.
    apply fold_left_reach with (x := node) (P := P).
    + exact Hnode.
    + intros a'. apply var_in_true_iff in Hread. rewrite Hread.
      apply (taint_pair_links processed current_key (var, other_func)).
    + intros a' n _ Ha'. destruct (var_in var (state_variables_read n)); [|exact Ha'].
      apply (link_kept (fst a')); [|exact Ha'].
      eapply graph_le_trans; [apply graph_le_add_node | apply graph_le_add_edge].
  - intros a f _ Ha. destruct (func_eqb f func); [exact Ha|].
    exact (Hkeep f a Ha).
Qed.

(** X10. Persistent-state propagation. When the construction has
    processed a state variable in a function, every other function of
    the contract with a statement that reads this variable has a node
    for the variable in its own context, and an edge goes to it from the
    node of the variable in the first function. *)
Theorem state_variable_propagation
  (is_dependent : Var -> Var -> Function -> bool)
  (source_func : Function) (source_var : Var) (fuel : nat)
  (G : DiGraph) (done : list (Var * Function)) :
  build_trace is_dependent fuel contract source_func source_var = Some (G, done) ->
  In (var, func) done ->
  has_node G (_node_key var (Some other_func)) = true /\
  has_edge G (_node_key var (Some func)) (_node_key var (Some other_func)) = true.
Proof.
  intros Hrun Hdone.
  pose (P := fun (G' : DiGraph) (done' : list (Var * Function)) =>
               In (var, func) done' ->
               has_node G' (_node_key var (Some other_func)) = true /\
               has_edge G' (_node_key var (Some func))
                 (_node_key var (Some other_func)) = true).
  assert (HP : P (fst (G, done)) (snd (G, done))).
  { refine (build_loop_invariant is_dependent contract P _ fuel _ _ _ (G, done) _ Hrun).
    - intros G' q' done' v f HG' _ [Heq | Hin].
      + inversion Heq; subst v f. unfold process_pair. rewrite Hstate.
        set (w2 := _process_state_var_taint contract func var
                     (_node_key var (Some func)) ((var, func) :: done') _).
        assert (H2 : has_node (fst w2) (_node_key var (Some other_func)) = true /\
                     has_edge (fst w2) (_node_key var (Some func))
                       (_node_key var (Some other_func)) = true)
          by apply process_state_var_taint_links.
        destruct (var_in var (parameters func)); [|exact H2].
        apply (link_kept (fst w2)); [|exact H2].
        apply (taint_steps_graph_le ((var, func) :: done')
                 (in_unit contract func var) w2).
        apply process_parameter_taint_steps. constructor.
      + apply (link_kept G'); [|exact (HG' Hin)].
        apply (taint_steps_graph_le _ _ (G', q') _
                 (process_pair_any_steps is_dependent contract v f
                    ((v, f) :: done') (G', q'))).
    - intros []. }
  exact (HP Hdone).
Qed.

End StateRule.

Section FunctionRule.

Variable is_dependent : Var -> Var -> Function -> bool.
Variable contract : Contract.
Variable func : Function.
Variable var : Var.
Variable node : Node.
Variable written_var : Var.

Hypothesis Hnode : In node (nodes func).
Hypothesis Hwritten : In written_var (written node).
Hypothesis Hrule :
  is_dependent written_var var func = true \/
  exists e, expression node = Some e /\
            In var (get_expression_variables e) /\
            ~ In written_var (get_expression_variables e).

Lemma process_function_taint_links (processed : list (Var * Function))
  (current_key : string) (w : Work) :
  has_node (fst (_process_function_taint is_dependent func var current_key processed w))
    (_node_key written_var (Some func)) = true /\
  has_edge (fst (_process_function_taint is_dependent func var current_key processed w))
    current_key (_node_key written_var (Some func)) = true.
Proof.
  unfold _process_function_taint.
  pose (P := fun w : Work =>
               has_node (fst w) (_node_key written_var (Some func)) = true /\
               has_edge (fst w) current_key (_node_key written_var (Some func)) = true).
  assert (Hfunc : In func (unit_funcs contract func)) by now left.
  assert (Hexpr : forall n (a : Work), In n (nodes func) ->
             graph_le (fst a) (fst (expression_rule func var current_key processed n a))).
  { intros n a Hn.
    apply (taint_steps_graph_le processed (in_unit contract func var) a).
    apply expression_rule_steps; [exact Hfunc | exact Hn | constructor]. }
  assert (Hdep : forall n (a : Work), In n (nodes func) ->
             graph_le (fst a)
               (fst (dependency_rule is_dependent func var current_key processed n a))).
  { intros n a Hn.
    apply (taint_steps_graph_le processed (in_unit contract func var) a).
    apply dependency_rule_steps; [exact Hfunc | exact Hn | constructor]. }
  apply fold_left_reach with (x := node) (P := P).
  - exact Hnode.
  - intros a. destruct Hrule as [Hd | (e & He & Hvar & Hnot)].
    + unfold dependency_rule.
      apply fold_left_reach with (x := written_var) (P := P).
      * exact Hwritten.
      * intros a'. rewrite Hd.
        apply (taint_pair_links processed current_key (written_var, func)).
      * intros a' y _ Ha'. destruct (is_dependent y var func); [|exact Ha'].
        apply (link_kept (fst a')); [|exact Ha'].
        eapply graph_le_trans; [apply graph_le_add_node | apply graph_le_add_edge].
    + apply (link_kept (fst (expression_rule func var current_key processed node a)));
        [apply Hdep; exact Hnode|].
      unfold expression_rule. rewrite He.
      apply var_in_true_iff in Hvar. rewrite Hvar.
      apply fold_left_reach with (x := written_var) (P := P).
      * exact Hwritten.
      * intros a'. apply var_in_false_iff in Hnot. rewrite Hnot.
        apply (taint_pair_links processed current_key (written_var, func)).
      * intros a' y _ Ha'.
        destruct (var_in y (get_expression_variables e)); [exact Ha'|].
        apply (link_kept (fst a')); [|exact Ha'].
        eapply graph_le_trans; [apply graph_le_add_node | apply graph_le_add_edge].
  - intros a n Hn Ha.
    apply (link_kept (fst (expression_rule func var current_key processed n a)));
      [apply Hdep; exact Hn|].
    apply (link_kept (fst a)); [apply Hexpr; exact Hn | exact Ha].
Qed.

(** X11. Same-function propagation. When the construction has processed
    a variable in a function, every variable written by a statement of
    that function gets a node in the function and an edge from the
    processed variable as soon as one of the two rules applies: the
    written variable depends on the processed one according to
    [is_dependent], or the expression of the statement mentions the
    processed variable and not the written one. *)
Theorem same_function_propagation
  (source_func : Function) (source_var : Var) (fuel : nat)
  (G : DiGraph) (done : list (Var * Function)) :
  build_trace is_dependent fuel contract source_func source_var = Some (G, done) ->
  In (var, func) done ->
  has_node G (_node_key written_var (Some func)) = true /\
  has_edge G (_node_key var (Some func)) (_node_key written_var (Some func)) = true.
Proof.
  intros Hrun Hdone.
  pose (P := fun (G' : DiGraph) (done' : list (Var * Function)) =>
               In (var, func) done' ->
               has_node G' (_node_key written_var (Some func)) = true /\
               has_edge G' (_node_key var (Some func))
                 (_node_key written_var (Some func)) = true).
  assert (HP : P (fst (G, done)) (snd (G, done))).
  { refine (build_loop_invariant is_dependent contract P _ fuel _ _ _ (G, done) _ Hrun).
    - intros G' q' done' v f HG' _ [Heq | Hin].
      + inversion Heq; subst v f. unfold process_pair.
        set (w1 := _process_function_taint is_dependent func var
                     (_node_key var (Some func)) ((var, func) :: done') (G', q')).
        assert (H1 : has_node (fst w1) (_node_key written_var (Some func)) = true /\
                     has_edge (fst w1) (_node_key var (Some func))
                       (_node_key written_var (Some func)) = true)
          by apply process_function_taint_links.
        set (w2 := if is_state_variable var
                   then _process_state_var_taint contract func var
                          (_node_key var (Some func)) ((var, func) :: done') w1
                   else w1).
        assert (H2 : has_node (fst w2) (_node_key written_var (Some func)) = true /\
                     has_edge (fst w2) (_node_key var (Some func))
                       (_node_key written_var (Some func)) = true).
        { unfold w2. destruct (is_state_variable var); [|exact H1].
          apply (link_kept (fst w1)); [|exact H1].
          apply (taint_steps_graph_le ((var, func) :: done')
                   (in_unit contract func var) w1).
          apply process_state_var_taint_steps; [now left | constructor]. }
        destruct (var_in var (parameters func)); [|exact H2].
        apply (link_kept (fst w2)); [|exact H2].
        apply (taint_steps_graph_le ((var, func) :: done')
                 (in_unit contract func var) w2).
        apply process_parameter_taint_steps. constructor.
      + apply (link_kept G'); [|exact (HG' Hin)].
        apply (taint_steps_graph_le _ _ (G', q') _
                 (process_pair_any_steps is_dependent contract v f
                    ((v, f) :: done') (G', q'))).
    - intros []. }
  exact (HP Hdone).
Qed.

End FunctionRule.

(** From the seed [(r, setRate)]: [rate] is reached in [setRate], and
    from there in [compute], which reads it. *)
Lemma state_variable_propagation_witness :
  exists G done,
    build_trace rate_flow 10 rate_contract setRate r = Some (G, done) /\
    has_node G "rate@compute" = true /\
    has_edge G "rate@setRate" "rate@compute" = true.
Proof.
  eexists. eexists. split; [vm_compute; reflexivity|].
  apply (state_variable_propagation rate_contract setRate rate compute out_gets_rate)
    with (is_dependent := rate_flow) (source_func := setRate) (source_var := r)
         (fuel := 10)
         (done := [(out, compute); (rate, compute); (rate, setRate); (r, setRate)]).
  - reflexivity.
  - simpl; auto.
  - reflexivity.
  - simpl; auto.
  - simpl; auto.
  - vm_compute. reflexivity.
  - simpl; auto.
Defined.

Lemma same_function_propagation_witness :
  exists G done,
    build_trace rate_flow 10 rate_contract setRate r = Some (G, done) /\
    has_node G "rate@setRate" = true /\
    has_edge G "r@setRate" "rate@setRate" = true.
Proof.
  eexists. eexists. split; [vm_compute; reflexivity|].
  apply (same_function_propagation rate_flow rate_contract setRate r rate_gets_r rate)
    with (source_func := setRate) (source_var := r) (fuel := 10)
         (done := [(out, compute); (rate, compute); (rate, setRate); (r, setRate)]).
  - simpl; auto.
  - simpl; auto.
  - left. reflexivity.
  - vm_compute. reflexivity.
  - simpl; auto.
Defined.

(** *** Resolution by name, again *)

Lemma find_app_some {A : Type} (f : A -> bool) (l : list A) (x : A) :
  find f l = Some x ->
  exists l1 l2, l = l1 ++ x :: l2 /\ f x = true /\ forall y, In y l1 -> f y = false.
Proof.
  induction l as [|a l IH]; simpl; [discriminate|].
  destruct (f a) eqn:E.
  - intros H; inversion H; subst a. exists [], l. simpl. repeat split; auto.
    intros y [].
  - intros H. destruct (IH H) as (l1 & l2 & -> & Hx & Hl1).
    exists (a :: l1), l2. repeat split; auto.
    intros y [<- | Hy]; auto.
Qed.

(** X12. Resolution of a function by name answers the first function of
    the contract with that name, so of two overloads the later one is
    never answered; it fails exactly when no function has the name. *)
Theorem find_function_first_of_name (contract : Contract) (function_name : string) :
  (forall function,
      find_function_by_name contract function_name = Some function ->
      fn_name function = function_name /\
      exists before after,
        functions contract = before ++ function :: after /\
        forall g, In g before -> fn_name g <> function_name) /\
  (find_function_by_name contract function_name = None <->
   forall g, In g (functions contract) -> fn_name g <> function_name).
Proof.
  unfold find_function_by_name. split.
  - intros function Hfind. apply find_app_some in Hfind.
    destruct Hfind as (l1 & l2 & Heq & Hname & Hbefore).
    apply String.eqb_eq in Hname. split; [exact Hname|].
    exists l1, l2. split; [exact Heq|].
    intros g Hg. apply String.eqb_neq. now apply Hbefore.
  - split.
    + intros Hnone g Hg. apply String.eqb_neq. exact (find_none _ _ Hnone g Hg).
    + intros Hall.
      destruct (find _ (functions contract)) as [g|] eqn:E; [|reflexivity].
      apply find_some in E. destruct E as [Hg Hname].
      apply String.eqb_eq in Hname. now destruct (Hall g Hg).
Qed.


(** X13. A variable that the resolution by name answers is in the scope
    of the function: a parameter named [n] or [_n]; or, when there is no
    such parameter, a local variable named [n] that a statement writes
    or reads; or, when there is none of these either, a state variable
    named [n] that a statement reads or writes. The resolution fails
    exactly when the function has none of the three. *)
Theorem find_variable_by_name_scope (function : Function) (n : string) :
  let is_param := fun v : Var =>
    String.eqb (var_name v) n || String.eqb (var_name v) ("_" ++ n)%string in
  let locals := flat_map (fun node => local_variables_written node
                                      ++ local_variables_read node)
                         (nodes function) in
  let states := flat_map (fun node => state_variables_read node
                                      ++ state_variables_written node)
                         (nodes function) in
  (forall v, find_variable_by_name function n = Some v ->
     In v (scope_vars function) /\
     ((In v (parameters function) /\ is_param v = true) \/
      ((forall q, In q (parameters function) -> is_param q = false) /\
       In v locals /\ var_name v = n) \/
      ((forall q, In q (parameters function) -> is_param q = false) /\
       (forall l, In l locals -> var_name l <> n) /\
       In v states /\ var_name v = n))) /\
  (find_variable_by_name function n = None <->
   (forall q, In q (parameters function) -> is_param q = false) /\
   (forall l, In l locals -> var_name l <> n) /\
   (forall s, In s states -> var_name s <> n)).
Proof.
  intros is_param locals states. unfold find_variable_by_name.
  fold is_param. fold locals. fold states.
  assert (Hlocals : forall v, In v locals -> In v (scope_vars function)).
  { intros v Hv. unfold scope_vars. apply in_app_iff. right.
    apply in_flat_map in Hv. destruct Hv as (node & Hn & Hv).
    apply in_flat_map. exists node. split; [exact Hn|].
    rewrite !in_app_iff in *. tauto. }
  assert (Hstates : forall v, In v states -> In v (scope_vars function)).
  { intros v Hv. unfold scope_vars. apply in_app_iff. right.
    apply in_flat_map in Hv. destruct Hv as (node & Hn & Hv).
    apply in_flat_map. exists node. split; [exact Hn|].
    rewrite !in_app_iff in *. tauto. }
  destruct (find is_param (parameters function)) as [param|] eqn:Eparam.
  - split.
    + intros v Hv. inversion Hv; subst v. apply find_some in Eparam.
      destruct Eparam as [Hin Hb]. split.
      * unfold scope_vars. apply in_app_iff. now left.
      * left. auto.
    + split; [discriminate|]. intros (Hno & _).
      apply find_some in Eparam. destruct Eparam as [Hin Hb].
      rewrite (Hno param Hin) in Hb. discriminate.
  - pose proof (find_none _ _ Eparam) as Hno.
    destruct (find (fun local_var => String.eqb (var_name local_var) n) locals)
      as [local_var|] eqn:Elocal.
    + split.
      * intros v Hv. inversion Hv; subst v. apply find_some in Elocal.
        destruct Elocal as [Hin Hb]. apply String.eqb_eq in Hb. split; [auto|].
        right; left. auto.
      * split; [discriminate|]. intros (_ & Hnol & _).
        apply find_some in Elocal. destruct Elocal as [Hin Hb].
        apply String.eqb_eq in Hb. now destruct (Hnol local_var Hin).
    + pose proof (find_none _ _ Elocal) as Hnol.
      assert (Hnol' : forall l, In l locals -> var_name l <> n).
      { intros l Hl. apply String.eqb_neq. now apply Hnol. }
      split.
      * intros v Hv. apply find_some in Hv. destruct Hv as [Hin Hb].
        apply String.eqb_eq in Hb. split; [auto|]. right; right. auto.
      * split.
        -- intros Hnone. split; [exact Hno|]. split; [exact Hnol'|].
           intros s0 Hs0. apply String.eqb_neq. exact (find_none _ _ Hnone s0 Hs0).
        -- intros (_ & _ & Hnos).
           destruct (find _ states) as [s0|] eqn:Es; [|reflexivity].
           apply find_some in Es. destruct Es as [Hin Hb].
           apply String.eqb_eq in Hb. now destruct (Hnos s0 Hin).
Qed.

(** X14. The search for variables goes to any depth: a variable that an
    expression holds, however deep inside the expression, as the value
    of an identifier or as an attribute, is among the variables of the
    expression; and the result names no variable twice. *)
Theorem expression_variables_deep (e e' : Expression) (v : Var) :
  subexpression e' e ->
  In v (own_variables e') ->
  In v (get_expression_variables e) /\ NoDup (get_expression_variables e).
Proof.
  intros Hsub Hown. split.
  - induction Hsub as [ | text idv vars subs lists s Hs Hsub IH
                          | text idv vars subs lists name items s Hl Hi Hsub IH].
    + destruct e' as [text idv vars subs lists]. simpl in *.
      apply nodup_In. rewrite app_assoc. apply in_app_iff. now left.
    + simpl. apply nodup_In. rewrite !in_app_iff. right; right; left.
      apply in_flat_map. exists s. auto.
    + simpl. apply nodup_In. rewrite !in_app_iff. right; right; right.
      apply in_flat_map. exists (name, items). split; [exact Hl|].
      apply in_flat_map. exists (Some s). auto.
  - destruct e. simpl. apply NoDup_nodup.
Qed.

(** In [inner(x)] the variable [x] sits in the argument list. *)
Lemma expression_variables_deep_witness :
  In x (get_expression_variables (call "inner(x)" x)) /\
  NoDup (get_expression_variables (call "inner(x)" x)).
Proof.
  apply (expression_variables_deep (call "inner(x)" x) (ident x) x).
  - apply (subexpression_item (ident x) "inner(x)" None [] []
             [("arguments", [Some (ident x)])] "arguments" [Some (ident x)] (ident x)).
    + simpl; auto.
    + simpl; auto.
    + constructor.
  - simpl; auto.
Defined.

(** *** The verdict *)





(** X21. When the check answers that the sink is tainted, the path it
    answers is a walk along edges of the graph that starts at the key
    made of the source variable and the function name [global] and ends
    at the key of the sink. *)
Theorem reported_path_is_a_walk (G : DiGraph) (source_var sink_var : Var)
  (sink_func : Function) (path : list string) :
  _check_sink_tainted G source_var sink_var sink_func = Returns (true, path) ->
  is_path G path /\
  hd_error path = Some (_node_key source_var None) /\
  last path (_node_key source_var None) = _node_key sink_var (Some sink_func).
Proof.
  unfold _check_sink_tainted.
  destruct (negb (has_node G (_node_key sink_var (Some sink_func)))); [discriminate|].
  destruct (shortest_path G (_node_key source_var None)
              (_node_key sink_var (Some sink_func))) as [found|ex] eqn:Esp.
  - intros H; inversion H; subst found. now apply shortest_path_is_path.
  - destruct ex; discriminate.
Qed.

(** In a function named [global] the analysis does find the flow from
    [a] to [b]. *)
Lemma reported_path_is_a_walk_witness :
  analyze b_on_a 10 global_contract "global" "a" "global" "b"
    = Some (Returns (true, ["a@global"; "b@global"])) /\
  is_path global_graph ["a@global"; "b@global"] /\
  hd_error ["a@global"; "b@global"] = Some (_node_key a None) /\
  last ["a@global"; "b@global"] (_node_key a None) = _node_key b (Some global_fn).
Proof.
  split; [reflexivity|].
  apply (reported_path_is_a_walk global_graph a b global_fn ["a@global"; "b@global"]).
  reflexivity.
Defined.

End TaintFacts.

(** ** Facts about the token flow analyzer *)

Module TokenFlowFacts.
Import Taint.
Import TokenFlow.

Lemma listed_iff (name : string) (entries : list Entry) :
  listed name entries = true <-> In name (map entry_name entries).
Proof.
  unfold listed, str_in. rewrite existsb_exists. split.
  - intros (k & Hk & He). apply String.eqb_eq in He. now subst k.
  - intros H. exists name. split; [exact H | apply String.eqb_refl].
Qed.

Lemma listed_false_iff (name : string) (entries : list Entry) :
  listed name entries = false <-> ~ In name (map entry_name entries).
Proof.
  rewrite <- listed_iff. destruct (listed name entries); split; congruence.
Qed.

Lemma names_snoc_nodup (found : list Entry) (e : Entry) :
  NoDup (map entry_name found) -> listed (entry_name e) found = false ->
  NoDup (map entry_name (found ++ [e])).
Proof.
  intros Hnd Hnew. apply listed_false_iff in Hnew. rewrite map_app. simpl.
  apply NoDup_app; [exact Hnd | repeat constructor; intros [] |].
  intros y Hy [Hye | []]. subst y. contradiction.
Qed.

(** Setting a key, then reading a key. *)
Lemma dict_get_set {V : Type} (d : list (string * V)) (k k' : string) (v : V) :
  dict_get (dict_set String.eqb d k v) k' =
  if String.eqb k k' then Some v else dict_get d k'.
Proof.
  induction d as [|[k0 v0] d IH]; simpl.
  - reflexivity.
  - destruct (String.eqb k0 k) eqn:E; simpl.
    + apply String.eqb_eq in E. subst k0.
      destruct (String.eqb k k'); reflexivity.
    + destruct (String.eqb k0 k') eqn:E'.
      * apply String.eqb_eq in E'. subst k0. now rewrite String.eqb_sym, E.
      * exact IH.
Qed.

(** A dictionary filled key by key with a value that depends on the key
    alone. *)
Lemma dict_get_filled {V : Type} (g : string -> V) (found : list Entry) :
  forall (d : list (string * V)) (k : string),
    dict_get (fold_left (fun d e => dict_set String.eqb d (entry_name e)
                                      (g (entry_name e))) found d) k =
    if listed k found then Some (g k) else dict_get d k.
Proof.
  induction found as [|e found IH]; intros d k; simpl; [reflexivity|].
  rewrite IH, dict_get_set. unfold listed, str_in. simpl.
  destruct (existsb (String.eqb k) (map entry_name found)) eqn:E.
  - now rewrite orb_true_r.
  - rewrite orb_false_r. rewrite (String.eqb_sym k).
    destruct (String.eqb (entry_name e) k) eqn:Ek; [|reflexivity].
    apply String.eqb_eq in Ek. now subst k.
Qed.

Section Facade.

Variable type_str : Var -> string.
Variable is_dependent : Var -> Var -> Function -> bool.
Variable contract : Contract.

(** *** The state variables found *)

Lemma sound_entries_snoc (function : Function) (found : list Entry) (v : Var) :
  sound_entries type_str contract function found ->
  listed (var_name v) found = false ->
  (In v (state_variables contract) \/
   exists node, In node (nodes function) /\
                In v (state_variables_read node ++ state_variables_written node)) ->
  sound_entries type_str contract function (found ++ [entry_of type_str v]).
Proof.
  intros [Hnd Hsound] Hnew Hv. split.
  - now apply names_snoc_nodup.
  - intros e He. apply in_app_iff in He. destruct He as [He | [<- | []]]; [auto|].
    exists v. auto.
Qed.

Lemma find_state_variables_sound (function : Function) (amount_var : string)
  (found : list Entry) :
  sound_entries type_str contract function found ->
  sound_entries type_str contract function
    (_find_state_variables type_str is_dependent contract function amount_var found).
Proof.
  intros Hfound. unfold _find_state_variables.
  assert (Hloop : sound_entries type_str contract function
            (match find_amount_var function amount_var with
             | Some amount_var_obj =>
                 fold_left
                   (fun found node =>
                      by_expression type_str contract amount_var node
                        (by_dependency type_str is_dependent function
                           amount_var_obj node found))
                   (nodes function) found
             | None => found
             end)).
  { destruct (find_amount_var function amount_var) as [obj|]; [|exact Hfound].
    apply fold_left_inv; [exact Hfound|]. intros a node Hn Ha.
    assert (Hdep : sound_entries type_str contract function
                     (by_dependency type_str is_dependent function obj node a)).
    { unfold by_dependency. apply fold_left_inv; [exact Ha|].
      intros a' v Hv Ha'.
      destruct (is_dependent obj v function); [|exact Ha'].
      destruct (listed (var_name v) a') eqn:El; [exact Ha'|]. simpl.
      apply sound_entries_snoc; [exact Ha' | exact El |]. right. exists node. auto. }
    unfold by_expression. destruct (expression node) as [e|]; [|exact Hdep].
    destruct (contains amount_var (expr_str e)); [|exact Hdep].
    apply fold_left_inv; [exact Hdep|]. intros a' v Hv Ha'.
    destruct (contains (var_name v) (expr_str e)); [|exact Ha'].
    destruct (listed (var_name v) a') eqn:El; [exact Ha'|]. simpl.
    apply sound_entries_snoc; auto. }
  unfold balances_case.
  destruct (listed "balances" _) eqn:El; [exact Hloop|].
  destruct (find _ (state_variables contract)) as [state_var|] eqn:Efind;
    [|exact Hloop].
  apply find_some in Efind. destruct Efind as [Hin Hname].
  apply String.eqb_eq in Hname.
  replace {| entry_name := "balances"; entry_type := type_str state_var |}
    with (entry_of type_str state_var)
    by (unfold entry_of; now rewrite Hname).
  apply sound_entries_snoc; [exact Hloop | now rewrite Hname | now left].
Qed.

(** X16. The state variables that the analysis reports have pairwise
    different names, and each entry is made of the name and the type of
    a state variable that the contract declares or that a statement of
    the analysed function reads or writes. *)
Theorem state_variables_found_sound (function_name amount_var : string)
  (result : Analysis) :
  analyze type_str is_dependent contract function_name amount_var = Returns result ->
  NoDup (map entry_name (found_state_variables result)) /\
  forall e, In e (found_state_variables result) ->
    exists v, e = entry_of type_str v /\
      (In v (state_variables contract) \/
       exists target node,
         find (fun f => String.eqb (fn_name f) function_name) (functions contract)
           = Some target /\
         In node (nodes target) /\
         In v (state_variables_read node ++ state_variables_written node)).
Proof.
  unfold analyze.
  destruct (find _ (functions contract)) as [target|] eqn:Efind; [|discriminate].
  intros H; inversion H; subst result; clear H. simpl.
  destruct (find_state_variables_sound target amount_var []) as [Hnd Hsound].
  { split; [constructor | intros e []]. }
  split; [exact Hnd|]. intros e He.
  destruct (Hsound e He) as (v & Hv & [Hdecl | (node & Hn & Hrw)]).
  - exists v. auto.
  - exists v. split; [exact Hv|]. right. exists target, node. auto.
Qed.

(** X17. The special case: when the contract declares a state variable
    named [balances], the analysis reports it, whatever the function and
    the amount variable are. *)
Theorem balances_always_found (function_name amount_var : string)
  (result : Analysis) :
  analyze type_str is_dependent contract function_name amount_var = Returns result ->
  (exists v, In v (state_variables contract) /\ var_name v = "balances") ->
  In "balances" (map entry_name (found_state_variables result)).
Proof.
  unfold analyze.
  destruct (find _ (functions contract)) as [target|] eqn:Efind; [|discriminate].
  intros H (v & Hv & Hname); inversion H; subst result; clear H. simpl.
  unfold _find_state_variables, balances_case.
  destruct (listed "balances" _) eqn:El; [now apply listed_iff|].
  destruct (find (fun state_var => String.eqb (var_name state_var) "balances")
                 (state_variables contract)) as [state_var|] eqn:Eb.
  - rewrite map_app. apply in_app_iff. right. simpl. auto.
  - apply (find_none _ _ Eb) in Hv. rewrite Hname in Hv. discriminate.
Qed.

(** *** The modifications *)

Lemma modifications_of_iff (name : string) (m : Modification) :
  In m (modifications_of contract name) <->
  exists function node var,
    In function (functions contract) /\ In node (nodes function) /\
    In var (state_variables_written node) /\ var_name var = name /\
    m = {| mod_function := fn_name function; mod_expression := node_text node |}.
Proof.
  unfold modifications_of. split.
  - intros H. apply in_flat_map in H. destruct H as (function & Hf & H).
    apply in_flat_map in H. destruct H as (node & Hn & H).
    apply in_flat_map in H. destruct H as (var & Hv & H).
    destruct (String.eqb (var_name var) name) eqn:E; [|destruct H].
    apply String.eqb_eq in E. destruct H as [<- | []].
    exists function, node, var. auto.
  - intros (function & node & var & Hf & Hn & Hv & Hname & ->).
    apply in_flat_map. exists function. split; [exact Hf|].
    apply in_flat_map. exists node. split; [exact Hn|].
    apply in_flat_map. exists var. split; [exact Hv|].
    apply String.eqb_eq in Hname. rewrite Hname. now left.
Qed.

(** X18. The modifications reported are keyed by the names of the state
    variables found, and by nothing else; under the name of such a
    variable stand exactly the statements, of any function of the
    contract, that write a state variable of that name, each with the
    name of its function and the text of its expression. *)
Theorem variable_modifications_exact (function_name amount_var : string)
  (result : Analysis) (name : string) :
  analyze type_str is_dependent contract function_name amount_var = Returns result ->
  (In name (map entry_name (found_state_variables result)) ->
   exists mods,
     dict_get (variable_modifications result) name = Some mods /\
     forall m, In m mods <->
       exists function node var,
         In function (functions contract) /\ In node (nodes function) /\
         In var (state_variables_written node) /\ var_name var = name /\
         m = {| mod_function := fn_name function;
                mod_expression := node_text node |}) /\
  (~ In name (map entry_name (found_state_variables result)) ->
   dict_get (variable_modifications result) name = None).
Proof.
  unfold analyze.
  destruct (find _ (functions contract)) as [target|] eqn:Efind; [|discriminate].
  intros H; inversion H; subst result; clear H. simpl.
  unfold _find_variable_modifications.
  rewrite (dict_get_filled (modifications_of contract)). split.
  - intros Hin. apply listed_iff in Hin. rewrite Hin.
    exists (modifications_of contract name). split; [reflexivity|].
    intros m. apply modifications_of_iff.
  - intros Hnin. apply listed_false_iff in Hnin. now rewrite Hnin.
Qed.

(** *** The inputs of other functions *)

(** X19. Every entry that the analysis reports among the inputs of
    other functions, under the name of a state variable, is about a
    function other than the analysed one; it has at least one parameter;
    its parameters are parameters of the first function of the contract
    with the reported name, and the name of each occurs in the reported
    expression; and that expression is the text of a statement, in a
    function of the reported name, that writes a state variable of that
    name. *)
Theorem cross_function_inputs_sound (function_name amount_var : string)
  (result : Analysis) (name : string) (entries : list CrossInput) (e : CrossInput) :
  analyze type_str is_dependent contract function_name amount_var = Returns result ->
  dict_get (cross_function_inputs result) name = Some entries ->
  In e entries ->
  ci_function e <> function_name /\
  ci_parameters e <> [] /\
  (exists modifying,
      find (fun f => String.eqb (fn_name f) (ci_function e)) (functions contract)
        = Some modifying /\
      forall p, In p (ci_parameters e) ->
        contains (entry_name p) (ci_expression e) = true /\
        exists param, In param (parameters modifying) /\ p = entry_of type_str param) /\
  (exists function node var,
      In function (functions contract) /\ fn_name function = ci_function e /\
      In node (nodes function) /\ In var (state_variables_written node) /\
      var_name var = name /\ ci_expression e = node_text node).
Proof.
  unfold analyze.
  destruct (find _ (functions contract)) as [target|] eqn:Efind; [|discriminate].
  intros H; inversion H; subst result; clear H. simpl.
  set (found := _find_state_variables type_str is_dependent contract target
                  amount_var []).
  unfold _trace_cross_function_inputs, _find_variable_modifications.
  rewrite (dict_get_filled
             (fun k => cross_inputs type_str contract function_name
                         (match dict_get
                                  (fold_left
                                     (fun d state_var =>
                                        dict_set String.eqb d (entry_name state_var)
                                          (modifications_of contract
                                             (entry_name state_var)))
                                     found []) k with
                          | Some l => l
                          | None => []
                          end))).
  destruct (listed name found) eqn:El; [|discriminate].
  rewrite (dict_get_filled (modifications_of contract)), El.
  intros Hentries He. inversion Hentries; subst entries; clear Hentries.
  unfold cross_inputs in He. apply in_flat_map in He.
  destruct He as (m & Hm & He).
  destruct (String.eqb (mod_function m) function_name) eqn:Eskip; [destruct He|].
  destruct (find (fun f => String.eqb (fn_name f) (mod_function m))
                 (functions contract)) as [modifying|] eqn:Emod; [|destruct He].
  destruct (input_params type_str modifying (mod_expression m)) as [|p0 ps] eqn:Eps;
    [destruct He|].
  destruct He as [<- | []]. cbn [ci_function ci_parameters ci_expression].
  apply modifications_of_iff in Hm.
  destruct Hm as (function & node & var & Hf & Hn & Hv & Hname & ->).
  cbn [mod_function mod_expression] in *.
  split; [now apply String.eqb_neq|]. split; [discriminate|]. split.
  - exists modifying. split; [exact Emod|]. intros p Hp.
    rewrite <- Eps in Hp. unfold input_params in Hp.
    apply in_map_iff in Hp. destruct Hp as (param & <- & Hparam).
    apply filter_In in Hparam. destruct Hparam as [Hin Hc].
    split; [exact Hc|]. exists param. auto.
  - exists function, node, var. auto 10.
Qed.

(** *** The script and the package *)

Lemma script_modifications_of_iff (target : Function) (function_name name : string)
  (m : Modification) :
  In target (functions contract) -> fn_name target = function_name ->
  (forall g, In g (functions contract) -> fn_name g = function_name -> g = target) ->
  (In m (script_modifications_of contract target function_name name) <->
   In m (modifications_of contract name)).
Proof.
  intros Htarget Hname Honly. rewrite modifications_of_iff.
  unfold script_modifications_of. rewrite in_app_iff. split.
  - intros [H | H].
    + apply in_flat_map in H. destruct H as (node & Hn & H).
      apply in_flat_map in H. destruct H as (var & Hv & H).
      destruct (String.eqb (var_name var) name) eqn:E; [|destruct H].
      apply String.eqb_eq in E. destruct H as [<- | []].
      exists target, node, var. rewrite Hname. auto.
    + apply in_flat_map in H. destruct H as (function & Hf & H).
      destruct (String.eqb (fn_name function) function_name); [destruct H|].
      apply in_flat_map in H. destruct H as (node & Hn & H).
      apply in_flat_map in H. destruct H as (var & Hv & H).
      destruct (String.eqb (var_name var) name) eqn:E; [|destruct H].
      apply String.eqb_eq in E. destruct H as [<- | []].
      exists function, node, var. auto.
  - intros (function & node & var & Hf & Hn & Hv & Hvn & ->).
    apply String.eqb_eq in Hvn.
    destruct (String.eqb (fn_name function) function_name) eqn:E.
    + left. apply String.eqb_eq in E. rewrite (Honly function Hf E) in *.
      apply in_flat_map. exists node. split; [exact Hn|].
      apply in_flat_map. exists var. split; [exact Hv|].
      rewrite Hvn, Hname. now left.
    + right. apply in_flat_map. exists function. split; [exact Hf|]. rewrite E.
      apply in_flat_map. exists node. split; [exact Hn|].
      apply in_flat_map. exists var. split; [exact Hv|].
      rewrite Hvn. now left.
Qed.

(** X20. The standalone script and the package agree when one function
    only has the name asked for: they find the same state variables, in
    the same order, and under each name they report the same
    modifications, the script listing those of the analysed function
    first. *)
Theorem script_agrees_with_package (function_name amount_var : string)
  (result : Analysis) (name : string) :
  (forall g h, In g (functions contract) -> In h (functions contract) ->
               fn_name g = function_name -> fn_name h = function_name -> g = h) ->
  analyze type_str is_dependent contract function_name amount_var = Returns result ->
  fst (analyze_amount_relevant_variables type_str is_dependent contract
         function_name amount_var) = found_state_variables result /\
  match dict_get (snd (analyze_amount_relevant_variables type_str is_dependent
                         contract function_name amount_var)) name,
        dict_get (variable_modifications result) name with
  | Some script, Some package => forall m, In m script <-> In m package
  | None, None => True
  | _, _ => False
  end.
Proof.
  intros Honly. unfold analyze, analyze_amount_relevant_variables.
  destruct (find _ (functions contract)) as [target|] eqn:Efind; [|discriminate].
  intros H; inversion H; subst result; clear H. simpl.
  split; [reflexivity|].
  unfold _find_variable_modifications.
  rewrite (dict_get_filled (modifications_of contract)).
  rewrite (dict_get_filled (script_modifications_of contract target function_name)).
  destruct (listed name _); [|exact I].
  apply find_some in Efind. destruct Efind as [Hin Hname].
  apply String.eqb_eq in Hname.
  intros m. apply script_modifications_of_iff; auto.
Qed.

End Facade.

Import Samples.TF.

(** On the vault, analysed at [withdraw] with the amount [amount]. *)
Lemma state_variables_found_sound_witness :
  NoDup (map entry_name (found_state_variables vault_analysis)) /\
  forall e, In e (found_state_variables vault_analysis) ->
    exists v, e = entry_of type_of v /\
      (In v (state_variables vault) \/
       exists target node,
         find (fun f => String.eqb (fn_name f) "withdraw") (functions vault)
           = Some target /\
         In node (nodes target) /\
         In v (state_variables_read node ++ state_variables_written node)).
Proof.
  apply (state_variables_found_sound type_of no_dependency vault "withdraw" "amount"
           vault_analysis).
  reflexivity.
Defined.

Lemma balances_always_found_witness :
  In "balances" (map entry_name (found_state_variables vault_analysis)).
Proof.
  apply (balances_always_found type_of no_dependency vault "withdraw" "amount"
           vault_analysis).
  - reflexivity.
  - exists balances. split; [simpl; auto | reflexivity].
Defined.

Lemma variable_modifications_exact_witness :
  (In "balances" (map entry_name (found_state_variables vault_analysis)) ->
   exists mods,
     dict_get (variable_modifications vault_analysis) "balances" = Some mods /\
     forall m, In m mods <->
       exists function node var,
         In function (functions vault) /\ In node (nodes function) /\
         In var (state_variables_written node) /\ var_name var = "balances" /\
         m = {| mod_function := fn_name function;
                mod_expression := node_text node |}) /\
  (~ In "balances" (map entry_name (found_state_variables vault_analysis)) ->
   dict_get (variable_modifications vault_analysis) "balances" = None).
Proof.
  apply (variable_modifications_exact type_of no_dependency vault "withdraw" "amount"
           vault_analysis "balances").
  reflexivity.
Defined.

Lemma cross_function_inputs_sound_witness :
  exists e,
    dict_get (cross_function_inputs vault_analysis) "balances" = Some [e] /\
    ci_function e <> "withdraw" /\ ci_parameters e <> [].
Proof.
  eexists. split; [reflexivity|].
  destruct (cross_function_inputs_sound type_of no_dependency vault "withdraw"
              "amount" vault_analysis "balances" _ _ eq_refl eq_refl
              (or_introl eq_refl)) as (Hf & Hp & _).
  split; [exact Hf | exact Hp].
Defined.

Lemma script_agrees_with_package_witness :
  fst (analyze_amount_relevant_variables type_of no_dependency vault
         "withdraw" "amount") = found_state_variables vault_analysis /\
  match dict_get (snd (analyze_amount_relevant_variables type_of no_dependency
                         vault "withdraw" "amount")) "balances",
        dict_get (variable_modifications vault_analysis) "balances" with
  | Some script, Some package => forall m, In m script <-> In m package
  | None, None => True
  | _, _ => False
  end.
Proof.
  apply (script_agrees_with_package type_of no_dependency vault "withdraw" "amount"
           vault_analysis "balances").
  - intros g h [<- | [<- | []]] [<- | [<- | []]] Hg Hh;
      try reflexivity; discriminate.
  - reflexivity.
Defined.

End TokenFlowFacts.
